(** * Graph colouring for frequency assignment: a shallow embedding

    Model of [graph_coloring.py]: the [Node] and [Graph] classes, the
    colouring algorithms of [FrequencyAssigner], the deterministic generator
    [NetworkGenerator.cellular_grid] and [compare_algorithms].  The random
    generators ([random_geometric], [scale_free]) and [export_assignment],
    which writes a file, are not modelled.

    Conventions of the embedding.
    - Python [int] is [Z]; [Optional[int]] is [option Z]; a Python [set] of
      integers is a [gset Z]; the [nodes] dictionary, whose insertion order
      the algorithms observe, is an association list in insertion order; the
      [adjacency] index is a [defaultdict(set)], i.e. a [gmap Z (gset Z)]
      whose item access inserts an empty set under a missing key.
    - The graph is a mutable object shared by every method.  Methods are
      computations in a state-and-exception monad over [Graph]: a raised
      exception keeps the state reached so far, as in Python.
    - [position] is a pair of floats the engine never inspects; it is carried
      as a pair of rationals.  A float of the statistics record is an IEEE 754
      binary64 number, carried as the rational it denotes: every float
      operation rounds its exact result to the nearest binary64 number, ties
      to the even significand ([binary64]).  Overflow to infinity is not
      modelled.
    - Python does not define the order in which a [set] is iterated.  The
      loops over a set whose outcome does not depend on the order run over
      [elements]; for the set [uncolored] of [dsatur], where [max] makes the
      order visible, the order is a parameter.
    - Limits of the interpreter (recursion depth, memory) are not modelled. *)

From Stdlib Require Import ZArith QArith Qround Lia Lqa String.
From stdpp Require Import base option list sets gmap fin_sets sorting.

#[local] Set Warnings "-clear-no-such-hyp".
#[local] Open Scope Z_scope.

(** ** Data model *)

Definition position_t : Type := (Q * Q)%type.

Record Node : Type := mkNode {
  id : Z;
  position : position_t;
  color : option Z;
  degree : Z;
  saturation : Z;
  neighbors : gset Z
}.

Record Graph : Type := mkGraph {
  nodes : list (Z * Node);
  edges : list (Z * Z);
  adjacency : gmap Z (gset Z)
}.

Definition with_color (c : option Z) (n : Node) : Node :=
  mkNode (id n) (position n) c (degree n) (saturation n) (neighbors n).

Definition with_saturation (s : Z) (n : Node) : Node :=
  mkNode (id n) (position n) (color n) (degree n) s (neighbors n).

Definition with_degree (d : Z) (n : Node) : Node :=
  mkNode (id n) (position n) (color n) d (saturation n) (neighbors n).

Definition with_neighbors (s : gset Z) (n : Node) : Node :=
  mkNode (id n) (position n) (color n) (degree n) (saturation n) s.

Definition set_nodes (l : list (Z * Node)) (g : Graph) : Graph :=
  mkGraph l (edges g) (adjacency g).

Definition set_edges (l : list (Z * Z)) (g : Graph) : Graph :=
  mkGraph (nodes g) l (adjacency g).

Definition set_adjacency (a : gmap Z (gset Z)) (g : Graph) : Graph :=
  mkGraph (nodes g) (edges g) a.

(** Dictionary access on [nodes]. *)

Fixpoint lookup_node (k : Z) (l : list (Z * Node)) : option Node :=
  match l with
  | [] => None
  | (k', n) :: l' => if decide (k = k') then Some n else lookup_node k l'
  end.

(** In-place mutation of the object stored under key [k]. *)
Fixpoint update_node (k : Z) (f : Node → Node) (l : list (Z * Node))
  : list (Z * Node) :=
  match l with
  | [] => []
  | (k', n) :: l' =>
      if decide (k = k') then (k', f n) :: l' else (k', n) :: update_node k f l'
  end.

Definition keys (g : Graph) : list Z := (nodes g).*1.

(** ** The state-and-exception monad *)

Inductive exn : Type := ValueError | KeyError.

Inductive outcome (A : Type) : Type :=
  | Return (a : A) (g : Graph)
  | Raise (e : exn) (g : Graph).
Arguments Return {A} a g.
Arguments Raise {A} e g.

Definition M (A : Type) : Type := Graph → outcome A.

Definition ret {A} (a : A) : M A := λ g, Return a g.

Definition bind {A B} (m : M A) (f : A → M B) : M B :=
  λ g, match m g with
       | Return a g' => f a g'
       | Raise e g' => Raise e g'
       end.

Definition raise {A} (e : exn) : M A := λ g, Raise e g.
Definition get : M Graph := λ g, Return g g.
Definition modify (f : Graph → Graph) : M unit := λ g, Return tt (f g).

Declare Scope py_scope.
Delimit Scope py_scope with py.
Notation "x <- m ;; k" := (bind m (λ x, k))
  (at level 20, m at level 99, k at level 200, only parsing) : py_scope.
Notation "m ;; k" := (bind m (λ _, k))
  (at level 100, k at level 200, right associativity, only parsing) : py_scope.
#[local] Open Scope py_scope.

(** [for x in l: body x] *)
Fixpoint for_each {A} (l : list A) (body : A → M unit) : M unit :=
  match l with
  | [] => ret tt
  | x :: l' => body x ;; for_each l' body
  end.

(** A [for] loop that threads a local variable. *)
Fixpoint for_fold {A B} (l : list A) (acc : B) (body : B → A → M B) : M B :=
  match l with
  | [] => ret acc
  | x :: l' => acc' <- body acc x ;; for_fold l' acc' body
  end.

(** ** Primitive accesses *)

(** [self.nodes[k]]: [KeyError] when the key is absent. *)
Definition node_at (k : Z) : M Node :=
  λ g, match lookup_node k (nodes g) with
       | Some n => Return n g
       | None => Raise KeyError g
       end.

(** [self.nodes[k].field = ...] *)
Definition mutate_node (k : Z) (f : Node → Node) : M unit :=
  _ <- node_at k ;; modify (λ g, set_nodes (update_node k f (nodes g)) g).

(** [self.adjacency[u]] on a [defaultdict(set)]: a missing key is inserted
    with an empty set. *)
Definition adjacency_at (u : Z) : M (gset Z) :=
  λ g, match adjacency g !! u with
       | Some s => Return s g
       | None => Return ∅ (set_adjacency (<[u := ∅]> (adjacency g)) g)
       end.

(** [self.adjacency[u].add(v)] *)
Definition adjacency_add (u v : Z) : M unit :=
  s <- adjacency_at u ;;
  modify (λ g, set_adjacency (<[u := s ∪ {[v]}]> (adjacency g)) g).

(** ** class Graph *)

(** [Graph()] before the constructor's loop. *)
Definition empty_graph : Graph := mkGraph [] [] ∅.

Definition add_node (node_id : Z) (pos : position_t) : M unit :=
  g <- get ;;
  match lookup_node node_id (nodes g) with
  | None =>
      modify (set_nodes (nodes g ++ [(node_id, mkNode node_id pos None 0 0 ∅)]))
  | Some _ => ret tt
  end.

(** [Graph(num_nodes)]: [for i in range(num_nodes): self.add_node(i)]. *)
Definition range (n : Z) : list Z := Z.of_nat <$> seq 0 (Z.to_nat n).

Definition default_position : position_t := (0%Q, 0%Q).

Definition Graph_init (num_nodes : Z) : M unit :=
  for_each (range num_nodes) (λ i, add_node i default_position).

Definition add_edge (u v : Z) : M unit :=
  g <- get ;;
  if bool_decide (lookup_node u (nodes g) = None)
     || bool_decide (lookup_node v (nodes g) = None)
  then raise ValueError
  else if bool_decide (u = v) then ret tt
  else
    au <- adjacency_at u ;;
    if bool_decide (v ∈ au) then ret tt
    else
      modify (λ g, set_edges (edges g ++ [(u, v)]) g) ;;
      adjacency_add u v ;;
      adjacency_add v u ;;
      mutate_node u (λ n, with_degree (degree n + 1) n) ;;
      mutate_node v (λ n, with_degree (degree n + 1) n) ;;
      mutate_node u (λ n, with_neighbors (neighbors n ∪ {[v]}) n) ;;
      mutate_node v (λ n, with_neighbors (neighbors n ∪ {[u]}) n).

(** The loop runs over a Python set; its result does not depend on the
    order, here the order of [elements]. *)
Definition get_neighbor_colors (node_id : Z) : M (gset Z) :=
  adj <- adjacency_at node_id ;;
  for_fold (elements adj) (∅ : gset Z) (λ colors neighbor,
    n <- node_at neighbor ;;
    match color n with
    | Some c => ret (colors ∪ {[c]})
    | None => ret colors
    end).

Definition get_chromatic_number (g : Graph) : Z :=
  Z.of_nat (size (list_to_set (omap (λ kn, color kn.2) (nodes g)) : gset Z)).

(** [for u, v in self.edges: ...] *)
Definition count_conflicts : M Z :=
  g <- get ;;
  for_fold (edges g) 0 (λ conflicts e,
    nu <- node_at e.1 ;;
    match color nu with
    | None => ret conflicts
    | Some cu =>
        nv <- node_at e.2 ;;
        match color nv with
        | None => ret conflicts
        | Some cv =>
            if bool_decide (cu = cv) then ret (conflicts + 1) else ret conflicts
        end
    end).

Definition reset_colors : M unit :=
  modify (λ g,
    set_nodes ((λ kn, (kn.1, with_saturation 0 (with_color None kn.2)))
               <$> nodes g) g).

(** ** class FrequencyAssigner *)

(** The statistics dictionary, and the dictionary [{'error': ...}] that
    [backtracking_exact] returns instead when the search fails.  A float
    field holds the rational that the binary64 number denotes. *)
Record Stats : Type := mkStats {
  algorithm : string;
  chromatic_number : Z;
  conflicts : Z;
  time_ms : Q;
  efficiency : Q;
  stat_nodes : Z;
  stat_edges : Z
}.

Inductive Result : Type :=
  | StatsRecord (s : Stats)
  | ErrorRecord (msg : string).

(** [while color in neighbor_colors: color += 1], with the number of
    iterations bounded by [fuel]. *)
Fixpoint first_fit (fuel : nat) (neighbor_colors : gset Z) (color : Z) : Z :=
  match fuel with
  | O => color
  | S fuel' =>
      if decide (color ∈ neighbor_colors)
      then first_fit fuel' neighbor_colors (color + 1)
      else color
  end.

Definition get_smallest_available_color (neighbor_colors : gset Z) : Z :=
  first_fit (S (size neighbor_colors)) neighbor_colors 0.

(** [sorted]: a stable sort.  [before y x] says that [y] is strictly ahead of
    [x] in the requested order; elements that compare equal keep their
    original relative order, also under [reverse=True]. *)
Fixpoint insert_sorted {A} (before : A → A → bool) (x : A) (l : list A)
  : list A :=
  match l with
  | [] => [x]
  | y :: l' =>
      if before y x then y :: insert_sorted before x l' else x :: y :: l'
  end.

Definition sorted_by {A} (before : A → A → bool) (l : list A) : list A :=
  foldr (insert_sorted before) [] l.

(** The integer nearest to [x], ties to even. *)
Definition round_half_even (x : Q) : Z :=
  let f := Qfloor x in
  match Qcompare (x - inject_Z f) (1 # 2) with
  | Lt => f
  | Gt => f + 1
  | Eq => if Z.even f then f else f + 1
  end.

(** The multiple of 1/100 nearest to [x], ties to even. *)
Definition round2 (x : Q) : Q := (inject_Z (round_half_even (x * 100)) / 100)%Q.

(** The binary64 number nearest to the rational [x > 0], ties to the even
    significand.  [scaled] is [x] in units of 2^-1074, the smallest positive
    binary64 number; the binary64 numbers around [x] are [2^k] units apart,
    so that the significand [scaled / 2^k] has 53 bits ([k = 0] in the
    subnormal range). *)
Definition binary64_nonneg (x : Q) : Q :=
  let scaled := (x * inject_Z (2 ^ 1074))%Q in
  let k := Z.max 0 (Z.log2 (Qfloor scaled) - 52) in
  (inject_Z (round_half_even (scaled / inject_Z (2 ^ k)) * 2 ^ k)
   / inject_Z (2 ^ 1074))%Q.

(** The value of a correctly rounded float operation whose exact result is
    [x]: [int / int], [float * float], the conversion of a decimal. *)
Definition binary64 (x : Q) : Q :=
  match (x ?= 0)%Q with
  | Eq => 0%Q
  | Gt => binary64_nonneg x
  | Lt => (- binary64_nonneg (- x))%Q
  end.

(** [round(x, 2)] on a float: the exact value of [x] is rounded to the
    nearest multiple of 1/100, ties to even, and the decimal obtained is
    converted to a float.  (On the [int] 0 it returns 0, as here.) *)
Definition py_round2 (x : Q) : Q := binary64 (round2 x).

Arguments binary64_nonneg : simpl never.
Arguments binary64 : simpl never.
Arguments py_round2 : simpl never.

Definition len {A} (l : list A) : Z := Z.of_nat (length l).

(** [self.stats] is assigned the dictionary that is returned; the assigner
    object is not part of the state.  [(num_nodes - chromatic) / num_nodes]
    is the true division of two [int]s, correctly rounded; [* 100] and
    [elapsed_time * 1000] are float multiplications. *)
Definition _compute_stats (algorithm : string) (elapsed_time : Q) : M Stats :=
  g <- get ;;
  let chromatic := get_chromatic_number g in
  conflicts <- count_conflicts ;;
  g <- get ;;
  let num_nodes := len (nodes g) in
  let efficiency :=
    if bool_decide (num_nodes > 0)
    then binary64
           (binary64 (inject_Z (num_nodes - chromatic) / inject_Z num_nodes)
            * 100)
    else 0%Q in
  ret (mkStats algorithm chromatic conflicts
         (py_round2 (binary64 (elapsed_time * 1000))) (py_round2 efficiency)
         num_nodes (len (edges g))).

(** [node.color = self.get_smallest_available_color(
      self.graph.get_neighbor_colors(node_id))] *)
Definition assign_first_fit (node_id : Z) : M unit :=
  neighbor_colors <- get_neighbor_colors node_id ;;
  mutate_node node_id
    (with_color (Some (get_smallest_available_color neighbor_colors))).

(** [elapsed] stands for the wall-clock difference [time.time() - start_time]. *)
Definition greedy_coloring (elapsed : Q) : M Stats :=
  reset_colors ;;
  g <- get ;;
  for_each (sorted_by Z.ltb (keys g)) assign_first_fit ;;
  _compute_stats "Greedy" elapsed.

(** [sorted_nodes] is a list of references to the node objects held by the
    dictionary; a reference is modelled by the key under which the object is
    stored, and [node.id] is read through it. *)
Definition welsh_powell (elapsed : Q) : M Stats :=
  reset_colors ;;
  g <- get ;;
  let sorted_nodes :=
    (sorted_by (λ a b : Z * Node, degree a.2 >? degree b.2) (nodes g)).*1 in
  for_each sorted_nodes (λ ref,
    node <- node_at ref ;;
    neighbor_colors <- get_neighbor_colors (id node) ;;
    mutate_node ref
      (with_color (Some (get_smallest_available_color neighbor_colors)))) ;;
  _compute_stats "Welsh-Powell" elapsed.

Definition largest_first : Q → M Stats := welsh_powell.

(** [max(iterable, key=...)]: the first element, in iteration order, whose key
    is not exceeded; [ValueError] on an empty iterable. *)
Definition py_max {K} (gt : K → K → bool) (key : Z → M K) (l : list Z) : M Z :=
  match l with
  | [] => raise ValueError
  | x :: l' =>
      kx <- key x ;;
      best <- for_fold l' (x, kx) (λ best y,
                ky <- key y ;;
                if gt ky best.2 then ret (y, ky) else ret best) ;;
      ret best.1
  end.

(** Comparison [>] on the tuples [(saturation, degree)]. *)
Definition pair_gt (a b : Z * Z) : bool :=
  (a.1 >? b.1) || ((a.1 =? b.1) && (a.2 >? b.2)).

Definition set_remove (x : Z) (l : list Z) : list Z := filter (λ y, y ≠ x) l.

Section DSATUR.
(** The set [uncolored] is carried as the list of its elements in iteration
    order.  Python does not define the order in which [set(keys)] is
    iterated: [set_order] gives it.  Removing an element leaves the others
    in place. *)
Variable set_order : list Z → list Z.

Definition dsatur_first (uncolored : list Z) : M (list Z) :=
  match uncolored with
  | [] => ret uncolored
  | _ =>
      first_node <-
        py_max Z.gtb (λ n, nd <- node_at n ;; ret (degree nd)) uncolored ;;
      mutate_node first_node (with_color (Some 0)) ;;
      let uncolored := set_remove first_node uncolored in
      adj <- adjacency_at first_node ;;
      for_each (elements adj) (λ neighbor,
        if bool_decide (neighbor ∈ uncolored)
        then mutate_node neighbor (λ n, with_saturation (saturation n + 1) n)
        else ret tt) ;;
      ret uncolored
  end.

Definition dsatur_select (uncolored : list Z) : M Z :=
  py_max pair_gt
    (λ n, nd <- node_at n ;; ret (saturation nd, degree nd)) uncolored.

(** One iteration of [while uncolored:]. *)
Definition dsatur_step (uncolored : list Z) : M (list Z) :=
  selected <- dsatur_select uncolored ;;
  assign_first_fit selected ;;
  let uncolored := set_remove selected uncolored in
  adj <- adjacency_at selected ;;
  for_each (elements adj) (λ neighbor,
    if bool_decide (neighbor ∈ uncolored)
    then
      neighbor_colors <- get_neighbor_colors neighbor ;;
      mutate_node neighbor
        (with_saturation (Z.of_nat (size neighbor_colors)))
    else ret tt) ;;
  ret uncolored.

(** [while uncolored: ...], at most [fuel] iterations; the remaining set is
    returned. *)
Fixpoint dsatur_loop (fuel : nat) (uncolored : list Z) : M (list Z) :=
  match fuel, uncolored with
  | _, [] => ret []
  | O, _ => ret uncolored
  | S fuel', _ =>
      uncolored' <- dsatur_step uncolored ;;
      dsatur_loop fuel' uncolored'
  end.

Definition dsatur (elapsed : Q) : M Stats :=
  reset_colors ;;
  g <- get ;;
  uncolored <- dsatur_first (set_order (keys g)) ;;
  dsatur_loop (length uncolored) uncolored ;;
  _compute_stats "DSATUR" elapsed.
End DSATUR.

(** [for color in range(max_colors): ...] inside [backtrack(idx)]; [next]
    is the recursive call [backtrack(idx + 1)]. *)
Fixpoint try_colors (next : M bool) (node_id : Z) (neighbor_colors : gset Z)
    (colors : list Z) : M bool :=
  match colors with
  | [] => ret false
  | color :: colors' =>
      if bool_decide (color ∈ neighbor_colors)
      then try_colors next node_id neighbor_colors colors'
      else
        mutate_node node_id (with_color (Some color)) ;;
        ok <- next ;;
        if (ok : bool) then ret true
        else
          mutate_node node_id (with_color None) ;;
          try_colors next node_id neighbor_colors colors'
  end.

(** [backtrack(idx)], on the nodes [node_ids[idx:]] still to be coloured. *)
Fixpoint backtrack (max_colors : Z) (node_ids : list Z) : M bool :=
  match node_ids with
  | [] => ret true
  | node_id :: rest =>
      neighbor_colors <- get_neighbor_colors node_id ;;
      try_colors (backtrack max_colors rest) node_id neighbor_colors
        (range max_colors)
  end.

Definition backtracking_exact (max_colors : option Z) (elapsed : Q) : M Result :=
  reset_colors ;;
  g <- get ;;
  let max_colors := default (len (nodes g)) max_colors in
  let node_ids := keys g in
  success <- backtrack max_colors node_ids ;;
  if (success : bool)
  then stats <- _compute_stats "Backtracking-Exact" elapsed ;;
       ret (StatsRecord stats)
  else ret (ErrorRecord "No solution found with given color limit").

(** ** class NetworkGenerator *)

(** One cell of the second loop of [cellular_grid]. *)
Definition cellular_grid_cell (rows cols : Z) (connectivity : string)
    (i j : Z) : M unit :=
  let node_id := i * cols + j in
  (if bool_decide (j < cols - 1) then add_edge node_id (node_id + 1)
   else ret tt) ;;
  (if bool_decide (i < rows - 1) then add_edge node_id (node_id + cols)
   else ret tt) ;;
  if bool_decide (connectivity = "hex"%string)
  then
    (if bool_decide (i < rows - 1) && bool_decide (j > 0)
     then add_edge node_id (node_id + cols - 1) else ret tt) ;;
    (if bool_decide (i < rows - 1) && bool_decide (j < cols - 1)
     then add_edge node_id (node_id + cols + 1) else ret tt)
  else ret tt.

(** [NetworkGenerator.cellular_grid(rows, cols, connectivity)], run on the
    new [Graph()] it creates; the graph it returns is the final state. *)
Definition cellular_grid (rows cols : Z) (connectivity : string) : M unit :=
  for_each (range rows) (λ i,
    for_each (range cols) (λ j,
      let node_id := i * cols + j in
      add_node node_id (inject_Z (j * 100), inject_Z (i * 100)))) ;;
  for_each (range rows) (λ i,
    for_each (range cols) (λ j,
      cellular_grid_cell rows cols connectivity i j)).

(** ** compare_algorithms *)

(** The rows [results] from which the data frame is made, once
    [import pandas as pd] has succeeded; the data frame itself is carried as
    the list of its rows.  The four arguments [e1 .. e4] stand for the
    wall-clock differences of the four runs. *)
Definition compare_algorithms (set_order : list Z → list Z) (e1 e2 e3 e4 : Q)
  : M (list Result) :=
  let row (algo : M Stats) : M Result := stats <- algo ;; ret (StatsRecord stats) in
  let algorithms :=
    [("Greedy"%string, row (greedy_coloring e1));
     ("Welsh-Powell"%string, row (welsh_powell e2));
     ("DSATUR"%string, row (dsatur set_order e3))] in
  g <- get ;;
  let algorithms :=
    if bool_decide (len (nodes g) ≤ 30)
    then algorithms ++ [("Backtracking"%string, backtracking_exact None e4)]
    else algorithms in
  for_fold algorithms [] (λ results name_algo,
    stats <- name_algo.2 ;;
    ret (results ++ [stats])).

(** * Verification *)

(** ** Observations on a graph state *)

(** [self.adjacency[u]] as a value: a missing key reads as the empty set. *)
Definition adj (g : Graph) (u : Z) : gset Z := default ∅ (adjacency g !! u).

Definition color_of (g : Graph) (k : Z) : option Z :=
  lookup_node k (nodes g) ≫= color.

(** The colours of the coloured neighbours of [u]. *)
Definition neighbor_colors_of (g : Graph) (u : Z) : gset Z :=
  list_to_set (omap (color_of g) (elements (adj g u))).

Definition state_after {A} (r : outcome A) : Graph :=
  match r with Return _ g | Raise _ g => g end.

(** ** Association-list lemmas *)

Section assoc.
Implicit Types (l : list (Z * Node)) (k : Z) (f : Node → Node).

Lemma lookup_node_None l k : lookup_node k l = None ↔ k ∉ l.*1.
Proof.
  induction l as [|[k' n] l IH]; simpl.
  - split; [intros _; apply not_elem_of_nil | done].
  - rewrite not_elem_of_cons. case_decide; subst.
    + split; [done | intros [? _]; done].
    + rewrite IH. tauto.
Qed.

Lemma lookup_node_is_Some l k : is_Some (lookup_node k l) ↔ k ∈ l.*1.
Proof.
  rewrite <- not_eq_None_Some, lookup_node_None.
  destruct (decide (k ∈ l.*1)); tauto.
Qed.

Lemma elem_lookup_node l k n :
  NoDup l.*1 → (k, n) ∈ l → lookup_node k l = Some n.
Proof.
  induction l as [|[k' n'] l IH]; simpl; intros Hnd Hin.
  - by apply elem_of_nil in Hin.
  - apply NoDup_cons in Hnd as [Hk' Hnd].
    apply elem_of_cons in Hin as [[= -> ->]|Hin].
    + by rewrite decide_True.
    + rewrite decide_False; [auto|].
      intros ->. apply Hk'. apply list_elem_of_fmap. by exists (k', n).
Qed.

Lemma update_node_keys l k f : (update_node k f l).*1 = l.*1.
Proof.
  induction l as [|[k' n] l IH]; csimpl; [done|].
  case_decide; csimpl; [done | by rewrite IH].
Qed.

Lemma lookup_update_node l k k' f :
  lookup_node k' (update_node k f l)
  = if decide (k' = k) then f <$> lookup_node k l else lookup_node k' l.
Proof.
  induction l as [|[k0 n] l IH]; simpl.
  - by case_decide.
  - destruct (decide (k = k0)) as [->|Hne]; simpl.
    + by destruct (decide (k' = k0)) as [->|?].
    + rewrite IH.
      destruct (decide (k' = k0)) as [->|?]; [|done].
      by rewrite decide_False.
Qed.

Lemma lookup_node_app l1 l2 k :
  lookup_node k (l1 ++ l2)
  = match lookup_node k l1 with Some n => Some n | None => lookup_node k l2 end.
Proof.
  induction l1 as [|[k' n] l1 IH]; simpl; [done|]. by case_decide.
Qed.

Lemma lookup_node_fmap l k f :
  lookup_node k ((λ kn, (kn.1, f kn.2)) <$> l) = f <$> lookup_node k l.
Proof.
  induction l as [|[k' n] l IH]; simpl; [done|]. by case_decide.
Qed.
End assoc.

(** ** Running computations *)

Lemma bind_Return {A B} (m : M A) (f : A → M B) g a g' :
  m g = Return a g' → bind m f g = f a g'.
Proof. unfold bind. by intros ->. Qed.

Lemma node_at_Some g k n :
  lookup_node k (nodes g) = Some n → node_at k g = Return n g.
Proof. unfold node_at. by intros ->. Qed.

Lemma mutate_node_Some g k f :
  k ∈ keys g →
  mutate_node k f g = Return tt (set_nodes (update_node k f (nodes g)) g).
Proof.
  intros [n Hn]%lookup_node_is_Some. unfold mutate_node.
  by rewrite (bind_Return _ _ _ _ _ (node_at_Some _ _ _ Hn)).
Qed.

(** The state left by the item access [self.adjacency[u]]. *)
Definition touch (u : Z) (g : Graph) : Graph :=
  match adjacency g !! u with
  | Some _ => g
  | None => set_adjacency (<[u := ∅]> (adjacency g)) g
  end.

Lemma adjacency_at_touch g u : adjacency_at u g = Return (adj g u) (touch u g).
Proof. unfold adjacency_at, touch, adj. by destruct (adjacency g !! u). Qed.

Lemma adj_touch g u w : adj (touch u g) w = adj g w.
Proof.
  unfold touch, adj. destruct (adjacency g !! u) eqn:E; [done|]. simpl.
  destruct (decide (u = w)) as [->|?].
  - by rewrite lookup_insert_eq, E.
  - by rewrite lookup_insert_ne.
Qed.

Lemma nodes_touch g u : nodes (touch u g) = nodes g.
Proof. unfold touch. by destruct (adjacency g !! u). Qed.

Lemma edges_touch g u : edges (touch u g) = edges g.
Proof. unfold touch. by destruct (adjacency g !! u). Qed.

Lemma adj_insert g u s w :
  adj (set_adjacency (<[u := s]> (adjacency g)) g) w
  = if decide (w = u) then s else adj g w.
Proof.
  unfold adj. simpl. case_decide; subst.
  - by rewrite lookup_insert_eq.
  - by rewrite lookup_insert_ne.
Qed.

Lemma adjacency_add_run g u v :
  adjacency_add u v g
  = Return tt (set_adjacency (<[u := adj g u ∪ {[v]}]> (adjacency (touch u g)))
                 (touch u g)).
Proof.
  unfold adjacency_add.
  by rewrite (bind_Return _ _ _ _ _ (adjacency_at_touch g u)).
Qed.

(** ** add_edge *)

Definition has_node (g : Graph) (k : Z) : Prop := k ∈ keys g.

#[global] Instance has_node_dec g k : Decision (has_node g k).
Proof. unfold has_node. apply _. Defined.

Lemma add_edge_raises g u v :
  ¬ (has_node g u ∧ has_node g v) → add_edge u v g = Raise ValueError g.
Proof.
  unfold has_node, keys. intros Hno. unfold add_edge, bind, get. simpl.
  destruct (bool_decide (lookup_node u (nodes g) = None)) eqn:Eu; [done|].
  destruct (bool_decide (lookup_node v (nodes g) = None)) eqn:Ev; [done|].
  apply bool_decide_eq_false in Eu, Ev. exfalso. apply Hno.
  rewrite <- !lookup_node_is_Some, <- !not_eq_None_Some. done.
Qed.

Lemma add_edge_guard g u v :
  has_node g u → has_node g v →
  bool_decide (lookup_node u (nodes g) = None)
  || bool_decide (lookup_node v (nodes g) = None) = false.
Proof.
  unfold has_node, keys.
  intros Hu%lookup_node_is_Some%not_eq_None_Some
         Hv%lookup_node_is_Some%not_eq_None_Some.
  by rewrite !bool_decide_eq_false_2.
Qed.

Lemma nodes_set_nodes l g : nodes (set_nodes l g) = l.
Proof. done. Qed.
Lemma nodes_set_edges l g : nodes (set_edges l g) = nodes g.
Proof. done. Qed.
Lemma nodes_set_adjacency a g : nodes (set_adjacency a g) = nodes g.
Proof. done. Qed.
Lemma edges_set_nodes l g : edges (set_nodes l g) = edges g.
Proof. done. Qed.
Lemma edges_set_edges l g : edges (set_edges l g) = l.
Proof. done. Qed.
Lemma edges_set_adjacency a g : edges (set_adjacency a g) = edges g.
Proof. done. Qed.
Lemma adj_set_nodes l g w : adj (set_nodes l g) w = adj g w.
Proof. done. Qed.
Lemma adj_set_edges l g w : adj (set_edges l g) w = adj g w.
Proof. done. Qed.

Create Rewrite HintDb graph.
#[local] Hint Rewrite nodes_set_nodes nodes_set_edges nodes_set_adjacency
  edges_set_nodes edges_set_edges edges_set_adjacency adj_set_nodes
  adj_set_edges nodes_touch edges_touch adj_touch : graph.

Lemma keys_touch g u : keys (touch u g) = keys g.
Proof. unfold keys. by rewrite nodes_touch. Qed.

Lemma keys_update_node g k f :
  keys (set_nodes (update_node k f (nodes g)) g) = keys g.
Proof. unfold keys. cbn [nodes set_nodes]. apply update_node_keys. Qed.

(** The node objects after a successful insertion of the edge [(u, v)]. *)
Definition link_nodes (u v : Z) (l : list (Z * Node)) : list (Z * Node) :=
  update_node v (λ n, with_neighbors (neighbors n ∪ {[u]}) n)
    (update_node u (λ n, with_neighbors (neighbors n ∪ {[v]}) n)
       (update_node v (λ n, with_degree (degree n + 1) n)
          (update_node u (λ n, with_degree (degree n + 1) n) l))).

Lemma add_edge_fresh g u v :
  has_node g u → has_node g v → u ≠ v → v ∉ adj g u →
  ∃ g', add_edge u v g = Return tt g'
        ∧ nodes g' = link_nodes u v (nodes g)
        ∧ edges g' = edges g ++ [(u, v)]
        ∧ ∀ w, adj g' w = if decide (w = v) then adj g v ∪ {[u]}
                          else if decide (w = u) then adj g u ∪ {[v]}
                          else adj g w.
Proof.
  intros Hu Hv Hne Hfresh. unfold add_edge, bind at 1, get.
  rewrite add_edge_guard by done.
  rewrite (bool_decide_eq_false_2 (u = v)); [|exact Hne].
  rewrite (bind_Return _ _ _ _ _ (adjacency_at_touch g u)).
  rewrite (bool_decide_eq_false_2 (v ∈ adj g u)) by done.
  unfold bind at 1, modify.
  rewrite (bind_Return _ _ _ _ _ (adjacency_add_run _ u v)).
  rewrite (bind_Return _ _ _ _ _ (adjacency_add_run _ v u)).
  set (g3 := set_adjacency _ _).
  assert (Hk : ∀ g1 k f, k ∈ keys g → keys g1 = keys g →
    mutate_node k f g1
    = Return tt (set_nodes (update_node k f (nodes g1)) g1)).
  { intros g1 k f Hin Hl. apply mutate_node_Some. by rewrite Hl. }
  assert (Hk3 : keys g3 = keys g).
  { unfold keys, g3. by autorewrite with graph. }
  do 3 (erewrite bind_Return;
        [|apply Hk; [done | unfold keys; autorewrite with graph;
                            by rewrite ?update_node_keys]]).
  rewrite Hk; [|done | unfold keys; autorewrite with graph;
                       by rewrite ?update_node_keys].
  eexists. split; [done|]. split_and!.
  - unfold g3, link_nodes. by autorewrite with graph.
  - unfold g3. by autorewrite with graph.
  - intros w. unfold g3. autorewrite with graph.
    rewrite adj_insert. case_decide; subst.
    + autorewrite with graph. rewrite adj_insert, decide_False by done.
      by autorewrite with graph.
    + autorewrite with graph. rewrite adj_insert. case_decide; subst;
        by autorewrite with graph.
Qed.

Lemma add_edge_self g u : has_node g u → add_edge u u g = Return tt g.
Proof.
  intros Hu. unfold add_edge, bind at 1, get.
  rewrite add_edge_guard by done. by rewrite bool_decide_eq_true_2.
Qed.

Lemma add_edge_known g u v :
  has_node g u → has_node g v → u ≠ v → v ∈ adj g u →
  add_edge u v g = Return tt g.
Proof.
  intros Hu Hv Hne Hin. unfold add_edge, bind at 1, get.
  rewrite add_edge_guard by done.
  rewrite (bool_decide_eq_false_2 (u = v)) by done.
  rewrite (bind_Return _ _ _ _ _ (adjacency_at_touch g u)).
  rewrite (bool_decide_eq_true_2 (v ∈ adj g u)) by done.
  unfold touch, adj in *. by destruct (adjacency g !! u).
Qed.

Lemma add_node_known g k pos : has_node g k → add_node k pos g = Return tt g.
Proof.
  intros [n Hn]%lookup_node_is_Some. unfold add_node, bind, get. by rewrite Hn.
Qed.

Lemma add_node_fresh g k pos :
  ¬ has_node g k →
  add_node k pos g
  = Return tt (set_nodes (nodes g ++ [(k, mkNode k pos None 0 0 ∅)]) g).
Proof.
  intros Hn%lookup_node_None. unfold add_node, bind, get. by rewrite Hn.
Qed.

(** ** The graph invariant *)

Record wf (g : Graph) : Prop := mk_wf {
  wf_keys : NoDup (keys g);
  wf_node : ∀ k n, lookup_node k (nodes g) = Some n →
            id n = k ∧ neighbors n = adj g k
            ∧ degree n = Z.of_nat (size (adj g k));
  wf_adj_nodes : ∀ u v, v ∈ adj g u → has_node g u ∧ has_node g v;
  wf_adj_sym : ∀ u v, v ∈ adj g u → u ∈ adj g v;
  wf_adj_irrefl : ∀ u, u ∉ adj g u;
  wf_edges_adj : ∀ u v, (u, v) ∈ edges g → v ∈ adj g u;
  wf_adj_edges : ∀ u v, v ∈ adj g u → (u, v) ∈ edges g ∨ (v, u) ∈ edges g;
  wf_edges_once : ∀ u v, (u, v) ∈ edges g → (v, u) ∉ edges g;
  wf_edges_nodup : NoDup (edges g)
}.

Lemma adj_empty_graph u : adj empty_graph u = ∅.
Proof. unfold adj. simpl. by rewrite lookup_empty. Qed.

Lemma wf_empty : wf empty_graph.
Proof.
  split; try setoid_rewrite adj_empty_graph; try done.
  - constructor.
  - intros u v Hin. by apply elem_of_nil in Hin.
  - intros u v Hin. by apply elem_of_nil in Hin.
  - constructor.
Qed.

Lemma adj_absent g u : wf g → ¬ has_node g u → adj g u = ∅.
Proof.
  intros Hwf Hu. apply set_eq. intros v. split; [|set_solver].
  intros Hv. destruct (wf_adj_nodes g Hwf u v Hv). done.
Qed.

Lemma wf_add_node g k pos : wf g → wf (state_after (add_node k pos g)).
Proof.
  intros Hwf. destruct (decide (has_node g k)) as [Hk|Hk].
  { by rewrite add_node_known. }
  rewrite add_node_fresh by done. simpl.
  assert (Hkeys : ∀ x, has_node g x →
            has_node (set_nodes (nodes g ++ [(k, mkNode k pos None 0 0 ∅)]) g) x).
  { intros x. unfold has_node, keys. rewrite nodes_set_nodes, fmap_app.
    set_solver. }
  destruct Hwf. split; try done.
  - unfold keys. rewrite nodes_set_nodes, fmap_app. apply NoDup_app.
    split_and!; [done| |apply NoDup_singleton].
    intros x Hx [->|[]%elem_of_nil]%elem_of_cons. done.
  - intros k' n. rewrite nodes_set_nodes, lookup_node_app.
    destruct (lookup_node k' (nodes g)) eqn:E.
    + intros [= <-]. rewrite !adj_set_nodes. eauto.
    + simpl. case_decide; [|done]. intros [= <-]. subst k'. simpl.
      rewrite adj_set_nodes, adj_absent; [done|by split|done].
  - intros u v Hin. rewrite adj_set_nodes in Hin.
    destruct (wf_adj_nodes0 u v Hin). auto.
Qed.

Definition link_node (k u v : Z) (n : Node) : Node :=
  if decide (k = v)
  then with_neighbors (neighbors n ∪ {[u]}) (with_degree (degree n + 1) n)
  else if decide (k = u)
  then with_neighbors (neighbors n ∪ {[v]}) (with_degree (degree n + 1) n)
  else n.

Lemma lookup_link_nodes l u v k :
  u ≠ v →
  lookup_node k (link_nodes u v l) = link_node k u v <$> lookup_node k l.
Proof.
  intros Hne. unfold link_nodes, link_node. rewrite !lookup_update_node.
  repeat case_decide; subst; try done;
    rewrite ?lookup_update_node, ?decide_True, ?decide_False by done;
    by destruct (lookup_node _ l).
Qed.

Lemma link_nodes_keys l u v : (link_nodes u v l).*1 = l.*1.
Proof. unfold link_nodes. by rewrite !update_node_keys. Qed.

Lemma wf_add_edge g u v : wf g → wf (state_after (add_edge u v g)).
Proof.
  intros Hwf.
  destruct (decide (has_node g u ∧ has_node g v)) as [[Hu Hv]|Hno];
    [|by rewrite add_edge_raises].
  destruct (decide (u = v)) as [->|Hne]; [by rewrite add_edge_self|].
  destruct (decide (v ∈ adj g u)) as [Hin|Hin]; [by rewrite add_edge_known|].
  destruct (add_edge_fresh g u v Hu Hv Hne Hin) as (g' & -> & Hn & He & Ha).
  simpl.
  assert (Hkeys : keys g' = keys g).
  { unfold keys. by rewrite Hn, link_nodes_keys. }
  assert (Hadj : ∀ a b, b ∈ adj g' a ↔
            b ∈ adj g a ∨ (a = u ∧ b = v) ∨ (a = v ∧ b = u)).
  { intros a b. rewrite Ha. repeat case_decide; set_solver. }
  assert (Hvu : u ∉ adj g v).
  { intros ?. apply Hin. by apply wf_adj_sym. }
  destruct Hwf. split; unfold has_node in *.
  - by rewrite Hkeys.
  - intros k n. rewrite Hn, lookup_link_nodes by done.
    destruct (lookup_node k (nodes g)) as [n0|] eqn:E; [|done].
    intros [= <-]. destruct (wf_node0 k n0 E) as (Hid & Hnb & Hdeg).
    rewrite Ha. unfold link_node. repeat case_decide; subst; simpl.
    + split_and!; [done|by rewrite Hnb|].
      rewrite size_union by set_solver. rewrite size_singleton. lia.
    + split_and!; [done|by rewrite Hnb|].
      rewrite size_union by set_solver. rewrite size_singleton. lia.
    + done.
  - intros a b [Hab|[[-> ->]|[-> ->]]]%Hadj; rewrite Hkeys; auto.
  - intros a b. rewrite !Hadj. intros [Hab|[[-> ->]|[-> ->]]]; auto.
  - intros a. rewrite Hadj. intros [?|[[-> ->]|[-> ->]]]; try done.
    by eapply wf_adj_irrefl0.
  - intros a b. rewrite He, Hadj, elem_of_app, list_elem_of_singleton.
    intros [?|[= -> ->]]; auto.
  - intros a b. rewrite He, Hadj, !elem_of_app, !list_elem_of_singleton.
    intros [Hab|[[-> ->]|[-> ->]]]; auto.
    destruct (wf_adj_edges0 a b Hab); auto.
  - intros a b. rewrite He, !elem_of_app, !list_elem_of_singleton.
    intros [Hab|[= -> ->]] [Hba|[= ? ?]]; subst; try done.
    + by eapply wf_edges_once0.
    + by apply Hvu, wf_edges_adj0.
    + by apply Hvu, wf_edges_adj0.
  - rewrite He. apply NoDup_app. split_and!; [done| |apply NoDup_singleton].
    intros [a b] Hab [[= -> ->]|[]%elem_of_nil]%elem_of_cons.
    by apply Hin, wf_edges_adj0.
Qed.

(** ** Building a graph *)

Inductive op : Type :=
  | AddNode (node_id : Z) (pos : position_t)
  | AddEdge (u v : Z).

Definition run_op (o : op) : M unit :=
  match o with
  | AddNode node_id pos => add_node node_id pos
  | AddEdge u v => add_edge u v
  end.

(** The state after a sequence of calls on a new [Graph()]; a call of
    [add_edge] that raises is caught by the caller, and the sequence goes on
    from the state it left. *)
Definition run_ops (ops : list op) (g : Graph) : Graph :=
  foldl (λ g o, state_after (run_op o g)) g ops.

Definition build (ops : list op) : Graph := run_ops ops empty_graph.

Lemma wf_run_ops ops g : wf g → wf (run_ops ops g).
Proof.
  revert g. induction ops as [|o ops IH]; intros g Hwf; simpl; [done|].
  apply IH. destruct o; [by apply wf_add_node | by apply wf_add_edge].
Qed.

Lemma wf_build ops : wf (build ops).
Proof. apply wf_run_ops, wf_empty. Qed.

Lemma add_node_returns g k pos :
  add_node k pos g = Return tt (state_after (add_node k pos g)).
Proof.
  destruct (decide (has_node g k)).
  - by rewrite add_node_known.
  - by rewrite add_node_fresh.
Qed.

(** The loop of the constructor [Graph(num_nodes)] is a sequence of
    [add_node] calls. *)
Lemma Graph_init_run num_nodes g :
  Graph_init num_nodes g
  = Return tt (run_ops ((λ i, AddNode i default_position) <$> range num_nodes) g).
Proof.
  unfold Graph_init. revert g.
  induction (range num_nodes) as [|i l IH]; intros g; [done|].
  cbn [for_each]. rewrite (bind_Return _ _ _ _ _ (add_node_returns g i _)).
  by rewrite IH.
Qed.

(** ** Total-correctness triples *)

(** From a state satisfying [P], the computation returns (it raises nothing)
    a value and a state related by [Q]. *)
Definition hoare {A} (P : Graph → Prop) (m : M A) (Q : A → Graph → Prop)
  : Prop :=
  ∀ g, P g → ∃ a g', m g = Return a g' ∧ Q a g'.

Lemma hoare_bind {A B} (P : Graph → Prop) (Q : A → Graph → Prop)
    (R : B → Graph → Prop) (m : M A) (f : A → M B) :
  hoare P m Q → (∀ a, hoare (Q a) (f a) R) → hoare P (bind m f) R.
Proof.
  intros Hm Hf g HP. destruct (Hm g HP) as (a & g1 & Hrun & HQ).
  rewrite (bind_Return _ _ _ _ _ Hrun). by apply Hf.
Qed.

(** [for x in l], with an invariant indexed by the elements done. *)
Lemma hoare_for_each {A} (I : list A → Graph → Prop) (l : list A)
    (body : A → M unit) :
  (∀ done x rest, l = done ++ x :: rest →
     hoare (I done) (body x) (λ _, I (done ++ [x]))) →
  hoare (I []) (for_each l body) (λ _, I l).
Proof.
  intros Hbody.
  cut (∀ rest done, l = done ++ rest →
         hoare (I done) (for_each rest body) (λ _, I l)).
  { intros H. by apply (H l []). }
  induction rest as [|x rest IH]; intros done Hl; simpl.
  - rewrite app_nil_r in Hl. rewrite Hl. intros g Hg. by exists tt, g.
  - eapply hoare_bind; [by eapply Hbody|].
    intros []. apply IH. by rewrite <- app_assoc.
Qed.

(** ** State transformers of the algorithms *)

(** [self.nodes[k].color = c] *)
Definition paint (k : Z) (c : option Z) (g : Graph) : Graph :=
  set_nodes (update_node k (with_color c) (nodes g)) g.

(** [self.nodes[k].saturation = s] *)
Definition saturate (k : Z) (s : Z) (g : Graph) : Graph :=
  set_nodes (update_node k (with_saturation s) (nodes g)) g.

Definition reset_nodes (l : list (Z * Node)) : list (Z * Node) :=
  (λ kn, (kn.1, with_saturation 0 (with_color None kn.2))) <$> l.

Definition sat_of (g : Graph) (k : Z) : option Z :=
  saturation <$> lookup_node k (nodes g).

Definition degree_of (g : Graph) (k : Z) : option Z :=
  degree <$> lookup_node k (nodes g).

Lemma keys_set_nodes l g : keys (set_nodes l g) = l.*1.
Proof. done. Qed.

Lemma keys_paint k c g : keys (paint k c g) = keys g.
Proof. apply keys_update_node. Qed.

Lemma keys_saturate k s g : keys (saturate k s g) = keys g.
Proof. apply keys_update_node. Qed.

Lemma adj_paint k c g w : adj (paint k c g) w = adj g w.
Proof. done. Qed.

Lemma adj_saturate k s g w : adj (saturate k s g) w = adj g w.
Proof. done. Qed.

Lemma color_of_touch u g k : color_of (touch u g) k = color_of g k.
Proof. unfold color_of. by rewrite nodes_touch. Qed.

Lemma color_of_paint g u c k :
  has_node g u →
  color_of (paint u c g) k = if decide (k = u) then c else color_of g k.
Proof.
  intros [n Hn]%lookup_node_is_Some. unfold color_of, paint.
  rewrite nodes_set_nodes, lookup_update_node. case_decide; [|done].
  subst. by rewrite Hn.
Qed.

Lemma color_of_saturate g u s k : color_of (saturate u s g) k = color_of g k.
Proof.
  unfold color_of, saturate. rewrite nodes_set_nodes, lookup_update_node.
  case_decide; [|done]. subst. by destruct (lookup_node u (nodes g)).
Qed.

Lemma omap_color_of_ext g g' (l : list Z) :
  (∀ k, color_of g k = color_of g' k) →
  omap (color_of g) l = omap (color_of g') l.
Proof.
  intros Hc. induction l as [|x l IH]; [done|]. csimpl. by rewrite Hc, IH.
Qed.

Lemma neighbor_colors_of_ext g g' u :
  adj g u = adj g' u → (∀ k, color_of g k = color_of g' k) →
  neighbor_colors_of g u = neighbor_colors_of g' u.
Proof.
  intros Ha Hc. unfold neighbor_colors_of.
  by rewrite Ha, (omap_color_of_ext g g').
Qed.

Lemma neighbor_colors_of_touch u g k :
  neighbor_colors_of (touch u g) k = neighbor_colors_of g k.
Proof.
  apply neighbor_colors_of_ext; [apply adj_touch|].
  intros. apply color_of_touch.
Qed.

Lemma elem_of_neighbor_colors_of g u c :
  c ∈ neighbor_colors_of g u ↔ ∃ v, v ∈ adj g u ∧ color_of g v = Some c.
Proof.
  unfold neighbor_colors_of. rewrite elem_of_list_to_set, list_elem_of_omap.
  by setoid_rewrite elem_of_elements.
Qed.

(** Mutations that leave [id], [position], [degree] and [neighbors] alone. *)
Definition keeps_structure (f : Node → Node) : Prop :=
  ∀ n, id (f n) = id n ∧ neighbors (f n) = neighbors n
       ∧ degree (f n) = degree n.

Lemma wf_update_node g k f :
  keeps_structure f → wf g → wf (set_nodes (update_node k f (nodes g)) g).
Proof.
  intros Hf [].
  split; unfold has_node in *; rewrite ?keys_update_node; try done.
  intros k' n'. rewrite nodes_set_nodes, lookup_update_node, adj_set_nodes.
  case_decide; [subst|by auto].
  destruct (lookup_node k (nodes g)) as [n|] eqn:E; [|done].
  intros [= <-]. destruct (Hf n) as (-> & -> & ->). auto.
Qed.

Lemma wf_paint g k c : wf g → wf (paint k c g).
Proof. by apply wf_update_node. Qed.

Lemma wf_saturate g k s : wf g → wf (saturate k s g).
Proof. by apply wf_update_node. Qed.

Lemma wf_touch g u : wf g → wf (touch u g).
Proof.
  intros [].
  split; unfold has_node, keys in *; rewrite ?nodes_touch, ?edges_touch;
    try setoid_rewrite adj_touch; done.
Qed.

Lemma reset_nodes_keys l : (reset_nodes l).*1 = l.*1.
Proof. unfold reset_nodes. rewrite <- list_fmap_compose. done. Qed.

Lemma lookup_reset_nodes l k :
  lookup_node k (reset_nodes l)
  = (λ n, with_saturation 0 (with_color None n)) <$> lookup_node k l.
Proof.
  apply (lookup_node_fmap l k (λ n, with_saturation 0 (with_color None n))).
Qed.

Lemma wf_reset g : wf g → wf (set_nodes (reset_nodes (nodes g)) g).
Proof.
  intros [].
  split; unfold has_node, keys in *;
    rewrite ?nodes_set_nodes, ?reset_nodes_keys; try done.
  intros k n'. rewrite ?nodes_set_nodes, lookup_reset_nodes, adj_set_nodes.
  destruct (lookup_node k (nodes g)) as [n|] eqn:E; [|done].
  intros [= <-]. simpl. auto.
Qed.

Lemma reset_colors_run g :
  reset_colors g = Return tt (set_nodes (reset_nodes (nodes g)) g).
Proof. done. Qed.

(** ** get_neighbor_colors *)

Lemma neighbor_loop_run g (l : list Z) (acc : gset Z) :
  (∀ v, v ∈ l → has_node g v) →
  for_fold l acc (λ colors neighbor,
    n <- node_at neighbor ;;
    match color n with
    | Some c => ret (colors ∪ {[c]})
    | None => ret colors
    end) g
  = Return (acc ∪ list_to_set (omap (color_of g) l)) g.
Proof.
  revert acc. induction l as [|v l IH]; intros acc Hl; simpl.
  - unfold ret. f_equal. set_solver.
  - destruct (proj2 (lookup_node_is_Some (nodes g) v)) as [n Hn].
    { apply Hl, list_elem_of_here. }
    unfold bind at 1. unfold bind at 1. rewrite (node_at_Some _ _ _ Hn).
    unfold color_of at 1. rewrite Hn. simpl.
    destruct (color n) as [c|]; unfold ret at 1.
    + rewrite IH by (intros; apply Hl; by apply list_elem_of_further).
      f_equal. set_solver.
    + apply IH. intros; apply Hl; by apply list_elem_of_further.
Qed.

Lemma get_neighbor_colors_run g u :
  (∀ v, v ∈ adj g u → has_node g v) →
  get_neighbor_colors u g = Return (neighbor_colors_of g u) (touch u g).
Proof.
  intros Hadj. unfold get_neighbor_colors.
  rewrite (bind_Return _ _ _ _ _ (adjacency_at_touch g u)).
  rewrite neighbor_loop_run.
  - unfold neighbor_colors_of. f_equal.
    rewrite union_empty_l_L. f_equal. apply omap_color_of_ext.
    intros. apply color_of_touch.
  - intros v Hv%elem_of_elements. unfold has_node. rewrite keys_touch.
    by apply Hadj.
Qed.

Lemma get_neighbor_colors_wf g u :
  wf g →
  get_neighbor_colors u g = Return (neighbor_colors_of g u) (touch u g).
Proof.
  intros Hwf. apply get_neighbor_colors_run. intros v Hv.
  by destruct (wf_adj_nodes g Hwf u v Hv).
Qed.

(** ** First fit *)

Lemma range_elem (n x : Z) : x ∈ range n ↔ 0 ≤ x < n.
Proof.
  unfold range. rewrite list_elem_of_fmap. setoid_rewrite elem_of_seq. split.
  - intros (i & -> & Hi). lia.
  - intros Hx. exists (Z.to_nat x). lia.
Qed.

Lemma range_NoDup (n : Z) : NoDup (range n).
Proof.
  unfold range. apply NoDup_fmap_2; [|apply NoDup_seq].
  intros i j. lia.
Qed.

Lemma range_length (n : Z) : length (range n) = Z.to_nat n.
Proof. unfold range. by rewrite length_fmap, length_seq. Qed.

(** A set that holds every integer of [0, n) has at least [n] elements. *)
Lemma initial_segment_size (s : gset Z) (n : Z) :
  (∀ x, 0 ≤ x < n → x ∈ s) → n ≤ Z.of_nat (size s).
Proof.
  intros Hs.
  assert (Hsub : list_to_set (range n) ⊆ s).
  { intros x Hx%elem_of_list_to_set%range_elem. auto. }
  apply subseteq_size in Hsub.
  rewrite size_list_to_set in Hsub by apply range_NoDup.
  rewrite range_length in Hsub. lia.
Qed.

Lemma first_fit_spec (s : gset Z) (fuel : nat) (c : Z) :
  c ≤ first_fit fuel s c ≤ c + Z.of_nat fuel
  ∧ (∀ x, c ≤ x < first_fit fuel s c → x ∈ s)
  ∧ (first_fit fuel s c < c + Z.of_nat fuel → first_fit fuel s c ∉ s).
Proof.
  revert c. induction fuel as [|fuel IH]; intros c; simpl.
  - split_and!; intros; lia.
  - case_decide as Hc.
    + destruct (IH (c + 1)) as (Hle & Hin & Hout). split; [|split].
      * lia.
      * intros x Hx. destruct (decide (x = c)) as [->|]; [done|].
        apply Hin. lia.
      * intros Hlt. apply Hout. lia.
    + split; [lia|]. split; [intros; lia | done].
Qed.

Lemma smallest_available_bounds (s : gset Z) :
  0 ≤ get_smallest_available_color s ≤ Z.of_nat (size s).
Proof.
  unfold get_smallest_available_color.
  destruct (first_fit_spec s (S (size s)) 0) as (Hle & Hin & _).
  split; [lia|]. apply initial_segment_size. intros x Hx. apply Hin. lia.
Qed.

(** The loop stops within its fuel, on a colour outside the set. *)
Lemma smallest_available_fresh (s : gset Z) :
  get_smallest_available_color s ∉ s.
Proof.
  pose proof (smallest_available_bounds s) as Hb.
  unfold get_smallest_available_color in *.
  destruct (first_fit_spec s (S (size s)) 0) as (_ & _ & Hout).
  apply Hout. lia.
Qed.

Lemma smallest_available_least (s : gset Z) (x : Z) :
  0 ≤ x < get_smallest_available_color s → x ∈ s.
Proof.
  unfold get_smallest_available_color.
  destruct (first_fit_spec s (S (size s)) 0) as (_ & Hin & _). apply Hin.
Qed.

(** ** Proper partial colourings *)

(** No two adjacent nodes carry the same colour. *)
Definition proper (g : Graph) : Prop :=
  ∀ u v c, v ∈ adj g u → color_of g u = Some c → color_of g v ≠ Some c.

Definition conflict_edge (g : Graph) (e : Z * Z) : Prop :=
  ∃ c, color_of g e.1 = Some c ∧ color_of g e.2 = Some c.

#[global] Instance conflict_edge_dec g e : Decision (conflict_edge g e).
Proof.
  unfold conflict_edge.
  destruct (color_of g e.1) as [c|] eqn:E1.
  - destruct (decide (color_of g e.2 = Some c)) as [E2|E2].
    + left. by exists c.
    + right. intros (c' & [= <-] & ?). done.
  - right. intros (c' & [=] & ?).
Defined.

(** The number of edges whose two endpoints are coloured alike. *)
Definition conflict_count (g : Graph) : Z :=
  len (filter (conflict_edge g) (edges g)).

Lemma proper_touch g u : proper g → proper (touch u g).
Proof.
  intros Hp a b c. rewrite adj_touch, !color_of_touch. apply Hp.
Qed.

Lemma proper_saturate g u s : proper g → proper (saturate u s g).
Proof.
  intros Hp a b c. rewrite adj_saturate, !color_of_saturate. apply Hp.
Qed.

Lemma color_of_reset g k : color_of (set_nodes (reset_nodes (nodes g)) g) k = None.
Proof.
  unfold color_of. rewrite nodes_set_nodes, lookup_reset_nodes.
  by destruct (lookup_node k (nodes g)).
Qed.

Lemma proper_reset g : proper (set_nodes (reset_nodes (nodes g)) g).
Proof. intros a b c _. by rewrite color_of_reset. Qed.

Lemma proper_paint_None g u : has_node g u → proper g → proper (paint u None g).
Proof.
  intros Hu Hp a b c. rewrite adj_paint, !color_of_paint by done.
  repeat case_decide; try done. apply Hp.
Qed.

Lemma proper_paint g u c :
  wf g → has_node g u → proper g → c ∉ neighbor_colors_of g u →
  proper (paint u (Some c) g).
Proof.
  intros Hwf Hu Hp Hc a b c'. rewrite adj_paint, !color_of_paint by done.
  intros Hab. repeat case_decide; subst.
  - by destruct (wf_adj_irrefl g Hwf u).
  - intros [= <-] Hb. apply Hc, elem_of_neighbor_colors_of. eauto.
  - intros Ha [= <-]. apply Hc, elem_of_neighbor_colors_of.
    exists a. split; [by apply wf_adj_sym|done].
  - by apply Hp.
Qed.

Lemma proper_no_conflict g : wf g → proper g → conflict_count g = 0.
Proof.
  intros Hwf Hp. unfold conflict_count, len.
  destruct (filter (conflict_edge g) (edges g)) as [|[u v] l] eqn:E; [done|].
  assert (Hin : (u, v) ∈ filter (conflict_edge g) (edges g)).
  { rewrite E. apply list_elem_of_here. }
  apply list_elem_of_filter in Hin as [(c & Hu & Hv) He]. simpl in *.
  by destruct (Hp u v c (wf_edges_adj g Hwf u v He) Hu).
Qed.

Lemma no_conflict_edges g :
  conflict_count g = 0 →
  ∀ u v c, (u, v) ∈ edges g → color_of g u = Some c → color_of g v ≠ Some c.
Proof.
  unfold conflict_count, len. intros H0 u v c Huv Hu Hv.
  assert (Hin : (u, v) ∈ filter (conflict_edge g) (edges g)).
  { apply list_elem_of_filter. split; [|done]. by exists c. }
  destruct (filter (conflict_edge g) (edges g)); [|done].
  by apply elem_of_nil in Hin.
Qed.

(** ** count_conflicts and _compute_stats *)

Lemma conflict_loop_run g (l : list (Z * Z)) (acc : Z) :
  (∀ e, e ∈ l → has_node g e.1 ∧ has_node g e.2) →
  for_fold l acc (λ conflicts e,
    nu <- node_at e.1 ;;
    match color nu with
    | None => ret conflicts
    | Some cu =>
        nv <- node_at e.2 ;;
        match color nv with
        | None => ret conflicts
        | Some cv =>
            if bool_decide (cu = cv) then ret (conflicts + 1) else ret conflicts
        end
    end) g
  = Return (acc + len (filter (conflict_edge g) l)) g.
Proof.
  revert acc. induction l as [|[u v] l IH]; intros acc Hl; simpl.
  - unfold ret, len. simpl. f_equal. lia.
  - destruct (Hl (u, v)) as [Hu Hv]; [apply list_elem_of_here|]. simpl in *.
    apply lookup_node_is_Some in Hu as [nu Hnu].
    apply lookup_node_is_Some in Hv as [nv Hnv].
    assert (IH' := λ acc, IH acc
      (λ e He, Hl e (list_elem_of_further _ _ _ He))).
    assert (Hcu : color_of g u = color nu) by (unfold color_of; by rewrite Hnu).
    assert (Hcv : color_of g v = color nv) by (unfold color_of; by rewrite Hnv).
    unfold bind at 1. unfold bind at 1. rewrite (node_at_Some _ _ _ Hnu).
    rewrite filter_cons.
    destruct (color nu) as [cu|] eqn:Ecu; unfold ret at 1.
    + unfold bind at 1. rewrite (node_at_Some _ _ _ Hnv).
      destruct (color nv) as [cv|] eqn:Ecv; unfold ret at 1.
      * case_bool_decide as Hc; unfold ret at 1; rewrite IH'.
        -- subst cv. rewrite decide_True by (by exists cu).
           unfold len. simpl. f_equal. lia.
        -- rewrite decide_False; [done|].
           intros (c & Hc1 & Hc2). simpl in *. congruence.
      * rewrite IH'. rewrite decide_False; [done|].
        intros (c & _ & Hc2). simpl in *. congruence.
    + rewrite IH'. rewrite decide_False; [done|].
      intros (c & Hc1 & _). simpl in *. congruence.
Qed.

Lemma count_conflicts_run g :
  wf g → count_conflicts g = Return (conflict_count g) g.
Proof.
  intros Hwf. unfold count_conflicts, bind at 1, get.
  rewrite conflict_loop_run; [done|].
  intros [u v] He. simpl. apply (wf_adj_nodes g Hwf). by apply wf_edges_adj.
Qed.

(** The dictionary built by [_compute_stats], as a function of the state. *)
Definition stats_of (algorithm : string) (elapsed_time : Q) (g : Graph) : Stats :=
  let num_nodes := len (nodes g) in
  mkStats algorithm (get_chromatic_number g) (conflict_count g)
    (py_round2 (binary64 (elapsed_time * 1000)))
    (py_round2 (if bool_decide (num_nodes > 0)
                then binary64
                       (binary64 (inject_Z (num_nodes - get_chromatic_number g)
                                  / inject_Z num_nodes)
                        * 100)
                else 0%Q))
    num_nodes (len (edges g)).

Lemma _compute_stats_run name elapsed g :
  wf g → _compute_stats name elapsed g = Return (stats_of name elapsed g) g.
Proof.
  intros Hwf. unfold _compute_stats, bind at 1, get.
  by rewrite (bind_Return _ _ _ _ _ (count_conflicts_run g Hwf)).
Qed.

(** ** Invariants of a colouring run *)

(** Every colour lies between 0 and the number of neighbours. *)
Definition bounded (g : Graph) : Prop :=
  ∀ k c, color_of g k = Some c → 0 ≤ c ≤ Z.of_nat (size (adj g k)).

Definition good (g : Graph) : Prop := wf g ∧ proper g ∧ bounded g.

(** The structure of [g'] is that of [g]: the algorithms only write colours,
    saturations and empty adjacency entries. *)
Definition same_graph (g g' : Graph) : Prop :=
  keys g' = keys g ∧ edges g' = edges g ∧ ∀ u, adj g' u = adj g u.

Lemma same_graph_refl g : same_graph g g.
Proof. done. Qed.

Lemma same_graph_trans g1 g2 g3 :
  same_graph g1 g2 → same_graph g2 g3 → same_graph g1 g3.
Proof.
  intros (Hk & He & Ha) (Hk' & He' & Ha').
  split_and!; [congruence|congruence|].
  intros u. by rewrite Ha', Ha.
Qed.

Lemma same_graph_touch g u : same_graph g (touch u g).
Proof. split_and!; [apply keys_touch|apply edges_touch|intros; apply adj_touch]. Qed.

Lemma same_graph_paint g k c : same_graph g (paint k c g).
Proof. split_and!; [apply keys_paint|done|done]. Qed.

Lemma same_graph_saturate g k s : same_graph g (saturate k s g).
Proof. split_and!; [apply keys_saturate|done|done]. Qed.

Lemma same_graph_reset g : same_graph g (set_nodes (reset_nodes (nodes g)) g).
Proof. split_and!; [apply reset_nodes_keys|done|done]. Qed.

Lemma same_graph_has_node g g' k : same_graph g g' → has_node g' k ↔ has_node g k.
Proof. intros (Hk & _). unfold has_node. by rewrite Hk. Qed.

Lemma size_list_to_set_le (l : list Z) :
  (size (list_to_set l : gset Z) ≤ length l)%nat.
Proof.
  induction l as [|x l IH].
  - by rewrite list_to_set_nil, size_empty.
  - rewrite list_to_set_cons. cbn [length].
    destruct (decide (x ∈ (list_to_set l : gset Z))) as [Hx|Hx].
    + replace ({[x]} ∪ list_to_set l) with (list_to_set l : gset Z)
        by set_solver. lia.
    + rewrite size_union by set_solver. rewrite size_singleton. lia.
Qed.

Lemma length_omap_le {A B} (f : A → option B) (l : list A) :
  (length (omap f l) ≤ length l)%nat.
Proof.
  induction l as [|x l IH]; csimpl; [done|]. destruct (f x); simpl; lia.
Qed.

Lemma neighbor_colors_of_size g u :
  (size (neighbor_colors_of g u) ≤ size (adj g u))%nat.
Proof.
  unfold neighbor_colors_of.
  etrans; [apply size_list_to_set_le|].
  etrans; [apply length_omap_le|]. done.
Qed.

Lemma bounded_touch g u : bounded g → bounded (touch u g).
Proof. intros Hb k c. rewrite color_of_touch, adj_touch. apply Hb. Qed.

Lemma bounded_saturate g u s : bounded g → bounded (saturate u s g).
Proof. intros Hb k c. rewrite color_of_saturate. apply Hb. Qed.

Lemma bounded_reset g : bounded (set_nodes (reset_nodes (nodes g)) g).
Proof. intros k c. by rewrite color_of_reset. Qed.

Lemma bounded_paint g u c :
  has_node g u → bounded g →
  (∀ x, c = Some x → 0 ≤ x ≤ Z.of_nat (size (adj g u))) →
  bounded (paint u c g).
Proof.
  intros Hu Hb Hc k x. rewrite color_of_paint by done.
  case_decide; subst; [by apply Hc | by apply Hb].
Qed.

Lemma good_touch g u : good g → good (touch u g).
Proof.
  intros (? & ? & ?).
  split_and!; [by apply wf_touch|by apply proper_touch|by apply bounded_touch].
Qed.

Lemma good_saturate g u s : good g → good (saturate u s g).
Proof.
  intros (? & ? & ?). split_and!;
    [by apply wf_saturate|by apply proper_saturate|by apply bounded_saturate].
Qed.

Lemma good_reset g : wf g → good (set_nodes (reset_nodes (nodes g)) g).
Proof.
  intros. split_and!; [by apply wf_reset|apply proper_reset|apply bounded_reset].
Qed.

(** The state after [assign_first_fit u]. *)
Definition first_fit_state (u : Z) (g : Graph) : Graph :=
  paint u (Some (get_smallest_available_color (neighbor_colors_of g u)))
    (touch u g).

Lemma assign_first_fit_run g u :
  wf g → has_node g u →
  assign_first_fit u g = Return tt (first_fit_state u g).
Proof.
  intros Hwf Hu. unfold assign_first_fit.
  rewrite (bind_Return _ _ _ _ _ (get_neighbor_colors_wf g u Hwf)).
  apply mutate_node_Some. by rewrite keys_touch.
Qed.

Lemma good_first_fit g u : good g → has_node g u → good (first_fit_state u g).
Proof.
  intros (Hwf & Hp & Hb) Hu. unfold first_fit_state.
  assert (Hu' : has_node (touch u g) u) by (unfold has_node; by rewrite keys_touch).
  split_and!.
  - by apply wf_paint, wf_touch.
  - apply proper_paint; [by apply wf_touch|done|by apply proper_touch|].
    rewrite neighbor_colors_of_touch. apply smallest_available_fresh.
  - apply bounded_paint; [done|by apply bounded_touch|].
    intros x [= <-]. rewrite adj_touch.
    pose proof (smallest_available_bounds (neighbor_colors_of g u)).
    pose proof (neighbor_colors_of_size g u). lia.
Qed.

Lemma same_graph_first_fit g u : same_graph g (first_fit_state u g).
Proof.
  eapply same_graph_trans; [apply same_graph_touch|apply same_graph_paint].
Qed.

Lemma color_of_first_fit g u k :
  has_node g u →
  color_of (first_fit_state u g) k
  = if decide (k = u)
    then Some (get_smallest_available_color (neighbor_colors_of g u))
    else color_of g k.
Proof.
  intros Hu. unfold first_fit_state.
  rewrite color_of_paint by (unfold has_node; by rewrite keys_touch).
  by rewrite color_of_touch.
Qed.

(** ** sorted *)

Lemma insert_sorted_perm {A} (before : A → A → bool) x l :
  insert_sorted before x l ≡ₚ x :: l.
Proof.
  induction l as [|y l IH]; simpl; [done|].
  destruct (before y x); [|done]. rewrite IH. apply perm_swap.
Qed.

Lemma sorted_by_perm {A} (before : A → A → bool) l : sorted_by before l ≡ₚ l.
Proof.
  induction l as [|x l IH]; simpl; [done|].
  by rewrite insert_sorted_perm, IH.
Qed.

(** ** Colouring every node of a list by first fit *)

(** The invariant of the loops of [greedy_coloring] and [welsh_powell]:
    relative to the graph [g0] they started from, after the nodes [done]. *)
Definition colouring (g0 : Graph) (done : list Z) (g : Graph) : Prop :=
  good g ∧ same_graph g0 g ∧ ∀ k, k ∈ done → is_Some (color_of g k).

Lemma colouring_first_fit g0 done u g :
  has_node g0 u → colouring g0 done g →
  colouring g0 (done ++ [u]) (first_fit_state u g).
Proof.
  intros Hu (Hgood & Hsame & Hcol).
  assert (Hu' : has_node g u) by by apply (same_graph_has_node g0 g).
  split_and!.
  - by apply good_first_fit.
  - eapply same_graph_trans; [done|apply same_graph_first_fit].
  - intros k Hk. rewrite color_of_first_fit by done.
    case_decide; [done|]. apply Hcol.
    apply elem_of_app in Hk as [?|?%list_elem_of_singleton]; done.
Qed.

Lemma first_fit_loop g0 (l : list Z) :
  (∀ k, k ∈ l → has_node g0 k) →
  hoare (colouring g0 []) (for_each l assign_first_fit) (λ _, colouring g0 l).
Proof.
  intros Hl. apply hoare_for_each. intros done x rest -> g Hg.
  assert (Hx : has_node g0 x) by (apply Hl; set_solver).
  exists tt, (first_fit_state x g). split.
  - destruct Hg as ((? & _) & Hsame & _).
    apply assign_first_fit_run; [done|by apply (same_graph_has_node g0 g)].
  - by apply colouring_first_fit.
Qed.

(** The outcome the four algorithms share: a complete proper colouring of the
    same graph, with colours bounded by the degree where [bounded] is set. *)
Definition complete_colouring (g0 g : Graph) : Prop :=
  wf g ∧ proper g ∧ same_graph g0 g ∧ ∀ k, has_node g0 k → is_Some (color_of g k).

Lemma greedy_coloring_spec elapsed g0 :
  wf g0 →
  ∃ g, greedy_coloring elapsed g0 = Return (stats_of "Greedy" elapsed g) g
       ∧ complete_colouring g0 g ∧ bounded g.
Proof.
  intros Hwf. unfold greedy_coloring.
  rewrite (bind_Return _ _ _ _ _ (reset_colors_run g0)).
  set (g1 := set_nodes (reset_nodes (nodes g0)) g0).
  unfold bind at 1, get.
  assert (Hperm : ∀ k, k ∈ sorted_by Z.ltb (keys g1) ↔ has_node g0 k).
  { intros k. rewrite sorted_by_perm. unfold g1, has_node.
    by rewrite keys_set_nodes, reset_nodes_keys. }
  destruct (first_fit_loop g0 (sorted_by Z.ltb (keys g1))
              (λ k Hk, proj1 (Hperm k) Hk) g1)
    as ([] & g & Hrun & (Hwf' & Hp & Hb) & Hsame & Hcol).
  { split_and!; [by apply good_reset|apply same_graph_reset|].
    intros k []%elem_of_nil. }
  rewrite (bind_Return _ _ _ _ _ Hrun).
  exists g. split; [by apply _compute_stats_run|].
  split; [|done]. split_and!; try done.
  intros k Hk. by apply Hcol, Hperm.
Qed.

Lemma welsh_powell_body_run g ref :
  wf g → has_node g ref →
  (node <- node_at ref ;;
   neighbor_colors <- get_neighbor_colors (id node) ;;
   mutate_node ref
     (with_color (Some (get_smallest_available_color neighbor_colors)))) g
  = Return tt (first_fit_state ref g).
Proof.
  intros Hwf Href. pose proof Href as [n Hn]%lookup_node_is_Some.
  rewrite (bind_Return _ _ _ _ _ (node_at_Some _ _ _ Hn)).
  destruct (wf_node g Hwf ref n Hn) as (-> & _).
  by apply assign_first_fit_run.
Qed.

Lemma welsh_powell_spec elapsed g0 :
  wf g0 →
  ∃ g, welsh_powell elapsed g0 = Return (stats_of "Welsh-Powell" elapsed g) g
       ∧ complete_colouring g0 g ∧ bounded g.
Proof.
  intros Hwf. unfold welsh_powell.
  rewrite (bind_Return _ _ _ _ _ (reset_colors_run g0)).
  set (g1 := set_nodes (reset_nodes (nodes g0)) g0).
  unfold bind at 1, get.
  set (refs := (sorted_by _ (nodes g1)).*1).
  assert (Hperm : ∀ k, k ∈ refs ↔ has_node g0 k).
  { intros k. unfold refs. rewrite sorted_by_perm. unfold g1, has_node.
    by rewrite nodes_set_nodes, reset_nodes_keys. }
  assert (Hloop : hoare (colouring g0 [])
            (for_each refs (λ ref,
               node <- node_at ref ;;
               neighbor_colors <- get_neighbor_colors (id node) ;;
               mutate_node ref
                 (with_color
                    (Some (get_smallest_available_color neighbor_colors)))))
            (λ _, colouring g0 refs)).
  { apply hoare_for_each. intros done x rest Hrefs g Hg.
    assert (Hx : has_node g0 x) by (apply Hperm; rewrite Hrefs; set_solver).
    exists tt, (first_fit_state x g). split.
    - destruct Hg as ((? & _) & Hsame & _).
      apply welsh_powell_body_run;
        [done|by apply (same_graph_has_node g0 g)].
    - by apply colouring_first_fit. }
  destruct (Hloop g1) as ([] & g & Hrun & (Hwf' & Hp & Hb) & Hsame & Hcol).
  { split_and!; [by apply good_reset|apply same_graph_reset|].
    intros k []%elem_of_nil. }
  rewrite (bind_Return _ _ _ _ _ Hrun).
  exists g. split; [by apply _compute_stats_run|].
  split; [|done]. split_and!; try done.
  intros k Hk. by apply Hcol, Hperm.
Qed.

(** ** Backtracking *)

Section backtracking.
Variable max_colors : Z.

(** What [backtrack] needs of the state: the nodes still to be coloured
    exist and carry no colour. *)
Definition bt_pre (ids : list Z) (g : Graph) : Prop :=
  wf g ∧ proper g ∧ NoDup ids
  ∧ ∀ x, x ∈ ids → has_node g x ∧ color_of g x = None.

(** The colours of the state, with the nodes [ids] coloured by [f]. *)
Definition merged (g : Graph) (ids : list Z) (f : Z → Z) (x : Z) : option Z :=
  if decide (x ∈ ids) then Some (f x) else color_of g x.

(** [f] completes the colouring of the state on [ids], properly and within
    the budget. *)
Definition extends (g : Graph) (ids : list Z) (f : Z → Z) : Prop :=
  (∀ x, x ∈ ids → 0 ≤ f x < max_colors)
  ∧ ∀ u v c, v ∈ adj g u → merged g ids f u = Some c →
             merged g ids f v ≠ Some c.

Lemma extends_ext g g' ids f :
  (∀ u, adj g' u = adj g u) → (∀ x, color_of g' x = color_of g x) →
  extends g ids f → extends g' ids f.
Proof.
  intros Ha Hc [Hr Hp]. split; [done|]. intros u v c. unfold merged.
  rewrite Ha, !Hc. apply Hp.
Qed.

(** What it returns: on success the nodes of [ids] are coloured within the
    budget and the colouring is proper; on failure every colour is as it
    was, and no colouring of [ids] completes the state.  A budget above
    every degree guarantees success. *)
Definition bt_post (ids : list Z) (g : Graph) (ok : bool) (g' : Graph)
  : Prop :=
  wf g' ∧ proper g' ∧ same_graph g g'
  ∧ (∀ x, x ∉ ids → color_of g' x = color_of g x)
  ∧ (if ok
     then ∀ x, x ∈ ids → ∃ c, color_of g' x = Some c ∧ 0 ≤ c < max_colors
     else ∀ x, color_of g' x = color_of g x)
  ∧ ((∀ u, u ∈ ids → Z.of_nat (size (adj g u)) < max_colors) → ok = true)
  ∧ (ok = false → ∀ f, ¬ extends g ids f).

Lemma bt_post_colors_eq ids g1 g2 ok g' :
  same_graph g1 g2 → (∀ x, color_of g2 x = color_of g1 x) →
  bt_post ids g2 ok g' → bt_post ids g1 ok g'.
Proof.
  intros Hsame Hcol (Hwf & Hp & Hs & Hout & Hin & Hok & Hex).
  split_and!; try done.
  - by eapply same_graph_trans.
  - intros x Hx. by rewrite Hout, Hcol.
  - destruct ok; [done|]. intros x. by rewrite Hin, Hcol.
  - intros Hdeg. apply Hok. intros u Hu. destruct Hsame as (_ & _ & ->).
    by apply Hdeg.
  - intros Hfalse f Hext. apply (Hex Hfalse f).
    apply (extends_ext g1); [apply Hsame|done|done].
Qed.

Lemma try_colors_spec (next : M bool) (u : Z) (rest : list Z) :
  (∀ g, bt_pre rest g → ∃ ok g', next g = Return ok g' ∧ bt_post rest g ok g') →
  ∀ (colors : list Z) (g : Graph),
    bt_pre (u :: rest) g →
    (∀ c, c ∈ colors → 0 ≤ c < max_colors) →
    ∃ ok g',
      try_colors next u (neighbor_colors_of g u) colors g = Return ok g'
      ∧ wf g' ∧ proper g' ∧ same_graph g g'
      ∧ (∀ x, x ∉ u :: rest → color_of g' x = color_of g x)
      ∧ (if ok
         then ∀ x, x ∈ u :: rest →
                   ∃ c, color_of g' x = Some c ∧ 0 ≤ c < max_colors
         else ∀ x, color_of g' x = color_of g x)
      ∧ ((∀ v, v ∈ rest → Z.of_nat (size (adj g v)) < max_colors) →
         (∃ c, c ∈ colors ∧ c ∉ neighbor_colors_of g u) → ok = true)
      ∧ (ok = false → ∀ f, extends g (u :: rest) f → f u ∉ colors).
Proof.
  intros Hnext. induction colors as [|c colors IH]; intros g Hpre Hrange.
  { exists false, g. destruct Hpre as (Hwf & Hp & _).
    split_and!; try done.
    - intros _ (c & []%elem_of_nil & _).
    - intros _ f _. apply not_elem_of_nil. }
  assert (Hrange' : ∀ c', c' ∈ colors → 0 ≤ c' < max_colors).
  { intros c' Hc'. apply Hrange. by apply list_elem_of_further. }
  simpl. case_bool_decide as Hc.
  { destruct (IH g Hpre Hrange')
      as (ok & g' & Hrun & H1 & H2 & H3 & H4 & H5 & H6 & H7).
    exists ok, g'. split_and!; try done.
    - intros Hdeg (c' & [->|Hc']%elem_of_cons & Hfree); [done|].
      apply H6; eauto.
    - intros Hfalse f Hext [Hfu|Hin]%elem_of_cons; [|by eapply H7].
      apply elem_of_neighbor_colors_of in Hc as (v & Hv & Hvc).
      destruct Hpre as (_ & _ & _ & Hids). destruct Hext as [_ Hprop].
      apply (Hprop u v c Hv); unfold merged.
      + rewrite decide_True by apply list_elem_of_here. by rewrite Hfu.
      + rewrite decide_False; [done|]. intros Hvin.
        destruct (Hids v Hvin) as [_ Hvnone]. congruence. }
  destruct Hpre as (Hwf & Hp & Hnd & Hids).
  apply NoDup_cons in Hnd as [Hu_rest Hnd].
  destruct (Hids u) as [Hu Hu_none]; [apply list_elem_of_here|].
  rewrite (bind_Return _ _ _ _ _ (mutate_node_Some g u _ Hu)).
  fold (paint u (Some c) g). set (g1 := paint u (Some c) g).
  assert (Hpre1 : bt_pre rest g1).
  { split_and!; [by apply wf_paint|by apply proper_paint|done|].
    intros x Hx. destruct (Hids x) as [Hx1 Hx2]; [by apply list_elem_of_further|].
    split; [unfold has_node, g1; by rewrite keys_paint|].
    unfold g1. rewrite color_of_paint by done.
    rewrite decide_False; [done|]. by intros ->. }
  destruct (Hnext g1 Hpre1)
    as (ok & g2 & Hrun & Hwf2 & Hp2 & Hs2 & Hout2 & Hin2 & Hok2 & Hex2).
  rewrite (bind_Return _ _ _ _ _ Hrun).
  assert (Hs12 : same_graph g g2).
  { eapply same_graph_trans; [apply same_graph_paint|done]. }
  destruct ok.
  { exists true, g2. split_and!; try done.
    - intros x [Hxu Hx]%not_elem_of_cons. rewrite Hout2 by done.
      unfold g1. by rewrite color_of_paint, decide_False.
    - intros x [->|Hx]%elem_of_cons; [|by apply Hin2].
      exists c. rewrite Hout2 by done. unfold g1.
      rewrite color_of_paint, decide_True by done.
      split; [done|]. apply Hrange, list_elem_of_here. }
  assert (Hu2 : has_node g2 u) by by apply (same_graph_has_node g g2).
  rewrite (bind_Return _ _ _ _ _ (mutate_node_Some g2 u _ Hu2)).
  fold (paint u None g2). set (g3 := paint u None g2).
  assert (Hcol3 : ∀ x, color_of g3 x = color_of g x).
  { intros x. unfold g3. rewrite color_of_paint by done. case_decide.
    - by subst.
    - rewrite Hin2. unfold g1. by rewrite color_of_paint, decide_False. }
  assert (Hs3 : same_graph g g3).
  { eapply same_graph_trans; [done|apply same_graph_paint]. }
  assert (Hnc : neighbor_colors_of g u = neighbor_colors_of g3 u).
  { apply neighbor_colors_of_ext; [|done]. by destruct Hs3 as (_ & _ & ->). }
  rewrite Hnc.
  destruct (IH g3) as (ok & g' & Hrun' & H1 & H2 & H3 & H4 & H5 & H6 & H7);
    [|done|].
  { split_and!; [by apply wf_paint|by apply proper_paint_None| |].
    - by apply NoDup_cons.
    - intros x Hx. destruct (Hids x Hx) as [Hx1 Hx2]. rewrite Hcol3.
      split; [|done]. by apply (same_graph_has_node g g3). }
  exists ok, g'. split_and!; try done.
  - by eapply same_graph_trans.
  - intros x Hx. by rewrite H4, Hcol3.
  - destruct ok; [done|]. intros x. by rewrite H5, Hcol3.
  - intros Hdeg _. exfalso. enough (false = true) by done. apply Hok2.
    intros v Hv. unfold g1. rewrite adj_paint. by apply Hdeg.
  - intros Hfalse f Hext [Hfu|Hin]%elem_of_cons.
    + apply (Hex2 eq_refl f). destruct Hext as [Hr Hprop]. split.
      { intros x Hx. apply Hr. by apply list_elem_of_further. }
      assert (Hm : ∀ x, merged g1 rest f x = merged g (u :: rest) f x).
      { intros x. unfold merged, g1. rewrite color_of_paint by done.
        destruct (decide (x = u)) as [->|Hxu].
        - rewrite decide_False by done.
          rewrite decide_True by apply list_elem_of_here. by rewrite Hfu.
        - destruct (decide (x ∈ rest)) as [Hx|Hx].
          + by rewrite decide_True by by apply list_elem_of_further.
          + rewrite decide_False; [done|].
            by intros [?|?]%elem_of_cons. }
      intros a b c'. rewrite !Hm. unfold g1. rewrite adj_paint. apply Hprop.
    + apply (H7 Hfalse f); [|done].
      apply (extends_ext g); [apply Hs3|done|done].
Qed.

Lemma free_color_exists (s : gset Z) :
  Z.of_nat (size s) < max_colors →
  ∃ c, c ∈ range max_colors ∧ c ∉ s.
Proof.
  intros Hlt. exists (get_smallest_available_color s).
  split; [|apply smallest_available_fresh].
  apply range_elem. pose proof (smallest_available_bounds s). lia.
Qed.

Lemma backtrack_spec (ids : list Z) (g : Graph) :
  bt_pre ids g →
  ∃ ok g', backtrack max_colors ids g = Return ok g' ∧ bt_post ids g ok g'.
Proof.
  revert g. induction ids as [|u rest IH]; intros g Hpre.
  { exists true, g. destruct Hpre as (Hwf & Hp & _). split; [done|].
    split_and!; try done. intros x []%elem_of_nil. }
  simpl. pose proof Hpre as (Hwf & Hp & Hnd & Hids).
  rewrite (bind_Return _ _ _ _ _ (get_neighbor_colors_wf g u Hwf)).
  rewrite <- (neighbor_colors_of_touch u g u).
  destruct (try_colors_spec (backtrack max_colors rest) u rest IH
              (range max_colors) (touch u g))
    as (ok & g' & Hrun & H1 & H2 & H3 & H4 & H5 & H6 & H7).
  { split_and!; [by apply wf_touch|by apply proper_touch|done|].
    intros x Hx. destruct (Hids x Hx). rewrite color_of_touch.
    split; [|done]. unfold has_node. by rewrite keys_touch. }
  { intros c. apply range_elem. }
  exists ok, g'. split; [done|].
  apply (bt_post_colors_eq _ g (touch u g));
    [apply same_graph_touch|intros; apply color_of_touch|].
  split_and!; try done.
  - intros Hdeg. apply H6.
    + intros v Hv. apply Hdeg. by apply list_elem_of_further.
    + apply free_color_exists.
      pose proof (neighbor_colors_of_size (touch u g) u).
      specialize (Hdeg u (list_elem_of_here _ _)). lia.
  - intros Hfalse f Hext. apply (H7 Hfalse f Hext).
    apply range_elem, Hext, list_elem_of_here.
Qed.
End backtracking.

Lemma degree_lt_nodes g u :
  wf g → has_node g u → Z.of_nat (size (adj g u)) < len (nodes g).
Proof.
  intros Hwf Hu.
  assert (Hsub : adj g u ⊆ list_to_set (keys g) ∖ {[u]}).
  { intros v Hv. apply elem_of_difference. split.
    - apply elem_of_list_to_set. by apply (wf_adj_nodes g Hwf u v).
    - intros Heq%elem_of_singleton. subst v.
      by apply (wf_adj_irrefl g Hwf u). }
  apply subseteq_size in Hsub.
  rewrite size_difference in Hsub
    by (apply singleton_subseteq_l, elem_of_list_to_set, Hu).
  rewrite size_singleton, size_list_to_set in Hsub by apply Hwf.
  assert (length (keys g) = length (nodes g)) by apply length_fmap.
  assert (0 < length (keys g))%nat.
  { unfold has_node in Hu.
    destruct (keys g); [by apply elem_of_nil in Hu|simpl; lia]. }
  unfold len. lia.
Qed.

(** The colour budget of a run of [backtracking_exact]. *)
Definition budget (max_colors : option Z) (g : Graph) : Z :=
  default (len (nodes g)) max_colors.

Definition no_solution : Result :=
  ErrorRecord "No solution found with given color limit".

(** The graph can be coloured with the colours [0 .. k-1] so that no edge
    joins two nodes of one colour. *)
Definition colourable (g : Graph) (k : Z) : Prop :=
  ∃ f : Z → Z,
    (∀ u, has_node g u → 0 ≤ f u < k)
    ∧ ∀ u v, (u, v) ∈ edges g → f u ≠ f v.

Lemma complete_colouring_colourable g0 g k :
  wf g0 → complete_colouring g0 g →
  (∀ u, has_node g0 u → ∃ c, color_of g u = Some c ∧ 0 ≤ c < k) →
  colourable g0 k.
Proof.
  intros Hwf0 (Hwf & Hp & (_ & _ & Ha) & _) Hcol.
  exists (λ u, default 0 (color_of g u)). split.
  - intros u Hu. by destruct (Hcol u Hu) as (c & -> & ?).
  - intros u v Huv. pose proof (wf_edges_adj g0 Hwf0 u v Huv) as Hadj.
    destruct (wf_adj_nodes g0 Hwf0 u v Hadj) as [Hu Hv].
    destruct (Hcol u Hu) as (cu & Hcu & _).
    destruct (Hcol v Hv) as (cv & Hcv & _).
    rewrite Hcu, Hcv. simpl. intros ->.
    apply (Hp u v cv); [by rewrite Ha|done|done].
Qed.

Lemma colourable_extends g0 g1 k :
  wf g0 → keys g1 = keys g0 → (∀ u, adj g1 u = adj g0 u) →
  colourable g0 k → ∃ f, extends k g1 (keys g0) f.
Proof.
  intros Hwf Hk Ha (f & Hr & He). exists f. split; [done|].
  intros u v c. rewrite Ha. intros Hadj.
  destruct (wf_adj_nodes g0 Hwf u v Hadj) as [Hu Hv].
  unfold merged. rewrite !decide_True by done. intros [= <-] [= Heq].
  destruct (wf_adj_edges g0 Hwf u v Hadj) as [Huv|Hvu].
  - by apply (He u v).
  - by apply (He v u).
Qed.

Lemma backtracking_exact_spec max_colors elapsed g0 :
  wf g0 →
  ∃ r g,
    backtracking_exact max_colors elapsed g0 = Return r g
    ∧ wf g ∧ same_graph g0 g
    ∧ ((r = StatsRecord (stats_of "Backtracking-Exact" elapsed g)
        ∧ complete_colouring g0 g
        ∧ ∀ k, has_node g0 k →
               ∃ c, color_of g k = Some c ∧ 0 ≤ c < budget max_colors g0)
       ∨ (r = no_solution ∧ (∀ k, color_of g k = None)
          ∧ ¬ colourable g0 (budget max_colors g0)))
    ∧ ((∀ u, has_node g0 u →
             Z.of_nat (size (adj g0 u)) < budget max_colors g0) →
       r ≠ no_solution).
Proof.
  intros Hwf. unfold backtracking_exact.
  rewrite (bind_Return _ _ _ _ _ (reset_colors_run g0)).
  set (g1 := set_nodes (reset_nodes (nodes g0)) g0).
  unfold bind at 1, get.
  assert (Hlen : len (nodes g1) = len (nodes g0)).
  { unfold g1, len, reset_nodes. by rewrite nodes_set_nodes, length_fmap. }
  assert (Hkeys : keys g1 = keys g0) by apply reset_nodes_keys.
  rewrite Hlen, Hkeys. fold (budget max_colors g0).
  destruct (backtrack_spec (budget max_colors g0) (keys g0) g1)
    as (ok & g & Hrun & Hwf' & Hp & Hsame & Hout & Hin & Hok & Hex).
  { split_and!; [by apply wf_reset|apply proper_reset|apply Hwf|].
    intros x Hx. split; [unfold has_node; by rewrite Hkeys|].
    apply color_of_reset. }
  rewrite (bind_Return _ _ _ _ _ Hrun).
  assert (Hs : same_graph g0 g).
  { eapply same_graph_trans; [apply same_graph_reset|done]. }
  destruct ok.
  - rewrite (bind_Return _ _ _ _ _ (_compute_stats_run _ _ g Hwf')).
    eexists _, g. split; [done|]. split_and!; try done.
    left. split; [done|]. split; [|by apply Hin].
    split_and!; try done.
    intros k Hk. destruct (Hin k Hk) as (c & -> & _). done.
  - exists no_solution, g. split; [done|]. split_and!; try done.
    + right. split; [done|]. split.
      * intros k. rewrite Hin. apply color_of_reset.
      * intros Hcol.
        destruct (colourable_extends g0 g1 _ Hwf Hkeys (λ _, eq_refl) Hcol)
          as [f Hf].
        by apply (Hex eq_refl f).
    + intros Hdeg. enough (false = true) by done. apply Hok.
      intros u Hu. unfold g1. rewrite adj_set_nodes. by apply Hdeg.
Qed.

(** With the default budget the search cannot fail. *)
Lemma backtracking_exact_default elapsed g0 :
  wf g0 →
  ∃ g, backtracking_exact None elapsed g0
       = Return (StatsRecord (stats_of "Backtracking-Exact" elapsed g)) g
       ∧ complete_colouring g0 g.
Proof.
  intros Hwf.
  destruct (backtracking_exact_spec None elapsed g0 Hwf)
    as (r & g & Hrun & _ & _ & [(-> & Hc & _)|(-> & _)] & Hok).
  - by exists g.
  - destruct Hok; [|done]. intros u Hu. by apply degree_lt_nodes.
Qed.

(** ** max with a key *)

(** [r] is the first element of [l] whose key no other key exceeds: the keys
    before it are strictly smaller, the keys after it are not greater. *)
Definition is_first_max {K} (gt : K → K → bool) (kf : Z → K) (l : list Z)
    (r : Z) : Prop :=
  ∃ l1 l2, l = l1 ++ r :: l2
           ∧ (∀ y, y ∈ l1 → gt (kf r) (kf y) = true)
           ∧ (∀ y, y ∈ l2 → gt (kf y) (kf r) = false).

(** The comparisons used as [>] are strict weak orders. *)
Class StrictWeak {K} (gt : K → K → bool) : Prop := {
  gt_trans a b c : gt a b = true → gt b c = true → gt a c = true;
  gt_weak a b c : gt a b = true → gt c b = false → gt a c = true
}.

#[global] Instance Zgtb_strict_weak : StrictWeak Z.gtb.
Proof. split; intros a b c; lia. Qed.

#[global] Instance pair_gt_strict_weak : StrictWeak pair_gt.
Proof.
  split; intros [a1 a2] [b1 b2] [c1 c2]; unfold pair_gt; simpl; lia.
Qed.

Lemma is_first_max_elem {K} (gt : K → K → bool) kf l r :
  is_first_max gt kf l r → r ∈ l.
Proof. intros (l1 & l2 & -> & _). set_solver. Qed.

Lemma py_max_loop {K} (gt : K → K → bool) `{!StrictWeak gt}
    (key : Z → M K) (kf : Z → K) g :
  ∀ (rest done : list Z) (best : Z),
    (∀ x, x ∈ rest → key x g = Return (kf x) g) →
    is_first_max gt kf done best →
    ∃ r, for_fold rest (best, kf best) (λ best y,
           ky <- key y ;;
           if gt ky best.2 then ret (y, ky) else ret best) g
         = Return (r, kf r) g
         ∧ is_first_max gt kf (done ++ rest) r.
Proof.
  induction rest as [|y rest IH]; intros done best Hkey Hbest; simpl.
  { exists best. by rewrite app_nil_r. }
  unfold bind at 1.
  rewrite (bind_Return _ _ _ _ _ (Hkey y (list_elem_of_here _ _))).
  assert (Hkey' : ∀ x, x ∈ rest → key x g = Return (kf x) g).
  { intros x Hx. apply Hkey. by apply list_elem_of_further. }
  destruct Hbest as (l1 & l2 & -> & Hl1 & Hl2). simpl.
  destruct (gt (kf y) (kf best)) eqn:Egt; unfold ret at 1.
  - destruct (IH ((l1 ++ best :: l2) ++ [y]) y Hkey') as (r & Hrun & Hr).
    { exists (l1 ++ best :: l2), []. split_and!; [done| |intros ? []%elem_of_nil].
      intros z [Hz|[->|Hz]%elem_of_cons]%elem_of_app.
      + eapply gt_trans; [done|by apply Hl1].
      + done.
      + eapply gt_weak; [done|by apply Hl2]. }
    exists r. split; [done|]. by rewrite <- app_assoc in Hr.
  - destruct (IH ((l1 ++ best :: l2) ++ [y]) best Hkey') as (r & Hrun & Hr).
    { exists l1, (l2 ++ [y]). split_and!; [by rewrite <- app_assoc|done|].
      intros z [Hz|Hz%list_elem_of_singleton]%elem_of_app;
        [by apply Hl2|by subst]. }
    exists r. split; [done|]. by rewrite <- app_assoc in Hr.
Qed.

Lemma py_max_run {K} (gt : K → K → bool) `{!StrictWeak gt}
    (key : Z → M K) (kf : Z → K) (l : list Z) g :
  l ≠ [] → (∀ x, x ∈ l → key x g = Return (kf x) g) →
  ∃ r, py_max gt key l g = Return r g ∧ is_first_max gt kf l r.
Proof.
  intros Hne Hkey. destruct l as [|x l]; [done|]. unfold py_max.
  rewrite (bind_Return _ _ _ _ _ (Hkey x (list_elem_of_here _ _))).
  destruct (py_max_loop gt key kf g l [x] x) as (r & Hrun & Hr).
  - intros y Hy. apply Hkey. by apply list_elem_of_further.
  - exists [], []. split_and!; [done|intros ? []%elem_of_nil..].
  - exists r. by rewrite (bind_Return _ _ _ _ _ Hrun).
Qed.

(** ** The set of uncoloured nodes *)

Lemma elem_of_set_remove x y l : y ∈ set_remove x l ↔ y ∈ l ∧ y ≠ x.
Proof. unfold set_remove. rewrite list_elem_of_filter. tauto. Qed.

Lemma set_remove_NoDup x l : NoDup l → NoDup (set_remove x l).
Proof. apply NoDup_filter. Qed.

Lemma set_remove_length x l :
  x ∈ l → (length (set_remove x l) < length l)%nat.
Proof. intros Hx. eapply length_filter_lt; [done|]. by intros ?. Qed.

(** ** DSATUR *)

(** The saturation of a node: the number of distinct colours among its
    coloured neighbours. *)
Definition true_saturation (g : Graph) (k : Z) : Z :=
  Z.of_nat (size (neighbor_colors_of g k)).

Definition degree_count (g : Graph) (k : Z) : Z := Z.of_nat (size (adj g k)).

Lemma sat_of_touch u g k : sat_of (touch u g) k = sat_of g k.
Proof. unfold sat_of. by rewrite nodes_touch. Qed.

Lemma sat_of_paint u c g k : sat_of (paint u c g) k = sat_of g k.
Proof.
  unfold sat_of, paint. rewrite nodes_set_nodes, lookup_update_node.
  case_decide; [|done]. subst. by destruct (lookup_node u (nodes g)).
Qed.

Lemma sat_of_saturate u s g k :
  has_node g u →
  sat_of (saturate u s g) k = if decide (k = u) then Some s else sat_of g k.
Proof.
  intros [n Hn]%lookup_node_is_Some. unfold sat_of, saturate.
  rewrite nodes_set_nodes, lookup_update_node. case_decide; [|done].
  subst. by rewrite Hn.
Qed.

Lemma sat_of_first_fit u g k : sat_of (first_fit_state u g) k = sat_of g k.
Proof. unfold first_fit_state. by rewrite sat_of_paint, sat_of_touch. Qed.

Lemma neighbor_colors_of_ext_in g g' u :
  adj g u = adj g' u →
  (∀ v, v ∈ adj g u → color_of g v = color_of g' v) →
  neighbor_colors_of g u = neighbor_colors_of g' u.
Proof.
  intros Ha Hc. apply set_eq. intros c.
  rewrite !elem_of_neighbor_colors_of, <- Ha. split.
  - intros (v & Hv & Hcv). exists v. by rewrite <- Hc.
  - intros (v & Hv & Hcv). exists v. by rewrite Hc.
Qed.

Lemma update_node_ext k f f' l n :
  lookup_node k l = Some n → f n = f' n → update_node k f l = update_node k f' l.
Proof.
  induction l as [|[k' n'] l IH]; simpl; [done|].
  case_decide; [intros [= ->] ->; done|].
  intros ??. f_equal. auto.
Qed.

Lemma node_key_run {K} (F : Node → K) g n nd :
  lookup_node n (nodes g) = Some nd →
  (nd <- node_at n ;; ret (F nd)) g = Return (F nd) g.
Proof. intros Hn. by rewrite (bind_Return _ _ _ _ _ (node_at_Some _ _ _ Hn)). Qed.

Lemma saturation_update_run g nb :
  wf g → has_node g nb →
  (neighbor_colors <- get_neighbor_colors nb ;;
   mutate_node nb (with_saturation (Z.of_nat (size neighbor_colors)))) g
  = Return tt (saturate nb (true_saturation g nb) (touch nb g)).
Proof.
  intros Hwf Hnb.
  rewrite (bind_Return _ _ _ _ _ (get_neighbor_colors_wf g nb Hwf)).
  apply mutate_node_Some. by rewrite keys_touch.
Qed.

Section dsatur_proofs.
Variable g0 : Graph.

(** The invariant of [while uncolored:]: the list holds exactly the nodes
    without a colour, and their [saturation] field is their saturation. *)
Definition dsatur_inv (uncolored : list Z) (g : Graph) : Prop :=
  good g ∧ same_graph g0 g ∧ NoDup uncolored
  ∧ (∀ k, k ∈ uncolored →
          has_node g k ∧ color_of g k = None
          ∧ sat_of g k = Some (true_saturation g k))
  ∧ (∀ k, has_node g k → k ∉ uncolored → is_Some (color_of g k)).

Definition dsatur_key (g : Graph) (n : Z) : Z * Z :=
  (true_saturation g n, degree_count g n).

Lemma dsatur_select_run uncolored g :
  dsatur_inv uncolored g → uncolored ≠ [] →
  ∃ selected,
    dsatur_select uncolored g = Return selected g
    ∧ is_first_max pair_gt (dsatur_key g) uncolored selected.
Proof.
  intros ((Hwf & _) & _ & _ & Hunc & _) Hne.
  apply py_max_run; [apply _|done|].
  intros x Hx. destruct (Hunc x Hx) as (Hnode & _ & Hsat).
  apply lookup_node_is_Some in Hnode as [nd Hnd].
  rewrite (node_key_run (λ nd, (saturation nd, degree nd)) g x nd Hnd).
  unfold sat_of in Hsat. rewrite Hnd in Hsat. injection Hsat as ->.
  destruct (wf_node g Hwf x nd Hnd) as (_ & _ & ->). done.
Qed.

(** The saturation updates after [selected] was coloured, from state [gp]. *)
Definition refresh_inv (gp : Graph) (uncolored : list Z) (done : list Z)
    (g : Graph) : Prop :=
  good g ∧ same_graph gp g
  ∧ (∀ k, color_of g k = color_of gp k)
  ∧ (∀ k, sat_of g k = if decide (k ∈ done ∧ k ∈ uncolored)
                       then Some (true_saturation gp k) else sat_of gp k).

Lemma refresh_loop gp uncolored (l : list Z) :
  (∀ k, k ∈ uncolored → has_node gp k) →
  hoare (refresh_inv gp uncolored [])
    (for_each l (λ neighbor,
       if bool_decide (neighbor ∈ uncolored)
       then
         neighbor_colors <- get_neighbor_colors neighbor ;;
         mutate_node neighbor
           (with_saturation (Z.of_nat (size neighbor_colors)))
       else ret tt))
    (λ _, refresh_inv gp uncolored l).
Proof.
  intros Hunc. apply hoare_for_each.
  intros done x rest -> g (Hgood & Hsame & Hcol & Hsat).
  case_bool_decide as Hx.
  - assert (Hxg : has_node g x).
    { apply (same_graph_has_node gp g); auto. }
    exists tt, (saturate x (true_saturation g x) (touch x g)).
    split; [apply saturation_update_run; [apply Hgood|done]|].
    split_and!.
    + by apply good_saturate, good_touch.
    + eapply same_graph_trans; [done|].
      eapply same_graph_trans; [apply same_graph_touch|apply same_graph_saturate].
    + intros k. by rewrite color_of_saturate, color_of_touch.
    + intros k. rewrite sat_of_saturate
        by (unfold has_node; by rewrite keys_touch).
      rewrite sat_of_touch, Hsat.
      assert (Hts : true_saturation g x = true_saturation gp x).
      { unfold true_saturation. f_equal. f_equal.
        apply neighbor_colors_of_ext; [|done]. by destruct Hsame as (_ & _ & ->). }
      destruct (decide (k = x)) as [->|Hkx].
      * rewrite decide_True; [by rewrite Hts|]. split; [set_solver|done].
      * repeat case_decide; try done; exfalso; set_solver.
  - exists tt, g. split; [done|]. split_and!; try done.
    intros k. rewrite Hsat.
    repeat case_decide; try done; exfalso; set_solver.
Qed.
End dsatur_proofs.

Section dsatur_step_proofs.
Variable g0 : Graph.

Lemma dsatur_step_spec uncolored g :
  dsatur_inv g0 uncolored g → uncolored ≠ [] →
  ∃ selected g',
    dsatur_select uncolored g = Return selected g
    ∧ is_first_max pair_gt (dsatur_key g) uncolored selected
    ∧ dsatur_step uncolored g = Return (set_remove selected uncolored) g'
    ∧ dsatur_inv g0 (set_remove selected uncolored) g'.
Proof.
  intros Hinv Hne.
  destruct (dsatur_select_run g0 uncolored g Hinv Hne) as (sel & Hsel & Hmax).
  exists sel. pose proof (is_first_max_elem _ _ _ _ Hmax) as Hin.
  destruct Hinv as (Hgood & Hsame & Hnd & Hunc & Hcol).
  destruct (Hunc sel Hin) as (Hnode & Hnone & _).
  set (gp := first_fit_state sel g). set (gq := touch sel gp).
  set (unc' := set_remove sel uncolored).
  assert (Hgoodq : good gq) by by apply good_touch, good_first_fit.
  assert (Hsq : same_graph g gq).
  { eapply same_graph_trans; [apply same_graph_first_fit|apply same_graph_touch]. }
  assert (Hcolq : ∀ k, color_of gq k
            = if decide (k = sel)
              then Some (get_smallest_available_color (neighbor_colors_of g sel))
              else color_of g k).
  { intros k. unfold gq, gp. by rewrite color_of_touch, color_of_first_fit. }
  assert (Hsatq : ∀ k, sat_of gq k = sat_of g k).
  { intros k. unfold gq, gp. by rewrite sat_of_touch, sat_of_first_fit. }
  destruct (refresh_loop gq unc' (elements (adj gp sel))) with (g := gq)
    as ([] & g' & Hloop & Hgood' & Hsame' & Hcol' & Hsat').
  { intros k [Hk _]%elem_of_set_remove. apply (same_graph_has_node g gq); [done|].
    by apply Hunc. }
  { by split_and!. }
  exists g'. split_and!; try done.
  - unfold dsatur_step. rewrite (bind_Return _ _ _ _ _ Hsel).
    rewrite (bind_Return _ _ _ _ _
               (assign_first_fit_run g sel (proj1 Hgood) Hnode)).
    rewrite (bind_Return _ _ _ _ _ (adjacency_at_touch gp sel)).
    fold gq unc'. by rewrite (bind_Return _ _ _ _ _ Hloop).
  - assert (Hs' : same_graph g g') by by eapply same_graph_trans.
    split_and!; try done.
    + by eapply same_graph_trans.
    + by apply set_remove_NoDup.
    + intros k Hk. pose proof Hk as [Hk1 Hk2]%elem_of_set_remove.
      destruct (Hunc k Hk1) as (Hkn & Hkc & Hks).
      split_and!.
      * by apply (same_graph_has_node g g').
      * by rewrite Hcol', Hcolq, decide_False.
      * assert (Hts' : true_saturation g' k = true_saturation gq k).
        { unfold true_saturation. f_equal. f_equal.
          apply neighbor_colors_of_ext; [|done].
          by destruct Hsame' as (_ & _ & ->). }
        rewrite Hsat', Hts'. case_decide as Hd; [done|].
        rewrite Hsatq, Hks. f_equal.
        unfold true_saturation. f_equal. f_equal.
        apply neighbor_colors_of_ext_in.
        { by destruct Hsq as (_ & _ & ->). }
        intros v Hv. rewrite Hcolq. case_decide; [|done]. subst v.
        exfalso. apply Hd. split; [|done]. apply elem_of_elements.
        unfold gp. destruct (same_graph_first_fit g sel) as (_ & _ & ->).
        by apply (wf_adj_sym g (proj1 Hgood)).
    + intros k Hk Hnk. rewrite Hcol', Hcolq. case_decide; [done|].
      apply Hcol; [by apply (same_graph_has_node g g')|].
      intros Hk'. apply Hnk. by apply elem_of_set_remove.
Qed.

(** The loop runs until the set is empty: [length uncolored] iterations
    are enough. *)
Lemma dsatur_loop_spec (fuel : nat) :
  ∀ uncolored g,
    (length uncolored ≤ fuel)%nat → dsatur_inv g0 uncolored g →
    ∃ g', dsatur_loop fuel uncolored g = Return [] g' ∧ dsatur_inv g0 [] g'.
Proof.
  induction fuel as [|fuel IH]; intros uncolored g Hlen Hinv.
  - destruct uncolored; [|simpl in Hlen; lia]. by exists g.
  - destruct uncolored as [|x l] eqn:E; [by exists g|]. rewrite <- E in *.
    assert (Hne : uncolored ≠ []) by by rewrite E.
    destruct (dsatur_step_spec uncolored g Hinv Hne)
      as (sel & g1 & _ & Hmax & Hstep & Hinv1).
    assert (dsatur_loop (S fuel) uncolored
            = (uncolored' <- dsatur_step uncolored ;;
               dsatur_loop fuel uncolored')) as -> by by rewrite E.
    rewrite (bind_Return _ _ _ _ _ Hstep). apply IH; [|done].
    pose proof (set_remove_length sel uncolored
                  (is_first_max_elem _ _ _ _ Hmax)). lia.
Qed.
End dsatur_step_proofs.

Lemma saturation_bump_run g nb s :
  sat_of g nb = Some s →
  mutate_node nb (λ n, with_saturation (saturation n + 1) n) g
  = Return tt (saturate nb (s + 1) g).
Proof.
  unfold sat_of. destruct (lookup_node nb (nodes g)) as [n|] eqn:Hn; [|done].
  intros [= <-]. rewrite mutate_node_Some by (apply lookup_node_is_Some; eauto).
  unfold saturate. do 2 f_equal. by eapply update_node_ext.
Qed.

Lemma neighbor_colors_single g f c k :
  (∀ v, color_of g v = if decide (v = f) then Some c else None) →
  neighbor_colors_of g k = if decide (f ∈ adj g k) then {[c]} else ∅.
Proof.
  intros Hcol. apply set_eq. intros x. rewrite elem_of_neighbor_colors_of.
  setoid_rewrite Hcol. case_decide as Hf.
  - rewrite elem_of_singleton. split.
    + intros (v & _ & Hv). case_decide; congruence.
    + intros ->. exists f. by rewrite decide_True.
  - split; [|set_solver]. intros (v & Hv & Hc).
    case_decide; [by subst|done].
Qed.

Lemma good_uncolored g : wf g → (∀ k, color_of g k = None) → good g.
Proof.
  intros Hwf Hnone. split_and!; [done| |].
  - intros u v c _. by rewrite Hnone.
  - intros k c. by rewrite Hnone.
Qed.

Section dsatur_first_proofs.
Variable g0 : Graph.

(** The increments of [saturation] after the first node was coloured. *)
Definition bump_inv (gp : Graph) (uncolored : list Z) (done : list Z)
    (g : Graph) : Prop :=
  good g ∧ same_graph gp g
  ∧ (∀ k, color_of g k = color_of gp k)
  ∧ (∀ k, sat_of g k = if decide (k ∈ done ∧ k ∈ uncolored)
                       then (λ s, s + 1) <$> sat_of gp k else sat_of gp k).

Lemma bump_loop gp uncolored (l : list Z) :
  NoDup l → (∀ k, k ∈ uncolored → has_node gp k) →
  hoare (bump_inv gp uncolored [])
    (for_each l (λ neighbor,
       if bool_decide (neighbor ∈ uncolored)
       then mutate_node neighbor (λ n, with_saturation (saturation n + 1) n)
       else ret tt))
    (λ _, bump_inv gp uncolored l).
Proof.
  intros Hnd Hunc. apply hoare_for_each.
  intros done x rest -> g (Hgood & Hsame & Hcol & Hsat).
  assert (Hx_done : x ∉ done).
  { apply NoDup_app in Hnd as (_ & Hd & _). intros Hx.
    apply (Hd x Hx), list_elem_of_here. }
  case_bool_decide as Hx.
  - assert (Hxp : is_Some (sat_of gp x)).
    { unfold sat_of. apply fmap_is_Some, lookup_node_is_Some, Hunc, Hx. }
    destruct Hxp as [s Hs].
    assert (Hxg : sat_of g x = Some s).
    { rewrite Hsat, decide_False; [done|]. by intros [? _]. }
    exists tt, (saturate x (s + 1) g).
    split; [by apply saturation_bump_run|].
    assert (Hxn : has_node g x).
    { apply (same_graph_has_node gp g); auto. }
    split_and!.
    + by apply good_saturate.
    + eapply same_graph_trans; [done|apply same_graph_saturate].
    + intros k. by rewrite color_of_saturate.
    + intros k. rewrite sat_of_saturate by done. rewrite Hsat.
      destruct (decide (k = x)) as [->|Hkx].
      * rewrite decide_True by (split; [set_solver|done]).
        by rewrite Hs.
      * repeat case_decide; try done; exfalso; set_solver.
  - exists tt, g. split; [done|]. split_and!; try done.
    intros k. rewrite Hsat.
    repeat case_decide; try done; exfalso; set_solver.
Qed.

Lemma dsatur_first_spec uncolored g1 :
  wf g1 → same_graph g0 g1 →
  (∀ k, color_of g1 k = None) →
  (∀ k, has_node g1 k → sat_of g1 k = Some 0) →
  NoDup uncolored → (∀ k, k ∈ uncolored ↔ has_node g1 k) →
  ∃ uncolored' g',
    dsatur_first uncolored g1 = Return uncolored' g'
    ∧ dsatur_inv g0 uncolored' g'
    ∧ match uncolored with
      | [] => uncolored' = []
      | _ => ∃ first_node,
               is_first_max Z.gtb (degree_count g1) uncolored first_node
               ∧ uncolored' = set_remove first_node uncolored
               ∧ color_of g' first_node = Some 0
      end.
Proof.
  intros Hwf Hsame Hnone Hzero Hnd Hunc.
  destruct uncolored as [|x0 l0] eqn:E.
  { exists [], g1. split; [done|]. split; [|done].
    split_and!; try done.
    - by apply good_uncolored.
    - intros k []%elem_of_nil.
    - intros k Hk. by apply Hunc in Hk. }
  rewrite <- E in *. assert (Hne : uncolored ≠ []) by by rewrite E.
  destruct (py_max_run Z.gtb (λ n, nd <- node_at n ;; ret (degree nd))
              (degree_count g1) uncolored g1 Hne) as (f & Hmax & Hfirst).
  { intros x [nd Hn]%Hunc%lookup_node_is_Some.
    rewrite (node_key_run degree g1 x nd Hn).
    by destruct (wf_node g1 Hwf x nd Hn) as (_ & _ & ->). }
  pose proof (is_first_max_elem _ _ _ _ Hfirst) as Hin.
  assert (Hf : has_node g1 f) by by apply Hunc.
  set (gp := paint f (Some 0) g1). set (gq := touch f gp).
  set (unc' := set_remove f uncolored).
  assert (Hncol0 : ∀ k, neighbor_colors_of g1 k = ∅).
  { intros k. apply set_eq. intros c. rewrite elem_of_neighbor_colors_of.
    split; [|set_solver]. intros (v & _ & Hv). by rewrite Hnone in Hv. }
  assert (Hgoodq : good gq).
  { destruct (good_uncolored g1 Hwf Hnone) as (_ & Hp1 & Hb1).
    apply good_touch. split_and!.
    - by apply wf_paint.
    - apply proper_paint; [done|done|done|by rewrite Hncol0].
    - apply bounded_paint; [done|done|intros ? [= <-]; lia]. }
  assert (Hsq : same_graph g1 gq).
  { eapply same_graph_trans; [apply same_graph_paint|apply same_graph_touch]. }
  assert (Hcolq : ∀ k, color_of gq k = if decide (k = f) then Some 0 else None).
  { intros k. unfold gq, gp. rewrite color_of_touch, color_of_paint by done.
    case_decide; [done|apply Hnone]. }
  assert (Hsatq : ∀ k, sat_of gq k = sat_of g1 k).
  { intros k. unfold gq, gp. by rewrite sat_of_touch, sat_of_paint. }
  destruct (bump_loop gq unc' (elements (adj gp f))) with (g := gq)
    as ([] & g' & Hloop & Hgood' & Hsame' & Hcol' & Hsat').
  { apply NoDup_elements. }
  { intros k [Hk _]%elem_of_set_remove.
    apply (same_graph_has_node g1 gq); [done|]. by apply Hunc. }
  { by split_and!. }
  exists unc', g'. split_and!.
  - unfold dsatur_first. rewrite E. rewrite <- E.
    rewrite (bind_Return _ _ _ _ _ Hmax).
    rewrite (bind_Return _ _ _ _ _ (mutate_node_Some g1 f _ Hf)).
    fold (paint f (Some 0) g1). fold gp.
    rewrite (bind_Return _ _ _ _ _ (adjacency_at_touch gp f)).
    fold gq unc'. by rewrite (bind_Return _ _ _ _ _ Hloop).
  - assert (Hs' : same_graph g1 g') by by eapply same_graph_trans.
    assert (Hcolf : ∀ k, color_of g' k = if decide (k = f) then Some 0 else None).
    { intros k. by rewrite Hcol', Hcolq. }
    split_and!; try done.
    + by eapply same_graph_trans.
    + by apply set_remove_NoDup.
    + intros k Hk. pose proof Hk as [Hk1 Hk2]%elem_of_set_remove.
      apply Hunc in Hk1. split_and!.
      * by apply (same_graph_has_node g1 g').
      * by rewrite Hcolf, decide_False.
      * unfold true_saturation.
        rewrite (neighbor_colors_single g' f 0 k Hcolf).
        rewrite Hsat', Hsatq, (Hzero k Hk1).
        assert (Hiff : k ∈ elements (adj gp f) ↔ f ∈ adj g' k).
        { rewrite elem_of_elements. unfold gp. rewrite adj_paint.
          destruct Hs' as (_ & _ & ->). split; apply (wf_adj_sym g1 Hwf). }
        repeat case_decide; simpl; rewrite ?size_singleton, ?size_empty;
          try done; exfalso; tauto.
    + intros k Hk Hnk. rewrite Hcolf. case_decide; [done|].
      exfalso. apply Hnk. apply elem_of_set_remove. split; [|done].
      apply Hunc. by apply (same_graph_has_node g1 g').
  - exists f. split_and!; try done. by rewrite Hcol', Hcolq, decide_True.
Qed.
End dsatur_first_proofs.

(** What is assumed of the iteration order of [set(keys)]: it enumerates the
    keys, each once. *)
Definition valid_set_order (set_order : list Z → list Z) : Prop :=
  ∀ l, NoDup l → set_order l ≡ₚ l.

Lemma sat_of_reset g k :
  has_node g k → sat_of (set_nodes (reset_nodes (nodes g)) g) k = Some 0.
Proof.
  intros [n Hn]%lookup_node_is_Some. unfold sat_of.
  by rewrite nodes_set_nodes, lookup_reset_nodes, Hn.
Qed.

(** The state in which [dsatur] enters its [while] loop. *)
Lemma dsatur_start set_order g0 :
  valid_set_order set_order → wf g0 →
  let g1 := set_nodes (reset_nodes (nodes g0)) g0 in
  ∃ uncolored g,
    dsatur_first (set_order (keys g1)) g1 = Return uncolored g
    ∧ dsatur_inv g0 uncolored g
    ∧ match set_order (keys g1) with
      | [] => uncolored = []
      | _ => ∃ first_node,
               is_first_max Z.gtb (degree_count g1) (set_order (keys g1))
                 first_node
               ∧ uncolored = set_remove first_node (set_order (keys g1))
               ∧ color_of g first_node = Some 0
      end.
Proof.
  intros Hord Hwf g1.
  assert (Hk1 : keys g1 = keys g0) by apply reset_nodes_keys.
  assert (Hperm : set_order (keys g1) ≡ₚ keys g1).
  { apply Hord. rewrite Hk1. apply Hwf. }
  apply dsatur_first_spec.
  - by apply wf_reset.
  - apply same_graph_reset.
  - apply color_of_reset.
  - intros k Hk. apply sat_of_reset. unfold has_node in *. by rewrite <- Hk1.
  - rewrite Hperm, Hk1. apply Hwf.
  - intros k. by rewrite Hperm.
Qed.

Lemma dsatur_spec set_order elapsed g0 :
  valid_set_order set_order → wf g0 →
  ∃ g, dsatur set_order elapsed g0 = Return (stats_of "DSATUR" elapsed g) g
       ∧ complete_colouring g0 g ∧ bounded g.
Proof.
  intros Hord Hwf. unfold dsatur.
  rewrite (bind_Return _ _ _ _ _ (reset_colors_run g0)).
  unfold bind at 1, get.
  destruct (dsatur_start set_order g0 Hord Hwf) as (unc & g2 & Hfirst & Hinv & _).
  rewrite (bind_Return _ _ _ _ _ Hfirst).
  destruct (dsatur_loop_spec g0 (length unc) unc g2 (le_n _) Hinv)
    as (g & Hloop & (Hwf' & Hp & Hb) & Hsame & _ & _ & Hcol).
  rewrite (bind_Return _ _ _ _ _ Hloop).
  exists g. split; [by apply _compute_stats_run|].
  split; [|done]. split_and!; try done.
  intros k Hk. apply Hcol; [by apply (same_graph_has_node g0 g)|].
  intros []%elem_of_nil.
Qed.

(** * The claims *)

(** Graphs used as concrete instances. *)
Definition triangle : Graph :=
  build [AddNode 0 default_position; AddNode 1 default_position;
         AddNode 2 default_position; AddEdge 0 1; AddEdge 1 2; AddEdge 2 0].

Definition three_isolated : Graph :=
  build [AddNode 0 default_position; AddNode 1 default_position;
         AddNode 2 default_position].

Definition ascending_order (l : list Z) : list Z := sorted_by Z.ltb l.

Lemma ascending_order_valid : valid_set_order ascending_order.
Proof. intros l _. apply sorted_by_perm. Qed.

(** [count_conflicts()] returns 0 and no edge joins two nodes of one colour. *)
Definition conflict_free (g : Graph) : Prop :=
  count_conflicts g = Return 0 g
  ∧ ∀ u v c, (u, v) ∈ edges g → color_of g u = Some c → color_of g v ≠ Some c.

Lemma proper_conflict_free g : wf g → proper g → conflict_free g.
Proof.
  intros Hwf Hp. pose proof (proper_no_conflict g Hwf Hp) as H0. split.
  - by rewrite count_conflicts_run, H0.
  - by apply no_conflict_edges.
Qed.

Lemma stats_of_conflicts name elapsed g :
  wf g → proper g → conflicts (stats_of name elapsed g) = 0.
Proof. intros. simpl. by apply proper_no_conflict. Qed.

(** C1.  On every graph that satisfies the invariant of [Graph] (every graph
    built with [add_node] and [add_edge], whatever colours it carries),
    [greedy_coloring], [welsh_powell] and [dsatur] return a statistics
    record, [backtracking_exact] returns a statistics record or the failure
    record, and whenever a statistics record is returned its [conflicts]
    field is 0, [count_conflicts()] returns 0 on the final graph and no edge
    has two endpoints of the same colour. *)
Theorem C1_no_conflicts_after_run
    (set_order : list Z → list Z) (g0 : Graph) (elapsed : Q)
    (max_colors : option Z) :
  wf g0 → valid_set_order set_order →
  (∃ s g, greedy_coloring elapsed g0 = Return s g
          ∧ conflicts s = 0 ∧ conflict_free g)
  ∧ (∃ s g, welsh_powell elapsed g0 = Return s g
            ∧ conflicts s = 0 ∧ conflict_free g)
  ∧ (∃ s g, dsatur set_order elapsed g0 = Return s g
            ∧ conflicts s = 0 ∧ conflict_free g)
  ∧ (∃ r g, backtracking_exact max_colors elapsed g0 = Return r g
            ∧ (r = no_solution
               ∨ ∃ s, r = StatsRecord s ∧ conflicts s = 0 ∧ conflict_free g)).
Proof.
  intros Hwf Hord. split_and!.
  - destruct (greedy_coloring_spec elapsed g0 Hwf)
      as (g & Hrun & (Hwf' & Hp & _) & _).
    eexists _, g. split; [done|].
    split; [by apply stats_of_conflicts|by apply proper_conflict_free].
  - destruct (welsh_powell_spec elapsed g0 Hwf)
      as (g & Hrun & (Hwf' & Hp & _) & _).
    eexists _, g. split; [done|].
    split; [by apply stats_of_conflicts|by apply proper_conflict_free].
  - destruct (dsatur_spec set_order elapsed g0 Hord Hwf)
      as (g & Hrun & (Hwf' & Hp & _) & _).
    eexists _, g. split; [done|].
    split; [by apply stats_of_conflicts|by apply proper_conflict_free].
  - destruct (backtracking_exact_spec max_colors elapsed g0 Hwf)
      as (r & g & Hrun & Hwf' & _ & [(-> & (_ & Hp & _) & _)|(-> & _)] & _).
    + eexists _, g. split; [done|]. right. eexists. split; [done|].
      split; [by apply stats_of_conflicts|by apply proper_conflict_free].
    + eexists _, g. split; [done|]. by left.
Qed.

Lemma C1_witness :
  (∃ s g, greedy_coloring 0 triangle = Return s g
          ∧ conflicts s = 0 ∧ conflict_free g)
  ∧ (∃ s g, welsh_powell 0 triangle = Return s g
            ∧ conflicts s = 0 ∧ conflict_free g)
  ∧ (∃ s g, dsatur ascending_order 0 triangle = Return s g
            ∧ conflicts s = 0 ∧ conflict_free g)
  ∧ (∃ r g, backtracking_exact (Some 3) 0 triangle = Return r g
            ∧ (r = no_solution
               ∨ ∃ s, r = StatsRecord s ∧ conflicts s = 0 ∧ conflict_free g)).
Proof.
  apply (C1_no_conflicts_after_run ascending_order triangle 0 (Some 3)).
  - apply wf_build.
  - apply ascending_order_valid.
Defined.

(** C2 as stated fails: a colour written on a node before the run is gone
    after it.  Node 0 of a one-node graph is given colour 5; each of the four
    algorithms leaves it with colour 0. *)
Definition preassigned : Graph :=
  paint 0 (Some 5) (build [AddNode 0 default_position]).

Lemma C2_counterexample :
  color_of preassigned 0 = Some 5
  ∧ color_of (state_after (greedy_coloring 0 preassigned)) 0 = Some 0
  ∧ color_of (state_after (welsh_powell 0 preassigned)) 0 = Some 0
  ∧ color_of (state_after (dsatur ascending_order 0 preassigned)) 0 = Some 0
  ∧ color_of (state_after (backtracking_exact None 0 preassigned)) 0 = Some 0.
Proof. by vm_compute. Qed.

Lemma reset_nodes_idemp l : reset_nodes (reset_nodes l) = reset_nodes l.
Proof.
  unfold reset_nodes. rewrite <- list_fmap_compose.
  apply list_fmap_ext. by intros ? [k n].
Qed.

Lemma reset_colors_absorb {A} (rest : M A) g :
  (reset_colors ;; rest) (set_nodes (reset_nodes (nodes g)) g)
  = (reset_colors ;; rest) g.
Proof.
  rewrite !(bind_Return _ _ _ _ _ (reset_colors_run _)).
  by rewrite nodes_set_nodes, reset_nodes_idemp.
Qed.

(** C2, amended.  Every algorithm starts with [reset_colors()]: the colours
    (and saturations) the graph carried are discarded, and the run, its
    result and the final state are those of the run on the graph with every
    node uncoloured. *)
Theorem C2_preassigned_colors_are_reset
    (set_order : list Z → list Z) (g : Graph) (elapsed : Q)
    (max_colors : option Z) :
  let cleared := set_nodes (reset_nodes (nodes g)) g in
  greedy_coloring elapsed g = greedy_coloring elapsed cleared
  ∧ welsh_powell elapsed g = welsh_powell elapsed cleared
  ∧ dsatur set_order elapsed g = dsatur set_order elapsed cleared
  ∧ backtracking_exact max_colors elapsed g
    = backtracking_exact max_colors elapsed cleared.
Proof.
  simpl. unfold greedy_coloring, welsh_powell, dsatur, backtracking_exact.
  by rewrite !reset_colors_absorb.
Qed.

(** C3.  [add_edge(u, v)] raises exactly when [u] or [v] is not a key of
    [nodes]; the exception is [ValueError] and the graph it leaves is the
    graph before the call, so edges, adjacency index, neighbour sets and
    degrees are untouched and no node was created.  Otherwise it returns. *)
Theorem C3_add_edge_raises_iff_absent (g : Graph) (u v : Z) :
  ((∃ e g', add_edge u v g = Raise e g') ↔ ¬ has_node g u ∨ ¬ has_node g v)
  ∧ (∀ e g', add_edge u v g = Raise e g' → e = ValueError ∧ g' = g)
  ∧ (has_node g u ∧ has_node g v → ∃ g', add_edge u v g = Return tt g').
Proof.
  assert (Hret : has_node g u ∧ has_node g v →
                 ∃ g', add_edge u v g = Return tt g').
  { intros [Hu Hv]. destruct (decide (u = v)) as [->|Hne].
    { exists g. by apply add_edge_self. }
    destruct (decide (v ∈ adj g u)) as [Hin|Hin].
    { exists g. by apply add_edge_known. }
    destruct (add_edge_fresh g u v Hu Hv Hne Hin) as (g' & Hrun & _).
    by exists g'. }
  destruct (decide (has_node g u ∧ has_node g v)) as [Hboth|Hno].
  - destruct (Hret Hboth) as [g1 Hg1]. rewrite Hg1. split_and!.
    + split; [by intros (? & ? & ?)|]. intros [?|?]; tauto.
    + done.
    + by exists g1.
  - rewrite (add_edge_raises g u v Hno). split_and!.
    + split; [|by eauto]. intros _.
      destruct (decide (has_node g u)); [|by left].
      destruct (decide (has_node g v)); [|by right]. tauto.
    + by intros ?? [= <- <-].
    + tauto.
Qed.

Lemma C3_witness :
  ∃ g', add_edge 0 1 three_isolated = Return tt g'.
Proof.
  apply (C3_add_edge_raises_iff_absent three_isolated 0 1).
  split; apply (bool_decide_unpack _); by vm_compute.
Defined.

Lemma all_uncolored g :
  wf g → (∀ k, color_of g k = None) →
  Forall (λ kn : Z * Node, color kn.2 = None) (nodes g).
Proof.
  intros Hwf Hnone. apply Forall_forall. intros [k n] Hin.
  pose proof (elem_lookup_node _ _ _ (wf_keys g Hwf) Hin) as Hn.
  specialize (Hnone k). unfold color_of in Hnone. by rewrite Hn in Hnone.
Qed.

(** C5.  [backtracking_exact] raises nothing: it returns either a statistics
    record or the record [{'error': ...}], which is no statistics record.
    It returns the error record exactly when the graph has no proper
    colouring within the budget [k], and then every node of the graph is
    uncoloured; a returned statistics record comes with every node coloured
    within the budget. *)
Theorem C5_backtracking_failure_is_a_value
    (g0 : Graph) (max_colors : option Z) (elapsed : Q) :
  wf g0 →
  ∃ r g,
    backtracking_exact max_colors elapsed g0 = Return r g
    ∧ (r = no_solution ↔ ¬ colourable g0 (budget max_colors g0))
    ∧ ((r = no_solution
        ∧ Forall (λ kn : Z * Node, color kn.2 = None) (nodes g))
       ∨ (∃ s, r = StatsRecord s ∧ r ≠ no_solution
          ∧ ∀ k, has_node g0 k →
                 ∃ c, color_of g k = Some c ∧ 0 ≤ c < budget max_colors g0)).
Proof.
  intros Hwf.
  destruct (backtracking_exact_spec max_colors elapsed g0 Hwf)
    as (r & g & Hrun & Hwf' & _ & [(-> & Hcc & Hcol)|(-> & Hnone & Hno)] & _).
  - eexists _, g. split; [done|]. split.
    + split; [done|]. intros Hno. destruct Hno.
      by eapply complete_colouring_colourable.
    + right. eexists. by split_and!.
  - eexists _, g. split; [done|]. split; [done|].
    left. split; [done|]. by apply all_uncolored.
Qed.

Lemma C5_witness :
  ∃ r g,
    backtracking_exact (Some 2) 0 triangle = Return r g
    ∧ (r = no_solution ↔ ¬ colourable triangle (budget (Some 2) triangle))
    ∧ ((r = no_solution
        ∧ Forall (λ kn : Z * Node, color kn.2 = None) (nodes g))
       ∨ (∃ s, r = StatsRecord s ∧ r ≠ no_solution
          ∧ ∀ k, has_node triangle k →
                 ∃ c, color_of g k = Some c
                      ∧ 0 ≤ c < budget (Some 2) triangle)).
Proof. apply (C5_backtracking_failure_is_a_value triangle), wf_build. Defined.

(** On the triangle with a budget of two colours the search does fail. *)
Example backtracking_triangle_two_colors :
  ∃ g, backtracking_exact (Some 2) 0 triangle = Return no_solution g
       ∧ Forall (λ kn : Z * Node, color kn.2 = None) (nodes g).
Proof.
  eexists. split; [by vm_compute|].
  repeat constructor.
Qed.

(** C6.  After any sequence of [add_node] and [add_edge] calls on a new
    graph: adjacency is symmetric; no edge [(u, u)] is stored; no pair is
    stored twice in [edges], in either order; and for every node the
    [degree] field is the size of its entry in the adjacency index and the
    size of its [neighbors] set. *)
Theorem C6_graph_invariants (ops : list op) :
  let g := build ops in
  (∀ u v, v ∈ adj g u ↔ u ∈ adj g v)
  ∧ (∀ u, (u, u) ∉ edges g)
  ∧ (NoDup (edges g) ∧ ∀ u v, (u, v) ∈ edges g → (v, u) ∉ edges g)
  ∧ (∀ u n, lookup_node u (nodes g) = Some n →
            degree n = Z.of_nat (size (adj g u))
            ∧ degree n = Z.of_nat (size (neighbors n))).
Proof.
  simpl. pose proof (wf_build ops) as Hwf. split_and!.
  - intros u v. split; apply (wf_adj_sym _ Hwf).
  - intros u Hu. apply (wf_adj_irrefl _ Hwf u). by apply wf_edges_adj.
  - apply Hwf.
  - apply Hwf.
  - intros u n Hn. destruct (wf_node _ Hwf u n Hn) as (_ & Hnb & Hd).
    split; [done|by rewrite Hnb].
Qed.

(** C8 as stated fails: [self.adjacency] is a [defaultdict(set)], and reading
    [self.adjacency[node_id]] for a key without an entry inserts one.  On a
    graph with the single node 0 and no edge the adjacency index is empty
    before the call and holds the entry [0: set()] after it. *)
Definition single_node : Graph := build [AddNode 0 default_position].

Lemma C8_counterexample :
  adjacency single_node = ∅
  ∧ adjacency (state_after (get_neighbor_colors 0 single_node)) = {[0 := ∅]}
  ∧ state_after (get_neighbor_colors 0 single_node) ≠ single_node.
Proof.
  split_and!; [by vm_compute..|].
  intros Heq. apply (f_equal (λ g, adjacency g !! 0)) in Heq.
  by vm_compute in Heq.
Qed.

(** C8, amended.  [get_neighbor_colors(id)] returns exactly the set of the
    colours of the coloured neighbours of [id]; it leaves [nodes] (every
    field of every node) and [edges] unchanged, and every neighbour set of
    the adjacency index reads as before.  The one change it can make is to
    add the entry [id: set()] to the adjacency index when [id] had none. *)
Theorem C8_get_neighbor_colors (g : Graph) (node_id : Z) :
  wf g →
  ∃ colors g',
    get_neighbor_colors node_id g = Return colors g'
    ∧ (∀ c, c ∈ colors ↔
            ∃ v n, v ∈ adj g node_id ∧ lookup_node v (nodes g) = Some n
                   ∧ color n = Some c)
    ∧ nodes g' = nodes g ∧ edges g' = edges g
    ∧ (∀ w, adj g' w = adj g w)
    ∧ adjacency g' = match adjacency g !! node_id with
                     | Some _ => adjacency g
                     | None => <[node_id := ∅]> (adjacency g)
                     end.
Proof.
  intros Hwf. exists (neighbor_colors_of g node_id), (touch node_id g).
  split; [by apply get_neighbor_colors_wf|]. split_and!.
  - intros c. rewrite elem_of_neighbor_colors_of. unfold color_of. split.
    + intros (v & Hv & Hc).
      destruct (lookup_node v (nodes g)) as [n|] eqn:E; [|done]. by exists v, n.
    + intros (v & n & Hv & Hn & Hc). exists v. by rewrite Hn.
  - apply nodes_touch.
  - apply edges_touch.
  - intros w. apply adj_touch.
  - unfold touch. by destruct (adjacency g !! node_id).
Qed.

Lemma C8_witness :
  ∃ colors g',
    get_neighbor_colors 0 triangle = Return colors g'
    ∧ (∀ c, c ∈ colors ↔
            ∃ v n, v ∈ adj triangle 0 ∧ lookup_node v (nodes triangle) = Some n
                   ∧ color n = Some c)
    ∧ nodes g' = nodes triangle ∧ edges g' = edges triangle
    ∧ (∀ w, adj g' w = adj triangle w)
    ∧ adjacency g' = match adjacency triangle !! 0 with
                     | Some _ => adjacency triangle
                     | None => <[0 := ∅]> (adjacency triangle)
                     end.
Proof. apply (C8_get_neighbor_colors triangle 0), wf_build. Defined.

(** ** Complete graphs *)

(** Every pair of distinct nodes is connected. *)
Definition complete (g : Graph) : Prop :=
  Forall (λ u, Forall (λ v, u = v ∨ v ∈ adj g u) (keys g)) (keys g).

#[global] Instance complete_dec g : Decision (complete g).
Proof. unfold complete. apply _. Defined.

Lemma complete_adj g u v :
  complete g → has_node g u → has_node g v → u ≠ v → v ∈ adj g u.
Proof.
  unfold complete, has_node. rewrite Forall_forall. intros Hc Hu Hv Hne.
  specialize (Hc u Hu). rewrite Forall_forall in Hc.
  by destruct (Hc v Hv).
Qed.

Lemma distinct_colors_count (g : Graph) (l : list (Z * Node)) :
  NoDup l.*1 →
  (∀ k n, (k, n) ∈ l → is_Some (color n)) →
  (∀ k n k' n', (k, n) ∈ l → (k', n') ∈ l → k ≠ k' → color n ≠ color n') →
  NoDup (omap (λ kn : Z * Node, color kn.2) l)
  ∧ length (omap (λ kn : Z * Node, color kn.2) l) = length l.
Proof.
  induction l as [|[k n] l IH]; intros Hnd Hcol Hdiff; csimpl.
  { split; [constructor|done]. }
  apply NoDup_cons in Hnd as [Hk Hnd].
  destruct (Hcol k n) as [c Hc]; [apply list_elem_of_here|].
  rewrite Hc. csimpl.
  destruct IH as [IH1 IH2]; [done| | |].
  { intros k' n' Hin. apply (Hcol k' n'). by apply list_elem_of_further. }
  { intros k1 n1 k2 n2 H1 H2. apply Hdiff; by apply list_elem_of_further. }
  split; [|by rewrite IH2]. apply NoDup_cons. split; [|done].
  intros ([k' n'] & Hin & Hc')%list_elem_of_omap. simpl in Hc'.
  apply (Hdiff k n k' n'); [apply list_elem_of_here|by apply list_elem_of_further|
                            |congruence].
  intros ->. apply Hk. apply list_elem_of_fmap. by exists (k', n').
Qed.

Lemma complete_chromatic g0 g :
  complete g0 → complete_colouring g0 g →
  get_chromatic_number g = len (nodes g0).
Proof.
  intros Hc (Hwf & Hp & (Hk & _ & Ha) & Hcol).
  assert (Hlook : ∀ k n, (k, n) ∈ nodes g → color_of g k = color n).
  { intros k n Hin. unfold color_of.
    by rewrite (elem_lookup_node _ _ _ (wf_keys g Hwf) Hin). }
  assert (Hhas : ∀ k n, (k, n) ∈ nodes g → has_node g0 k).
  { intros k n Hin. unfold has_node. rewrite <- Hk.
    apply list_elem_of_fmap. by exists (k, n). }
  destruct (distinct_colors_count g (nodes g)) as [Hnd Hlen].
  - apply Hwf.
  - intros k n Hin. rewrite <- (Hlook k n Hin). apply Hcol. by eapply Hhas.
  - intros k n k' n' Hin Hin' Hne Heq.
    rewrite <- (Hlook k n Hin), <- (Hlook k' n' Hin') in Heq.
    destruct (Hcol k (Hhas k n Hin)) as [c Hkc].
    apply (Hp k k' c); [|done|congruence].
    rewrite Ha. apply complete_adj; eauto.
  - unfold get_chromatic_number. rewrite size_list_to_set by done.
    rewrite Hlen. unfold len. f_equal. unfold keys in Hk.
    by rewrite <- (length_fmap fst (nodes g)), <- (length_fmap fst (nodes g0)),
      Hk.
Qed.

(** ** The complete graphs of the tests *)

(** [range(a, b)] *)
Definition range2 (a b : Z) : list Z := (λ k, a + k) <$> range (b - a).

(** [Graph(n)], then [add_edge(i, j)] for [i] in [range(n)] and [j] in
    [range(i + 1, n)]: the fixture [complete_graph] of the tests, for any
    size. *)
Definition complete_graph_edges (n : Z) : list (Z * Z) :=
  i ← range n; (λ j, (i, j)) <$> range2 (i + 1) n.

Definition complete_graph (n : Z) : Graph :=
  build (((λ i, AddNode i default_position) <$> range n)
         ++ ((λ e : Z * Z, AddEdge e.1 e.2) <$> complete_graph_edges n)).

Lemma range2_elem a b x : x ∈ range2 a b ↔ a ≤ x < b.
Proof.
  unfold range2. rewrite list_elem_of_fmap. setoid_rewrite range_elem. split.
  - intros (k & -> & Hk). lia.
  - intros Hx. exists (x - a). lia.
Qed.

Lemma run_ops_app ops1 ops2 g :
  run_ops (ops1 ++ ops2) g = run_ops ops2 (run_ops ops1 g).
Proof. apply foldl_app. Qed.

Lemma run_add_nodes (l : list Z) g :
  NoDup (keys g ++ l) →
  keys (run_ops ((λ i, AddNode i default_position) <$> l) g) = keys g ++ l
  ∧ ∀ u, adj (run_ops ((λ i, AddNode i default_position) <$> l) g) u = adj g u.
Proof.
  revert g. induction l as [|x l IH]; intros g Hnd; csimpl.
  { by rewrite app_nil_r. }
  assert (Hx : ¬ has_node g x).
  { apply NoDup_app in Hnd as (_ & Hd & _). intros Hx.
    apply (Hd x Hx), list_elem_of_here. }
  rewrite (add_node_fresh g x _ Hx). cbn [state_after].
  set (g1 := set_nodes _ g).
  assert (Hk1 : keys g1 = keys g ++ [x]).
  { unfold g1, keys. by rewrite nodes_set_nodes, fmap_app. }
  destruct (IH g1) as [Hk Ha].
  { rewrite Hk1, <- app_assoc. done. }
  split; [by rewrite Hk, Hk1, <- app_assoc|].
  intros u. by rewrite Ha.
Qed.

Lemma run_add_edges (es : list (Z * Z)) g :
  wf g → (∀ e, e ∈ es → has_node g e.1 ∧ has_node g e.2) →
  keys (run_ops ((λ e : Z * Z, AddEdge e.1 e.2) <$> es) g) = keys g
  ∧ ∀ u v, v ∈ adj (run_ops ((λ e : Z * Z, AddEdge e.1 e.2) <$> es) g) u ↔
           v ∈ adj g u ∨ (u ≠ v ∧ ((u, v) ∈ es ∨ (v, u) ∈ es)).
Proof.
  revert g. induction es as [|[a b] es IH]; intros g Hwf Hes; csimpl.
  { split; [done|]. intros u v. split; [by left|].
    intros [?|[_ [[]%elem_of_nil|[]%elem_of_nil]]]. done. }
  destruct (Hes (a, b)) as [Ha Hb]; [apply list_elem_of_here|]. simpl in *.
  set (g1 := state_after (add_edge a b g)).
  assert (Hwf1 : wf g1) by by apply wf_add_edge.
  assert (Hstep : keys g1 = keys g
            ∧ ∀ u v, v ∈ adj g1 u ↔
                     v ∈ adj g u ∨ (u ≠ v ∧ ((u, v) = (a, b) ∨ (v, u) = (a, b)))).
  { unfold g1. destruct (decide (a = b)) as [->|Hne].
    { rewrite add_edge_self by done. split; [done|].
      intros u v. split; [by left|].
      intros [?|[Hne [[= -> ->]|[= -> ->]]]]; done. }
    destruct (decide (b ∈ adj g a)) as [Hin|Hin].
    { rewrite add_edge_known by done. split; [done|].
      intros u v. split; [by left|].
      intros [?|[_ [[= -> ->]|[= -> ->]]]]; [done..|].
      by apply (wf_adj_sym g Hwf). }
    destruct (add_edge_fresh g a b Ha Hb Hne Hin) as (g2 & -> & Hn & _ & Hadj).
    split.
    - unfold keys. simpl. by rewrite Hn, link_nodes_keys.
    - intros u v. simpl. rewrite Hadj.
      repeat case_decide; subst;
        rewrite ?elem_of_union, ?elem_of_singleton; naive_solver. }
  destruct Hstep as [Hk1 Ha1].
  destruct (IH g1 Hwf1) as [Hk Hadj].
  { intros e He. unfold has_node. rewrite Hk1. apply Hes.
    by apply list_elem_of_further. }
  split; [by rewrite Hk, Hk1|].
  intros u v. rewrite Hadj, Ha1. rewrite !elem_of_cons. tauto.
Qed.

Lemma complete_graph_spec (n : Z) :
  0 ≤ n →
  wf (complete_graph n) ∧ complete (complete_graph n)
  ∧ keys (complete_graph n) = range n ∧ len (nodes (complete_graph n)) = n.
Proof.
  intros Hn. split; [apply wf_build|].
  unfold complete_graph, build. rewrite run_ops_app.
  destruct (run_add_nodes (range n) empty_graph) as [Hk0 Ha0].
  { apply range_NoDup. }
  set (g1 := run_ops (_ <$> range n) empty_graph) in *.
  assert (Hwf1 : wf g1) by apply wf_run_ops, wf_empty.
  destruct (run_add_edges (complete_graph_edges n) g1 Hwf1) as [Hk Ha].
  { intros [i j] Hin. unfold has_node. rewrite Hk0. simpl.
    unfold complete_graph_edges in Hin.
    apply list_elem_of_bind in Hin as (i' & Hin & Hi').
    apply list_elem_of_fmap in Hin as (j' & [= -> ->] & Hj'%range2_elem).
    apply range_elem in Hi'. split; apply range_elem; lia. }
  rewrite Hk0 in Hk. simpl in Hk.
  split_and!.
  - unfold complete. rewrite Hk. apply Forall_forall. intros u Hu.
    apply Forall_forall. intros v Hv.
    destruct (decide (u = v)) as [|Hne]; [by left|]. right.
    apply Ha. right. split; [done|].
    apply range_elem in Hu, Hv.
    assert (Hpair : ∀ i j, 0 ≤ i → i < j → j < n →
              (i, j) ∈ complete_graph_edges n).
    { intros i j ???. unfold complete_graph_edges.
      apply list_elem_of_bind. exists i. split; [|apply range_elem; lia].
      apply list_elem_of_fmap. exists j. split; [done|].
      apply range2_elem. lia. }
    destruct (decide (u < v)); [left|right]; apply Hpair; lia.
  - done.
  - unfold len. rewrite <- (length_fmap fst). fold (keys (run_ops
      ((λ e : Z * Z, AddEdge e.1 e.2) <$> complete_graph_edges n) g1)).
    rewrite Hk, range_length. lia.
Qed.

(** C9.  On a graph in which every pair of distinct nodes is connected, with
    [n] nodes, each of the four algorithms (exact backtracking with its
    default budget) returns a statistics record with [chromatic_number = n]
    and [conflicts = 0].  [complete_graph_spec] gives such a graph for every
    [n]. *)
Theorem C9_complete_graph
    (set_order : list Z → list Z) (g0 : Graph) (elapsed : Q) :
  wf g0 → valid_set_order set_order → complete g0 →
  (∃ s g, greedy_coloring elapsed g0 = Return s g
          ∧ chromatic_number s = len (nodes g0) ∧ conflicts s = 0)
  ∧ (∃ s g, welsh_powell elapsed g0 = Return s g
            ∧ chromatic_number s = len (nodes g0) ∧ conflicts s = 0)
  ∧ (∃ s g, dsatur set_order elapsed g0 = Return s g
            ∧ chromatic_number s = len (nodes g0) ∧ conflicts s = 0)
  ∧ (∃ s g, backtracking_exact None elapsed g0 = Return (StatsRecord s) g
            ∧ chromatic_number s = len (nodes g0) ∧ conflicts s = 0).
Proof.
  intros Hwf Hord Hc. split_and!.
  - destruct (greedy_coloring_spec elapsed g0 Hwf) as (g & Hrun & Hcc & _).
    eexists _, g. split; [done|]. split.
    + by apply complete_chromatic.
    + destruct Hcc as (? & ? & _). by apply stats_of_conflicts.
  - destruct (welsh_powell_spec elapsed g0 Hwf) as (g & Hrun & Hcc & _).
    eexists _, g. split; [done|]. split.
    + by apply complete_chromatic.
    + destruct Hcc as (? & ? & _). by apply stats_of_conflicts.
  - destruct (dsatur_spec set_order elapsed g0 Hord Hwf)
      as (g & Hrun & Hcc & _).
    eexists _, g. split; [done|]. split.
    + by apply complete_chromatic.
    + destruct Hcc as (? & ? & _). by apply stats_of_conflicts.
  - destruct (backtracking_exact_default elapsed g0 Hwf) as (g & Hrun & Hcc).
    eexists _, g. split; [done|]. split.
    + by apply complete_chromatic.
    + destruct Hcc as (? & ? & _). by apply stats_of_conflicts.
Qed.

Lemma C9_witness :
  (∃ s g, greedy_coloring 0 (complete_graph 5) = Return s g
          ∧ chromatic_number s = len (nodes (complete_graph 5))
          ∧ conflicts s = 0)
  ∧ (∃ s g, welsh_powell 0 (complete_graph 5) = Return s g
            ∧ chromatic_number s = len (nodes (complete_graph 5))
            ∧ conflicts s = 0)
  ∧ (∃ s g, dsatur ascending_order 0 (complete_graph 5) = Return s g
            ∧ chromatic_number s = len (nodes (complete_graph 5))
            ∧ conflicts s = 0)
  ∧ (∃ s g, backtracking_exact None 0 (complete_graph 5)
            = Return (StatsRecord s) g
            ∧ chromatic_number s = len (nodes (complete_graph 5))
            ∧ conflicts s = 0).
Proof.
  apply (C9_complete_graph ascending_order (complete_graph 5) 0).
  - apply wf_build.
  - apply ascending_order_valid.
  - apply (complete_graph_spec 5). lia.
Defined.

(** ** Colours and degrees *)

Definition max_degree (g : Graph) : Z :=
  foldr Z.max 0 ((λ kn : Z * Node, degree kn.2) <$> nodes g).

Lemma max_degree_ge g k n : (k, n) ∈ nodes g → degree n ≤ max_degree g.
Proof.
  unfold max_degree. induction (nodes g) as [|[k' n'] l IH]; csimpl.
  - by intros ?%elem_of_nil.
  - intros [[= -> ->]|Hin]%elem_of_cons; [lia|]. specialize (IH Hin). lia.
Qed.

Lemma max_degree_nonneg g : 0 ≤ max_degree g.
Proof. unfold max_degree. induction (nodes g); csimpl; lia. Qed.

(** Every colour is at most the degree of its node. *)
Definition colors_within_degree (g : Graph) : Prop :=
  ∀ k n c, lookup_node k (nodes g) = Some n → color n = Some c →
           0 ≤ c ≤ degree n.

Lemma bounded_within_degree g : wf g → bounded g → colors_within_degree g.
Proof.
  intros Hwf Hb k n c Hn Hc.
  destruct (wf_node g Hwf k n Hn) as (_ & _ & ->).
  apply Hb. unfold color_of. by rewrite Hn.
Qed.

Lemma within_degree_chromatic g :
  wf g → colors_within_degree g → get_chromatic_number g ≤ max_degree g + 1.
Proof.
  intros Hwf Hb. unfold get_chromatic_number.
  pose proof (max_degree_nonneg g) as Hpos.
  assert (Hsub : (list_to_set (omap (λ kn : Z * Node, color kn.2) (nodes g))
                  : gset Z) ⊆ list_to_set (range (max_degree g + 1))).
  { intros c ([k n] & Hin & Hc)%elem_of_list_to_set%list_elem_of_omap.
    simpl in Hc. apply elem_of_list_to_set, range_elem.
    pose proof (elem_lookup_node _ _ _ (wf_keys g Hwf) Hin) as Hn.
    pose proof (Hb k n c Hn Hc). pose proof (max_degree_ge g k n Hin). lia. }
  apply subseteq_size in Hsub.
  rewrite (size_list_to_set (range _)) in Hsub by apply range_NoDup.
  rewrite range_length in Hsub. lia.
Qed.

(** C10.  After [greedy_coloring], [welsh_powell] and [dsatur] every node
    carries a colour between 0 and its degree, and the number of colours
    reported is at most the maximum degree plus one. *)
Theorem C10_colors_bounded_by_degree
    (set_order : list Z → list Z) (g0 : Graph) (elapsed : Q) :
  wf g0 → valid_set_order set_order →
  (∃ s g, greedy_coloring elapsed g0 = Return s g
          ∧ (∀ k, has_node g0 k → is_Some (color_of g k))
          ∧ colors_within_degree g
          ∧ chromatic_number s ≤ max_degree g + 1)
  ∧ (∃ s g, welsh_powell elapsed g0 = Return s g
            ∧ (∀ k, has_node g0 k → is_Some (color_of g k))
            ∧ colors_within_degree g
            ∧ chromatic_number s ≤ max_degree g + 1)
  ∧ (∃ s g, dsatur set_order elapsed g0 = Return s g
            ∧ (∀ k, has_node g0 k → is_Some (color_of g k))
            ∧ colors_within_degree g
            ∧ chromatic_number s ≤ max_degree g + 1).
Proof.
  intros Hwf Hord.
  assert (Hfin : ∀ name g, complete_colouring g0 g → bounded g →
            (∀ k, has_node g0 k → is_Some (color_of g k))
            ∧ colors_within_degree g
            ∧ chromatic_number (stats_of name elapsed g) ≤ max_degree g + 1).
  { intros name g (Hwf' & _ & _ & Hall) Hb.
    pose proof (bounded_within_degree g Hwf' Hb). split; [done|].
    split; [done|]. by apply within_degree_chromatic. }
  split_and!.
  - destruct (greedy_coloring_spec elapsed g0 Hwf) as (g & Hrun & Hcc & Hb).
    eexists _, g. split; [done|]. by apply Hfin.
  - destruct (welsh_powell_spec elapsed g0 Hwf) as (g & Hrun & Hcc & Hb).
    eexists _, g. split; [done|]. by apply Hfin.
  - destruct (dsatur_spec set_order elapsed g0 Hord Hwf)
      as (g & Hrun & Hcc & Hb).
    eexists _, g. split; [done|]. by apply Hfin.
Qed.

Lemma C10_witness :
  (∃ s g, greedy_coloring 0 triangle = Return s g
          ∧ (∀ k, has_node triangle k → is_Some (color_of g k))
          ∧ colors_within_degree g
          ∧ chromatic_number s ≤ max_degree g + 1)
  ∧ (∃ s g, welsh_powell 0 triangle = Return s g
            ∧ (∀ k, has_node triangle k → is_Some (color_of g k))
            ∧ colors_within_degree g
            ∧ chromatic_number s ≤ max_degree g + 1)
  ∧ (∃ s g, dsatur ascending_order 0 triangle = Return s g
            ∧ (∀ k, has_node triangle k → is_Some (color_of g k))
            ∧ colors_within_degree g
            ∧ chromatic_number s ≤ max_degree g + 1).
Proof.
  apply (C10_colors_bounded_by_degree ascending_order triangle 0).
  - apply wf_build.
  - apply ascending_order_valid.
Defined.

(** ** Statistics *)

(** C7 as stated fails on the [efficiency] field: the record holds
    [round(efficiency, 2)].  With three nodes of which one is coloured the
    percentage is 200/3, computed on floats as 66.66666666666666, and the
    field is the float 66.67. *)
Definition one_of_three_colored : Graph := paint 0 (Some 0) three_isolated.

Lemma C7_counterexample :
  ∃ s, _compute_stats "Greedy" 0 one_of_three_colored
       = Return s one_of_three_colored
       ∧ stat_nodes s = 3 ∧ chromatic_number s = 1
       ∧ (efficiency s == binary64 (6667 # 100))%Q
       ∧ ¬ (efficiency s == (3 - 1) / 3 * 100)%Q
       ∧ ¬ (efficiency s == binary64 (binary64 ((3 - 1) / 3) * 100))%Q.
Proof.
  eexists. split; [by vm_compute|]. split_and!; try by vm_compute.
Qed.

(** The percentage is computed on floats before it is rounded: with 160
    nodes of which 73 carry distinct colours, the float [87 / 160 * 100] lies
    just below 54.375 and the field is the float 54.37, where the exact
    percentage 54.375 would round to 54.38. *)
Definition partly_colored_160 : Graph :=
  foldr (λ i g, paint i (Some i) g)
    (build ((λ i, AddNode i default_position) <$> range 160)) (range 73).

Lemma compute_stats_rounds_floats :
  ∃ s, _compute_stats "Greedy" 0 partly_colored_160
       = Return s partly_colored_160
       ∧ stat_nodes s = 160 ∧ chromatic_number s = 73
       ∧ (efficiency s == binary64 (5437 # 100))%Q
       ∧ (round2 ((160 - 73) / 160 * 100) == 5438 # 100)%Q.
Proof.
  eexists. split; [by vm_compute|]. split_and!; by vm_compute.
Qed.

(** C7, amended.  [_compute_stats] raises nothing and leaves the graph as it
    is, whatever part of the nodes is coloured.  [chromatic_number] is the
    number of distinct colours carried by nodes (uncoloured nodes count for
    nothing); [conflicts] is the number of edges whose two endpoints are
    coloured, with the same colour; [efficiency] is
    [round((node_count - chromatic_number) / node_count * 100, 2)] as floats
    compute it when [node_count > 0] (the quotient, its product by 100 and
    the decimal that [round] yields are each rounded to the nearest float),
    else 0. *)
Theorem C7_compute_stats (name : string) (elapsed : Q) (g : Graph) :
  wf g →
  ∃ s (used : gset Z),
    _compute_stats name elapsed g = Return s g
    ∧ (∀ c, c ∈ used ↔ ∃ k n, (k, n) ∈ nodes g ∧ color n = Some c)
    ∧ chromatic_number s = Z.of_nat (size used)
    ∧ conflicts s
      = len (filter (λ e, ∃ c, color_of g e.1 = Some c
                               ∧ color_of g e.2 = Some c) (edges g))
    ∧ stat_nodes s = len (nodes g)
    ∧ efficiency s
      = (if bool_decide (len (nodes g) > 0)
         then binary64
                (round2
                   (binary64
                      (binary64 (inject_Z (len (nodes g) - chromatic_number s)
                                 / inject_Z (len (nodes g)))
                       * 100)))
         else 0%Q).
Proof.
  intros Hwf.
  exists (stats_of name elapsed g),
         (list_to_set (omap (λ kn : Z * Node, color kn.2) (nodes g))).
  split; [by apply _compute_stats_run|]. split_and!; try done.
  - intros c. rewrite elem_of_list_to_set, list_elem_of_omap. split.
    + intros ([k n] & Hin & Hc). by exists k, n.
    + intros (k & n & Hin & Hc). by exists (k, n).
  - cbn [efficiency stats_of]. by case_bool_decide.
Qed.

Lemma C7_witness :
  ∃ s (used : gset Z),
    _compute_stats "Greedy" 0 one_of_three_colored
    = Return s one_of_three_colored
    ∧ (∀ c, c ∈ used ↔
            ∃ k n, (k, n) ∈ nodes one_of_three_colored ∧ color n = Some c)
    ∧ chromatic_number s = Z.of_nat (size used)
    ∧ conflicts s
      = len (filter (λ e, ∃ c, color_of one_of_three_colored e.1 = Some c
                               ∧ color_of one_of_three_colored e.2 = Some c)
               (edges one_of_three_colored))
    ∧ stat_nodes s = len (nodes one_of_three_colored)
    ∧ efficiency s
      = (if bool_decide (len (nodes one_of_three_colored) > 0)
         then binary64
                (round2
                   (binary64
                      (binary64
                         (inject_Z (len (nodes one_of_three_colored)
                                    - chromatic_number s)
                          / inject_Z (len (nodes one_of_three_colored)))
                       * 100)))
         else 0%Q).
Proof.
  apply (C7_compute_stats "Greedy" 0 one_of_three_colored).
  apply wf_paint, wf_build.
Defined.

(** ** The selection rule of DSATUR *)

(** The states in which [dsatur] evaluates its loop condition
    [while uncolored:], from the graph [g0]. *)
Inductive dsatur_loop_state (set_order : list Z → list Z) (g0 : Graph)
  : list Z → Graph → Prop :=
  | loop_entry uncolored g :
      (let g1 := set_nodes (reset_nodes (nodes g0)) g0 in
       dsatur_first (set_order (keys g1)) g1 = Return uncolored g) →
      dsatur_loop_state set_order g0 uncolored g
  | loop_iteration uncolored g uncolored' g' :
      dsatur_loop_state set_order g0 uncolored g →
      uncolored ≠ [] →
      dsatur_step uncolored g = Return uncolored' g' →
      dsatur_loop_state set_order g0 uncolored' g'.

Lemma dsatur_loop_state_inv set_order g0 uncolored g :
  valid_set_order set_order → wf g0 →
  dsatur_loop_state set_order g0 uncolored g → dsatur_inv g0 uncolored g.
Proof.
  intros Hord Hwf. induction 1 as [unc g Hfirst|unc g unc' g' _ IH Hne Hstep].
  - destruct (dsatur_start set_order g0 Hord Hwf) as (unc1 & g2 & Hrun & Hinv & _).
    simpl in Hfirst. rewrite Hrun in Hfirst. by injection Hfirst as <- <-.
  - destruct (dsatur_step_spec g0 unc g IH Hne) as (sel & g1 & _ & _ & Hrun & Hinv).
    rewrite Hrun in Hstep. by injection Hstep as <- <-.
Qed.

Lemma bind_inv {A B} (m : M A) (f : A → M B) g b g' :
  bind m f g = Return b g' → ∃ a g1, m g = Return a g1 ∧ f a g1 = Return b g'.
Proof. unfold bind. destruct (m g) as [a g1|]; [by exists a, g1|done]. Qed.

(** The states of the inductive definition are those [dsatur_loop] goes
    through: from a loop state it ends in a loop state. *)
Lemma dsatur_loop_reaches set_order g0 fuel :
  ∀ uncolored g uncolored' g',
    dsatur_loop_state set_order g0 uncolored g →
    dsatur_loop fuel uncolored g = Return uncolored' g' →
    dsatur_loop_state set_order g0 uncolored' g'.
Proof.
  induction fuel as [|fuel IH]; intros unc g unc' g' Hreach Hrun.
  - destruct unc; simpl in Hrun; by injection Hrun as <- <-.
  - destruct unc as [|x l] eqn:E; [simpl in Hrun; by injection Hrun as <- <-|].
    rewrite <- E in *.
    assert (dsatur_loop (S fuel) unc
            = (uncolored' <- dsatur_step unc ;; dsatur_loop fuel uncolored'))
      as Heq by by rewrite E.
    rewrite Heq in Hrun. apply bind_inv in Hrun as (unc1 & g1 & Hstep & Hrun).
    apply (IH unc1 g1); [|done].
    eapply loop_iteration; [done| |done]. by rewrite E.
Qed.

(** A model of the order in which CPython iterates a small set of small
    non-negative integers: an integer [k] sits in slot [k mod 8] of the
    8-slot table, and slots are visited in increasing order.  (Exact for at
    most four integers with distinct residues.) *)
Definition slot_order (l : list Z) : list Z :=
  sorted_by (λ a b, a mod 8 <? b mod 8) l.

Lemma slot_order_valid : valid_set_order slot_order.
Proof. intros l _. apply sorted_by_perm. Qed.

Definition four_isolated : Graph :=
  build [AddNode 8 default_position; AddNode 1 default_position;
         AddNode 10 default_position; AddNode 3 default_position].

(** C4 as stated fails on the tie-break: ties go to the node met first when
    the set [uncolored] is iterated, not to the smallest id.  On four
    isolated nodes 8, 1, 10, 3 (the set iterates as 8, 1, 10, 3) the first
    node coloured is 8, although node 1 has the same degree; and once 8 and 1
    are coloured, the node selected from [{10, 3}] is 10, although node 3 has
    the same saturation and degree. *)
Lemma C4_counterexample :
  let g1 := set_nodes (reset_nodes (nodes four_isolated)) four_isolated in
  slot_order (keys g1) = [8; 1; 10; 3]
  ∧ ∃ g2 g3,
      dsatur_first (slot_order (keys g1)) g1 = Return [1; 10; 3] g2
      ∧ color_of g2 8 = Some 0
      ∧ degree_of g1 1 = degree_of g1 8
      ∧ dsatur_step [1; 10; 3] g2 = Return [10; 3] g3
      ∧ dsatur_loop_state slot_order four_isolated [10; 3] g3
      ∧ dsatur_select [10; 3] g3 = Return 10 g3
      ∧ dsatur_key g3 3 = dsatur_key g3 10.
Proof.
  simpl. split; [by vm_compute|].
  eexists _, _. split; [by vm_compute|].
  split; [by vm_compute|]. split; [by vm_compute|].
  split; [by vm_compute|]. split.
  - eapply loop_iteration; [apply loop_entry| |]; [by vm_compute|done|].
    by vm_compute.
  - split; by vm_compute.
Qed.

(** C4, amended.  The first node coloured by DSATUR is a node of maximum
    degree, the first such node in the iteration order of the set of node
    ids, and it receives colour 0.  Every node selected afterwards is an
    uncoloured node of highest saturation (the number of distinct colours
    among its coloured neighbours), ties broken by higher degree, then by the
    iteration order of the set of uncoloured nodes: the first such node is
    taken.  It receives the smallest colour not used by its neighbours. *)
Theorem C4_dsatur_selection (set_order : list Z → list Z) (g0 : Graph) :
  valid_set_order set_order → wf g0 →
  let g1 := set_nodes (reset_nodes (nodes g0)) g0 in
  (set_order (keys g1) ≠ [] →
   ∃ first_node uncolored g,
     dsatur_first (set_order (keys g1)) g1 = Return uncolored g
     ∧ is_first_max Z.gtb (degree_count g0) (set_order (keys g1)) first_node
     ∧ color_of g first_node = Some 0
     ∧ uncolored = set_remove first_node (set_order (keys g1)))
  ∧ (∀ uncolored g,
       dsatur_loop_state set_order g0 uncolored g → uncolored ≠ [] →
       (∀ k, k ∈ uncolored ↔ has_node g k ∧ color_of g k = None)
       ∧ ∃ selected g',
           dsatur_select uncolored g = Return selected g
           ∧ is_first_max pair_gt
               (λ n, (true_saturation g n, degree_count g n))
               uncolored selected
           ∧ dsatur_step uncolored g
             = Return (set_remove selected uncolored) g'
           ∧ color_of g' selected
             = Some (get_smallest_available_color
                       (neighbor_colors_of g selected))).
Proof.
  intros Hord Hwf g1. split.
  - intros Hne.
    destruct (dsatur_start set_order g0 Hord Hwf) as (unc & g & Hrun & _ & Hfirst).
    fold g1 in Hrun, Hfirst.
    destruct (set_order (keys g1)) as [|x l] eqn:E; [done|].
    destruct Hfirst as (f & Hmax & Hunc & Hcol).
    exists f, unc, g. by split_and!.
  - intros unc g Hreach Hne.
    pose proof (dsatur_loop_state_inv _ _ _ _ Hord Hwf Hreach) as Hinv.
    split.
    + destruct Hinv as (_ & _ & _ & Hunc & Hcol). intros k. split.
      * intros Hk. by destruct (Hunc k Hk) as (? & ? & _).
      * intros [Hk Hnone]. destruct (decide (k ∈ unc)) as [|Hnk]; [done|].
        destruct (Hcol k Hk Hnk) as [c Hc]. congruence.
    + destruct (dsatur_step_spec g0 unc g Hinv Hne)
        as (sel & g' & Hsel & Hmax & Hstep & Hinv').
      exists sel, g'. split_and!; try done.
      pose proof (is_first_max_elem _ _ _ _ Hmax) as Hin.
      destruct Hinv as (Hgood & _ & _ & Hunc & _).
      pose proof (proj1 Hgood) as Hwfg.
      destruct (Hunc sel Hin) as (Hnode & _).
      unfold dsatur_step in Hstep. rewrite (bind_Return _ _ _ _ _ Hsel) in Hstep.
      rewrite (bind_Return _ _ _ _ _
                 (assign_first_fit_run g sel Hwfg Hnode)) in Hstep.
      rewrite (bind_Return _ _ _ _ _
                 (adjacency_at_touch (first_fit_state sel g) sel)) in Hstep.
      destruct (refresh_loop (touch sel (first_fit_state sel g))
                  (set_remove sel unc)
                  (elements (adj (first_fit_state sel g) sel)))
        with (g := touch sel (first_fit_state sel g))
        as ([] & g2 & Hloop & _ & _ & Hcol2 & _).
      { intros k [Hk _]%elem_of_set_remove. destruct (Hunc k Hk) as (Hk' & _).
        unfold has_node in *.
        by rewrite keys_touch, (proj1 (same_graph_first_fit g sel)). }
      { split_and!; try done. by apply good_touch, good_first_fit. }
      rewrite (bind_Return _ _ _ _ _ Hloop) in Hstep.
      injection Hstep as <-.
      by rewrite Hcol2, color_of_touch, color_of_first_fit, decide_True.
Qed.

Lemma C4_witness :
  let g1 := set_nodes (reset_nodes (nodes four_isolated)) four_isolated in
  (slot_order (keys g1) ≠ [] →
   ∃ first_node uncolored g,
     dsatur_first (slot_order (keys g1)) g1 = Return uncolored g
     ∧ is_first_max Z.gtb (degree_count four_isolated) (slot_order (keys g1))
         first_node
     ∧ color_of g first_node = Some 0
     ∧ uncolored = set_remove first_node (slot_order (keys g1)))
  ∧ (∀ uncolored g,
       dsatur_loop_state slot_order four_isolated uncolored g →
       uncolored ≠ [] →
       (∀ k, k ∈ uncolored ↔ has_node g k ∧ color_of g k = None)
       ∧ ∃ selected g',
           dsatur_select uncolored g = Return selected g
           ∧ is_first_max pair_gt
               (λ n, (true_saturation g n, degree_count g n))
               uncolored selected
           ∧ dsatur_step uncolored g
             = Return (set_remove selected uncolored) g'
           ∧ color_of g' selected
             = Some (get_smallest_available_color
                       (neighbor_colors_of g selected))).
Proof.
  apply (C4_dsatur_selection slot_order four_isolated).
  - apply slot_order_valid.
  - apply wf_build.
Defined.

(** * Further properties of the code *)

(** ** get_smallest_available_color *)

(** X1.  [get_smallest_available_color] returns the least non-negative
    integer that is not in the set: the loop stops on it, whatever the set
    holds (negative colours included). *)
Theorem X1_smallest_available_color_is_least (s : gset Z) (c : Z) :
  get_smallest_available_color s = c
  ↔ 0 ≤ c ∧ c ∉ s ∧ ∀ x, 0 ≤ x < c → x ∈ s.
Proof.
  split.
  - intros <-. split_and!.
    + apply smallest_available_bounds.
    + apply smallest_available_fresh.
    + apply smallest_available_least.
  - intros (Hc0 & Hc & Hleast).
    pose proof (smallest_available_bounds s) as [Hm0 _].
    pose proof (smallest_available_fresh s) as Hm.
    pose proof (smallest_available_least s) as Hmleast.
    destruct (Z.lt_trichotomy (get_smallest_available_color s) c)
      as [Hlt|[Heq|Hgt]]; [|done|].
    + destruct Hm. apply Hleast. lia.
    + destruct Hc. apply Hmleast. lia.
Qed.

(** ** add_edge, repeated *)

(** X2.  After [add_edge(u, v)] on two nodes of the graph, adding the same
    edge again, in either direction, changes nothing.  The first call leaves
    the whole graph as it was when [u = v] or the edge is known; otherwise it
    appends exactly the pair [(u, v)] to the list of edges, and each node is
    then in the other's adjacency set. *)
Theorem X2_add_edge_again_is_noop (g : Graph) (u v : Z) :
  wf g → has_node g u → has_node g v →
  ∃ g1, add_edge u v g = Return tt g1
        ∧ add_edge u v g1 = Return tt g1
        ∧ add_edge v u g1 = Return tt g1
        ∧ (u ≠ v → v ∈ adj g1 u ∧ u ∈ adj g1 v)
        ∧ (u = v ∨ v ∈ adj g u → g1 = g)
        ∧ (u ≠ v → v ∉ adj g u → edges g1 = edges g ++ [(u, v)])
        ∧ (len (edges g1) = len (edges g)
           ∨ (len (edges g1) = len (edges g) + 1 ∧ v ∉ adj g u ∧ u ≠ v)).
Proof.
  intros Hwf Hu Hv.
  destruct (decide (u = v)) as [->|Hne].
  { exists g. rewrite add_edge_self by done. split_and!; try done. by left. }
  destruct (decide (v ∈ adj g u)) as [Hin|Hin].
  { exists g. pose proof (wf_adj_sym g Hwf u v Hin).
    rewrite !add_edge_known by done. split_and!; try done. by left. }
  destruct (add_edge_fresh g u v Hu Hv Hne Hin) as (g1 & Hrun & Hn & He & Ha).
  exists g1.
  assert (Hk : keys g1 = keys g).
  { unfold keys. by rewrite Hn, link_nodes_keys. }
  assert (Hu1 : has_node g1 u) by (unfold has_node; by rewrite Hk).
  assert (Hv1 : has_node g1 v) by (unfold has_node; by rewrite Hk).
  assert (Hvu : v ∈ adj g1 u).
  { rewrite Ha, decide_False, decide_True by done. set_solver. }
  assert (Huv : u ∈ adj g1 v).
  { rewrite Ha, decide_True by done. set_solver. }
  split_and!; try done.
  - by apply add_edge_known.
  - by apply add_edge_known.
  - by intros [?|?].
  - right. split_and!; try done. unfold len. rewrite He, length_app. simpl. lia.
Qed.

Lemma X2_witness :
  ∃ g1, add_edge 0 1 three_isolated = Return tt g1
        ∧ add_edge 0 1 g1 = Return tt g1
        ∧ add_edge 1 0 g1 = Return tt g1
        ∧ (0 ≠ 1 → 1 ∈ adj g1 0 ∧ 0 ∈ adj g1 1)
        ∧ (0 = 1 ∨ 1 ∈ adj three_isolated 0 → g1 = three_isolated)
        ∧ (0 ≠ 1 → 1 ∉ adj three_isolated 0 →
           edges g1 = edges three_isolated ++ [(0, 1)])
        ∧ (len (edges g1) = len (edges three_isolated)
           ∨ (len (edges g1) = len (edges three_isolated) + 1
              ∧ 1 ∉ adj three_isolated 0 ∧ 0 ≠ 1)).
Proof.
  apply (X2_add_edge_again_is_noop three_isolated 0 1).
  - apply wf_build.
  - apply (bool_decide_unpack _). by vm_compute.
  - apply (bool_decide_unpack _). by vm_compute.
Defined.

(** ** The validator *)

(** X3.  On a graph satisfying the invariant, with any colours,
    [count_conflicts()] raises nothing, leaves the graph as it is and returns
    a number between 0 and the number of edges; it returns 0 exactly when no
    two adjacent nodes carry the same colour. *)
Theorem X3_count_conflicts_validates (g : Graph) :
  wf g →
  ∃ n, count_conflicts g = Return n g
       ∧ 0 ≤ n ≤ len (edges g)
       ∧ (n = 0 ↔ ∀ u v c, v ∈ adj g u → color_of g u = Some c →
                           color_of g v ≠ Some c).
Proof.
  intros Hwf. exists (conflict_count g).
  split; [by apply count_conflicts_run|]. split.
  - unfold conflict_count, len.
    pose proof (length_filter (conflict_edge g) (edges g)). lia.
  - split.
    + intros H0 u v c Hadj Hu Hv.
      destruct (wf_adj_edges g Hwf u v Hadj) as [He|He].
      * by apply (no_conflict_edges g H0 u v c).
      * by apply (no_conflict_edges g H0 v u c).
    + intros Hp. by apply proper_no_conflict.
Qed.

Lemma X3_witness :
  ∃ n, count_conflicts one_of_three_colored = Return n one_of_three_colored
       ∧ 0 ≤ n ≤ len (edges one_of_three_colored)
       ∧ (n = 0 ↔ ∀ u v c, v ∈ adj one_of_three_colored u →
                           color_of one_of_three_colored u = Some c →
                           color_of one_of_three_colored v ≠ Some c).
Proof.
  apply (X3_count_conflicts_validates one_of_three_colored).
  apply wf_paint, wf_build.
Defined.

(** ** The statistics record *)

Lemma chromatic_number_bounds g :
  0 ≤ get_chromatic_number g ≤ len (nodes g).
Proof.
  unfold get_chromatic_number, len. split; [lia|].
  pose proof (size_list_to_set_le
                (omap (λ kn : Z * Node, color kn.2) (nodes g))).
  pose proof (length_omap_le (λ kn : Z * Node, color kn.2) (nodes g)). lia.
Qed.

Lemma round_half_even_range (y : Q) (n : Z) :
  (0 <= y)%Q → (y <= inject_Z n)%Q → 0 ≤ round_half_even y ≤ n.
Proof.
  intros H0 Hn. unfold round_half_even.
  pose proof (Qfloor_le y) as Hfl. pose proof (Qlt_floor y) as Hlt.
  assert (Hf0 : 0 ≤ Qfloor y).
  { change 0 with (Qfloor 0). by apply Qfloor_resp_le. }
  assert (Hfn : Qfloor y ≤ n).
  { rewrite <- (Qfloor_Z n). by apply Qfloor_resp_le. }
  assert (Hhalf : (1 # 2 <= y - inject_Z (Qfloor y))%Q → Qfloor y + 1 ≤ n).
  { intros Hh. destruct (decide (Qfloor y = n)) as [Heq|]; [|lia].
    exfalso. rewrite Heq in Hh.
    assert (y - inject_Z n <= 0)%Q.
    { unfold Qminus. rewrite <- (Qplus_opp_r (inject_Z n)).
      by apply Qplus_le_l. }
    assert (1 # 2 <= 0)%Q by by eapply Qle_trans.
    done. }
  destruct (Qcompare_spec (y - inject_Z (Qfloor y)) (1 # 2)) as [Heq|Hl|Hg].
  - destruct (Z.even (Qfloor y)); [lia|]. split; [lia|].
    apply Hhalf. rewrite Heq. apply Qle_refl.
  - lia.
  - split; [lia|]. apply Hhalf. by apply Qlt_le_weak.
Qed.

Lemma round2_range (x : Q) :
  (0 <= x)%Q → (x <= 100)%Q → (0 <= round2 x)%Q ∧ (round2 x <= 100)%Q.
Proof.
  intros H0 H100.
  destruct (round_half_even_range (x * 100) 10000) as [Hlo Hhi].
  { apply Qmult_le_0_compat; [done|]. done. }
  { change (inject_Z 10000) with (100 * 100)%Q.
    apply Qmult_le_compat_r; done. }
  unfold round2. set (r := round_half_even (x * 100)) in *.
  unfold Qle, Qdiv, Qmult, Qinv, inject_Z. simpl. lia.
Qed.

(** *** The float nearest to a rational *)

(** [round_half_even] is within 1/2 of its argument. *)
Lemma round_half_even_nearest (y : Q) :
  (inject_Z (round_half_even y) - (1 # 2) <= y)%Q
  ∧ (y <= inject_Z (round_half_even y) + (1 # 2))%Q.
Proof.
  unfold round_half_even.
  pose proof (Qfloor_le y) as Hfl. pose proof (Qlt_floor y) as Hlt.
  set (f := Qfloor y) in *.
  assert (Hf1 : (inject_Z (f + 1) == inject_Z f + 1)%Q).
  { by rewrite inject_Z_plus. }
  rewrite Hf1 in Hlt.
  destruct (Qcompare_spec (y - inject_Z f) (1 # 2)) as [Heq|Hl|Hg].
  - destruct (Z.even f); rewrite ?Hf1; split; lra.
  - split; lra.
  - rewrite Hf1. split; lra.
Qed.

(** Outside the subnormal range the significand [scaled / 2^k] of
    [binary64_nonneg] has exactly 53 bits. *)
Lemma binary64_significand (x : Q) :
  let scaled := (x * inject_Z (2 ^ 1074))%Q in
  let k := Z.max 0 (Z.log2 (Qfloor scaled) - 52) in
  0 < k →
  (inject_Z (2 ^ 52) <= scaled / inject_Z (2 ^ k))%Q
  ∧ (scaled / inject_Z (2 ^ k) < inject_Z (2 ^ 53))%Q.
Proof.
  cbv zeta. generalize (x * inject_Z (2 ^ 1074))%Q. intros scaled.
  pose proof (Qfloor_le scaled) as Hfl. pose proof (Qlt_floor scaled) as Hlt.
  set (s := Qfloor scaled) in *. intros Hk.
  assert (HL : 52 < Z.log2 s) by lia.
  assert (Hs : 0 < s).
  { destruct (Z.log2_null s) as [_ H0]. destruct (decide (0 < s)); [done|].
    rewrite H0 in HL by lia. lia. }
  replace (Z.max 0 (Z.log2 s - 52)) with (Z.log2 s - 52) by lia.
  destruct (Z.log2_spec s Hs) as [Hlo Hhi].
  set (k := Z.log2 s - 52) in *.
  replace (Z.log2 s) with (52 + k) in Hlo by (unfold k; lia).
  replace (Z.succ (Z.log2 s)) with (53 + k) in Hhi by (unfold k; lia).
  rewrite Z.pow_add_r in Hlo, Hhi by lia.
  assert (HT : 0 < 2 ^ k) by (apply Z.pow_pos_nonneg; lia).
  assert (HTq : (0 < inject_Z (2 ^ k))%Q).
  { change 0%Q with (inject_Z 0). by rewrite <- Zlt_Qlt. }
  split.
  - apply Qle_shift_div_l; [done|]. rewrite <- inject_Z_mult.
    apply (Qle_trans _ (inject_Z s)); [|done]. by rewrite <- Zle_Qle.
  - apply Qlt_shift_div_r; [done|]. rewrite <- inject_Z_mult.
    apply (Qlt_le_trans _ (inject_Z (s + 1))); [done|].
    rewrite <- Zle_Qle. lia.
Qed.

(** *** Floats within a range *)

Lemma binary64_nonneg_range (x : Q) (N : Z) :
  (0 <= x)%Q → (x <= inject_Z N)%Q → N < 2 ^ 53 →
  (0 <= binary64_nonneg x)%Q ∧ (binary64_nonneg x <= inject_Z N)%Q.
Proof.
  intros H0 HN Hsmall. unfold binary64_nonneg.
  assert (HP : 0 < 2 ^ 1074) by (apply Z.pow_pos_nonneg; lia).
  assert (HN0 : 0 ≤ N).
  { rewrite Zle_Qle. by apply (Qle_trans _ x). }
  set (scaled := (x * inject_Z (2 ^ 1074))%Q).
  assert (Hsc0 : (0 <= scaled)%Q).
  { apply Qmult_le_0_compat; [done|]. change 0%Q with (inject_Z 0).
    rewrite <- Zle_Qle. lia. }
  assert (Hsc1 : (scaled <= inject_Z (N * 2 ^ 1074))%Q).
  { rewrite inject_Z_mult. apply Qmult_le_compat_r; [done|].
    change 0%Q with (inject_Z 0). rewrite <- Zle_Qle. lia. }
  set (s := Qfloor scaled).
  assert (Hs0 : 0 ≤ s).
  { change 0 with (Qfloor 0). by apply Qfloor_resp_le. }
  assert (Hs1 : s ≤ N * 2 ^ 1074).
  { rewrite <- (Qfloor_Z (N * 2 ^ 1074)). by apply Qfloor_resp_le. }
  set (k := Z.max 0 (Z.log2 s - 52)).
  assert (Hk : 0 ≤ k ≤ 1074).
  { split; [lia|]. apply Z.max_lub; [lia|].
    destruct (decide (s = 0)) as [->|Hs]; [done|].
    enough (Z.log2 s < 1127) by lia.
    apply Z.log2_lt_pow2; [lia|].
    replace 1127 with (53 + 1074) by done.
    rewrite Z.pow_add_r by lia. nia. }
  assert (Hsplit : 2 ^ 1074 = 2 ^ (1074 - k) * 2 ^ k).
  { rewrite <- Z.pow_add_r by lia. f_equal. lia. }
  assert (HT : 0 < 2 ^ k) by (apply Z.pow_pos_nonneg; lia).
  assert (HR : 0 < 2 ^ (1074 - k)) by (apply Z.pow_pos_nonneg; lia).
  revert scaled Hsc0 Hsc1 s Hs0 Hs1 k Hk Hsplit HT HR.
  generalize dependent (2 ^ 1074). intros P HP scaled Hsc0 Hsc1 s _ _ k.
  generalize (2 ^ k) (2 ^ (1074 - k)). intros T R _ -> HT HR.
  destruct (round_half_even_range (scaled / inject_Z T) (N * R)) as [Hm0 Hm1].
  { apply Qle_shift_div_l; [|by rewrite Qmult_0_l].
    change 0%Q with (inject_Z 0). by rewrite <- Zlt_Qlt. }
  { apply Qle_shift_div_r.
    - change 0%Q with (inject_Z 0). by rewrite <- Zlt_Qlt.
    - rewrite <- inject_Z_mult. by rewrite <- Z.mul_assoc. }
  set (m := round_half_even (scaled / inject_Z T)) in *.
  assert (HRT : (0 < inject_Z (R * T))%Q).
  { change 0%Q with (inject_Z 0). rewrite <- Zlt_Qlt. lia. }
  split.
  - apply Qle_shift_div_l; [done|]. rewrite Qmult_0_l.
    change 0%Q with (inject_Z 0). rewrite <- Zle_Qle. nia.
  - apply Qle_shift_div_r; [done|]. rewrite <- inject_Z_mult.
    rewrite <- Zle_Qle. nia.
Qed.

Lemma binary64_range (x : Q) (N : Z) :
  (0 <= x)%Q → (x <= inject_Z N)%Q → N < 2 ^ 53 →
  (0 <= binary64 x)%Q ∧ (binary64 x <= inject_Z N)%Q.
Proof.
  intros H0 HN Hsmall. unfold binary64.
  destruct (Qcompare_spec x 0) as [Heq|Hlt|Hgt].
  - split; [done|]. by apply (Qle_trans _ x).
  - by destruct (Qlt_not_le _ _ Hlt).
  - by apply binary64_nonneg_range.
Qed.

Lemma py_round2_range (x : Q) :
  (0 <= x)%Q → (x <= 100)%Q → (0 <= py_round2 x)%Q ∧ (py_round2 x <= 100)%Q.
Proof.
  intros H0 H100. destruct (round2_range x H0 H100).
  by apply (binary64_range (round2 x) 100).
Qed.

Lemma quotient_range (n c : Z) :
  0 < n → 0 ≤ c ≤ n →
  (0 <= inject_Z (n - c) / inject_Z n)%Q
  ∧ (inject_Z (n - c) / inject_Z n <= 1)%Q.
Proof.
  intros Hn Hc.
  assert (0 < inject_Z n)%Q.
  { change 0%Q with (inject_Z 0). by rewrite <- Zlt_Qlt. }
  split.
  - apply Qle_shift_div_l; [done|]. rewrite Qmult_0_l.
    change 0%Q with (inject_Z 0). rewrite <- Zle_Qle. lia.
  - apply Qle_shift_div_r; [done|]. rewrite Qmult_1_l, <- Zle_Qle. lia.
Qed.

(** The percentage, as floats compute it, lies between 0 and 100. *)
Lemma float_efficiency_range (n c : Z) :
  0 < n → 0 ≤ c ≤ n →
  (0 <= binary64 (binary64 (inject_Z (n - c) / inject_Z n) * 100))%Q
  ∧ (binary64 (binary64 (inject_Z (n - c) / inject_Z n) * 100) <= 100)%Q.
Proof.
  intros Hn Hc. destruct (quotient_range n c Hn Hc) as [Hq0 Hq1].
  destruct (binary64_range _ 1 Hq0 Hq1) as [Hb0 Hb1]; [done|].
  apply (binary64_range _ 100); [| |done].
  - apply Qmult_le_0_compat; done.
  - change (inject_Z 100) with (1 * 100)%Q. by apply Qmult_le_compat_r.
Qed.

(** X4.  On a graph satisfying the invariant, with any part of its nodes
    coloured, [_compute_stats] returns a record whose [chromatic_number] lies
    between 0 and the number of nodes, whose [conflicts] lies between 0 and
    the number of edges and whose [efficiency] lies between 0 and 100; on a
    graph without nodes the efficiency is 0 (no division is attempted). *)
Theorem X4_stats_record_ranges (name : string) (elapsed : Q) (g : Graph) :
  wf g →
  ∃ s, _compute_stats name elapsed g = Return s g
       ∧ 0 ≤ chromatic_number s ≤ stat_nodes s
       ∧ 0 ≤ conflicts s ≤ stat_edges s
       ∧ stat_nodes s = len (nodes g) ∧ stat_edges s = len (edges g)
       ∧ (0 <= efficiency s)%Q ∧ (efficiency s <= 100)%Q
       ∧ (nodes g = [] → (efficiency s == 0)%Q ∧ chromatic_number s = 0).
Proof.
  intros Hwf. exists (stats_of name elapsed g).
  split; [by apply _compute_stats_run|].
  pose proof (chromatic_number_bounds g) as Hchi.
  assert (Hrange : (0 <= efficiency (stats_of name elapsed g))%Q
                   ∧ (efficiency (stats_of name elapsed g) <= 100)%Q).
  { cbn [efficiency stats_of]. case_bool_decide as Hn.
    - destruct (float_efficiency_range (len (nodes g)) (get_chromatic_number g))
        as [? ?]; [lia|done|]. by apply py_round2_range.
    - by apply py_round2_range. }
  split; [exact Hchi|]. split.
  { simpl. unfold conflict_count, len.
    pose proof (length_filter (conflict_edge g) (edges g)). lia. }
  split; [reflexivity|]. split; [reflexivity|].
  split; [apply Hrange|]. split; [apply Hrange|].
  intros Hnil. split.
  - simpl. rewrite Hnil. reflexivity.
  - simpl. unfold get_chromatic_number. rewrite Hnil. reflexivity.
Qed.

Lemma X4_witness :
  ∃ s, _compute_stats "Greedy" 0 one_of_three_colored
       = Return s one_of_three_colored
       ∧ 0 ≤ chromatic_number s ≤ stat_nodes s
       ∧ 0 ≤ conflicts s ≤ stat_edges s
       ∧ stat_nodes s = len (nodes one_of_three_colored)
       ∧ stat_edges s = len (edges one_of_three_colored)
       ∧ (0 <= efficiency s)%Q ∧ (efficiency s <= 100)%Q
       ∧ (nodes one_of_three_colored = [] →
          (efficiency s == 0)%Q ∧ chromatic_number s = 0).
Proof.
  apply (X4_stats_record_ranges "Greedy" 0 one_of_three_colored).
  apply wf_paint, wf_build.
Defined.

(** ** What a run reads and what it writes *)

(** Two states that differ at most by empty entries of the adjacency index. *)
Definition same_state (g g' : Graph) : Prop :=
  nodes g = nodes g' ∧ edges g = edges g' ∧ ∀ u, adj g u = adj g' u.

(** Two states that differ at most by colours, saturations and empty entries
    of the adjacency index. *)
Definition same_structure (g g' : Graph) : Prop :=
  reset_nodes (nodes g) = reset_nodes (nodes g')
  ∧ edges g = edges g' ∧ ∀ u, adj g u = adj g' u.

Definition same_outcome {A} (o o' : outcome A) : Prop :=
  match o, o' with
  | Return a g, Return a' g' => a = a' ∧ same_state g g'
  | Raise e g, Raise e' g' => e = e' ∧ same_state g g'
  | _, _ => False
  end.

(** The computation does not see the empty entries of the adjacency index. *)
Definition respects {A} (m : M A) : Prop :=
  ∀ g g', same_state g g' → same_outcome (m g) (m g').

(** The computation writes colours, saturations and empty adjacency entries
    only, whether it returns or raises. *)
Definition frames {A} (m : M A) : Prop :=
  ∀ g, same_structure g (state_after (m g)).

Lemma same_state_refl g : same_state g g.
Proof. done. Qed.

Lemma same_structure_refl g : same_structure g g.
Proof. done. Qed.

Lemma same_structure_sym g g' : same_structure g g' → same_structure g' g.
Proof. intros (? & ? & Ha). split_and!; [done|done|]. intros u. by rewrite Ha. Qed.

Lemma same_structure_trans g1 g2 g3 :
  same_structure g1 g2 → same_structure g2 g3 → same_structure g1 g3.
Proof.
  intros (Hn & He & Ha) (Hn' & He' & Ha').
  split_and!; [congruence|congruence|]. intros u. by rewrite Ha, Ha'.
Qed.

Lemma same_state_structure g g' : same_state g g' → same_structure g g'.
Proof. intros (Hn & ? & ?). split_and!; [by rewrite Hn|done|done]. Qed.

Lemma same_structure_reset g g' :
  same_structure g g' →
  same_state (set_nodes (reset_nodes (nodes g)) g)
             (set_nodes (reset_nodes (nodes g')) g').
Proof. intros (Hn & He & Ha). by split_and!. Qed.

(** *** Combinators *)

Lemma respects_ret {A} (a : A) : respects (ret a).
Proof. intros g g' H. by split. Qed.

Lemma respects_raise {A} e : respects (raise (A:=A) e).
Proof. intros g g' H. by split. Qed.

Lemma respects_bind {A B} (m : M A) (f : A → M B) :
  respects m → (∀ a, respects (f a)) → respects (bind m f).
Proof.
  intros Hm Hf g g' Hs. specialize (Hm g g' Hs). unfold bind.
  destruct (m g) as [a g1|e g1], (m g') as [a' g1'|e' g1']; try done.
  destruct Hm as [<- Hs1]. by apply Hf.
Qed.

(** [get] hands the graph object to the rest of the method, which reads its
    [nodes] and [edges]. *)
Lemma respects_get {A} (k : Graph → M A) :
  (∀ g g', nodes g = nodes g' → edges g = edges g' → k g = k g') →
  (∀ g, respects (k g)) → respects (bind get k).
Proof.
  intros Hk Hr g g' Hs. unfold bind, get.
  rewrite (Hk g g') by apply Hs. by apply Hr.
Qed.

Lemma respects_node_at k : respects (node_at k).
Proof.
  intros g g' Hs. unfold node_at. destruct Hs as (Hn & ?). rewrite <- Hn.
  destruct (lookup_node k (nodes g)); by split_and!.
Qed.

Lemma respects_modify_nodes (f : list (Z * Node) → list (Z * Node)) :
  respects (modify (λ g, set_nodes (f (nodes g)) g)).
Proof.
  intros g g' (Hn & He & Ha). unfold modify. split; [done|].
  split_and!; [by rewrite !nodes_set_nodes, Hn|done|done].
Qed.

Lemma respects_mutate_node k f : respects (mutate_node k f).
Proof.
  unfold mutate_node. apply respects_bind; [apply respects_node_at|].
  intros _. apply (respects_modify_nodes (update_node k f)).
Qed.

Lemma respects_adjacency_at u : respects (adjacency_at u).
Proof.
  intros g g' (Hn & He & Ha). rewrite !adjacency_at_touch. split; [apply Ha|].
  split_and!; [by rewrite !nodes_touch|by rewrite !edges_touch|].
  intros w. by rewrite !adj_touch.
Qed.

Lemma respects_for_each {A} (l : list A) (body : A → M unit) :
  (∀ x, respects (body x)) → respects (for_each l body).
Proof.
  intros Hb. induction l as [|x l IH]; simpl; [apply respects_ret|].
  apply respects_bind; [apply Hb|]. by intros _.
Qed.

Lemma respects_for_fold {A B} (l : list A) (b : B) (body : B → A → M B) :
  (∀ acc x, respects (body acc x)) → respects (for_fold l b body).
Proof.
  intros Hb. revert b. induction l as [|x l IH]; intros b; simpl;
    [apply respects_ret|].
  apply respects_bind; [apply Hb|]. intros acc. apply IH.
Qed.

Lemma respects_if {A} (b : bool) (m1 m2 : M A) :
  respects m1 → respects m2 → respects (if b then m1 else m2).
Proof. by destruct b. Qed.

Lemma respects_py_max {K} (gt : K → K → bool) (key : Z → M K) l :
  (∀ x, respects (key x)) → respects (py_max gt key l).
Proof.
  intros Hk. destruct l as [|x l]; simpl; [apply respects_raise|].
  apply respects_bind; [apply Hk|]. intros kx.
  apply respects_bind; [|intros; apply respects_ret].
  apply respects_for_fold. intros best y.
  apply respects_bind; [apply Hk|]. intros ky.
  apply respects_if; apply respects_ret.
Qed.

Ltac respects_step :=
  first
    [ apply respects_ret | apply respects_raise | apply respects_node_at
    | apply respects_mutate_node | apply respects_adjacency_at
    | apply respects_for_each; intros ?
    | apply respects_for_fold; intros ? ?
    | apply respects_py_max; intros ?
    | apply respects_bind; [|intros ?]
    | apply respects_if
    | match goal with |- respects (match ?x with _ => _ end) => destruct x end ].

Lemma respects_get_neighbor_colors u : respects (get_neighbor_colors u).
Proof. unfold get_neighbor_colors. repeat respects_step. Qed.

Lemma respects_assign_first_fit u : respects (assign_first_fit u).
Proof.
  unfold assign_first_fit.
  apply respects_bind; [apply respects_get_neighbor_colors|].
  intros ?. apply respects_mutate_node.
Qed.

Lemma respects_count_conflicts : respects count_conflicts.
Proof.
  unfold count_conflicts. apply respects_get.
  - intros g g' _ He. cbv beta. by rewrite He.
  - intros g. repeat respects_step.
Qed.

Lemma respects_compute_stats name elapsed : respects (_compute_stats name elapsed).
Proof.
  unfold _compute_stats. apply respects_get.
  - intros g g' Hn He. cbv beta. unfold get_chromatic_number. by rewrite Hn.
  - intros g. apply respects_bind; [apply respects_count_conflicts|].
    intros c. apply respects_get.
    + intros g1 g1' Hn He. cbv beta. by rewrite Hn, He.
    + intros g1. apply respects_ret.
Qed.

Lemma respects_dsatur_first uncolored : respects (dsatur_first uncolored).
Proof.
  unfold dsatur_first. destruct uncolored as [|x l]; [apply respects_ret|].
  repeat respects_step.
Qed.

Lemma respects_dsatur_step uncolored : respects (dsatur_step uncolored).
Proof.
  unfold dsatur_step, dsatur_select.
  repeat first [apply respects_assign_first_fit
               |apply respects_get_neighbor_colors|respects_step].
Qed.

Lemma respects_dsatur_loop fuel uncolored : respects (dsatur_loop fuel uncolored).
Proof.
  revert uncolored. induction fuel as [|fuel IH]; intros [|x l]; simpl;
    try apply respects_ret.
  apply respects_bind; [apply respects_dsatur_step|]. intros ?. apply IH.
Qed.

Lemma respects_try_colors next u s colors :
  respects next → respects (try_colors next u s colors).
Proof.
  intros Hnext. induction colors as [|c colors IH]; simpl; [apply respects_ret|].
  apply respects_if; [done|].
  apply respects_bind; [apply respects_mutate_node|]. intros _.
  apply respects_bind; [done|]. intros [|]; [apply respects_ret|].
  apply respects_bind; [apply respects_mutate_node|]. by intros _.
Qed.

Lemma respects_backtrack max_colors ids : respects (backtrack max_colors ids).
Proof.
  induction ids as [|u ids IH]; simpl; [apply respects_ret|].
  apply respects_bind; [apply respects_get_neighbor_colors|]. intros s.
  by apply respects_try_colors.
Qed.

(** Every algorithm starts with [reset_colors]: what it does next cannot
    depend on the colours and saturations it found. *)
Lemma after_reset {A} (rest : M A) g g' :
  respects rest → same_structure g g' →
  same_outcome ((reset_colors ;; rest) g) ((reset_colors ;; rest) g').
Proof.
  intros Hrest Hs. unfold bind. rewrite !reset_colors_run.
  by apply Hrest, same_structure_reset.
Qed.

Lemma greedy_coloring_structure elapsed g g' :
  same_structure g g' →
  same_outcome (greedy_coloring elapsed g) (greedy_coloring elapsed g').
Proof.
  apply after_reset. apply respects_get.
  - intros g1 g1' Hn _. cbv beta. unfold keys. by rewrite Hn.
  - intros g1. apply respects_bind.
    + apply respects_for_each, respects_assign_first_fit.
    + intros _. apply respects_compute_stats.
Qed.

Lemma welsh_powell_structure elapsed g g' :
  same_structure g g' →
  same_outcome (welsh_powell elapsed g) (welsh_powell elapsed g').
Proof.
  apply after_reset. apply respects_get.
  - intros g1 g1' Hn _. cbv beta zeta. by rewrite Hn.
  - intros g1. cbv zeta. apply respects_bind.
    + apply respects_for_each. intros ref.
      apply respects_bind; [apply respects_node_at|]. intros node.
      apply respects_bind; [apply respects_get_neighbor_colors|]. intros s.
      apply respects_mutate_node.
    + intros _. apply respects_compute_stats.
Qed.

Lemma dsatur_structure set_order elapsed g g' :
  same_structure g g' →
  same_outcome (dsatur set_order elapsed g) (dsatur set_order elapsed g').
Proof.
  apply after_reset. apply respects_get.
  - intros g1 g1' Hn _. cbv beta. unfold keys. by rewrite Hn.
  - intros g1. apply respects_bind; [apply respects_dsatur_first|].
    intros unc. apply respects_bind; [apply respects_dsatur_loop|].
    intros _. apply respects_compute_stats.
Qed.

Lemma backtracking_exact_structure max_colors elapsed g g' :
  same_structure g g' →
  same_outcome (backtracking_exact max_colors elapsed g)
               (backtracking_exact max_colors elapsed g').
Proof.
  apply after_reset. apply respects_get.
  - intros g1 g1' Hn _. cbv beta zeta. unfold keys. by rewrite Hn.
  - intros g1. cbv zeta. apply respects_bind; [apply respects_backtrack|].
    intros [|]; [|apply respects_ret].
    apply respects_bind; [apply respects_compute_stats|].
    intros s. apply respects_ret.
Qed.

(** *** What is written *)

Definition keeps_static (f : Node → Node) : Prop :=
  ∀ n, with_saturation 0 (with_color None (f n))
       = with_saturation 0 (with_color None n).

Lemma reset_nodes_update_node k f l :
  keeps_static f → reset_nodes (update_node k f l) = reset_nodes l.
Proof.
  intros Hf. unfold reset_nodes.
  induction l as [|[k' n] l IH]; csimpl; [done|].
  case_decide; csimpl; [by rewrite Hf|by rewrite IH].
Qed.

Lemma frames_ret {A} (a : A) : frames (ret a).
Proof. intros g. apply same_structure_refl. Qed.

Lemma frames_raise {A} e : frames (raise (A:=A) e).
Proof. intros g. apply same_structure_refl. Qed.

Lemma frames_bind {A B} (m : M A) (f : A → M B) :
  frames m → (∀ a, frames (f a)) → frames (bind m f).
Proof.
  intros Hm Hf g. specialize (Hm g). unfold bind.
  destruct (m g) as [a g1|e g1]; simpl in *; [|done].
  eapply same_structure_trans; [done|apply Hf].
Qed.

Lemma frames_get {A} (k : Graph → M A) :
  (∀ g, frames (k g)) → frames (bind get k).
Proof. intros Hk g. apply Hk. Qed.

Lemma frames_node_at k : frames (node_at k).
Proof.
  intros g. unfold node_at. destruct (lookup_node k (nodes g)); apply same_structure_refl.
Qed.

Lemma frames_mutate_node k f : keeps_static f → frames (mutate_node k f).
Proof.
  intros Hf g. unfold mutate_node, bind, node_at, modify.
  destruct (lookup_node k (nodes g)); simpl; [|done].
  split_and!; [|done|done].
  by rewrite nodes_set_nodes, reset_nodes_update_node.
Qed.

Lemma frames_adjacency_at u : frames (adjacency_at u).
Proof.
  intros g. rewrite adjacency_at_touch. simpl.
  split_and!; [by rewrite nodes_touch|by rewrite edges_touch|].
  intros w. by rewrite adj_touch.
Qed.

Lemma frames_reset_colors : frames reset_colors.
Proof.
  intros g. rewrite reset_colors_run. simpl. split_and!; [|done|done].
  by rewrite nodes_set_nodes, reset_nodes_idemp.
Qed.

Lemma frames_for_each {A} (l : list A) (body : A → M unit) :
  (∀ x, frames (body x)) → frames (for_each l body).
Proof.
  intros Hb. induction l as [|x l IH]; simpl; [apply frames_ret|].
  apply frames_bind; [apply Hb|]. by intros _.
Qed.

Lemma frames_for_fold {A B} (l : list A) (b : B) (body : B → A → M B) :
  (∀ acc x, frames (body acc x)) → frames (for_fold l b body).
Proof.
  intros Hb. revert b. induction l as [|x l IH]; intros b; simpl;
    [apply frames_ret|].
  apply frames_bind; [apply Hb|]. intros acc. apply IH.
Qed.

Lemma frames_if {A} (b : bool) (m1 m2 : M A) :
  frames m1 → frames m2 → frames (if b then m1 else m2).
Proof. by destruct b. Qed.

Lemma frames_py_max {K} (gt : K → K → bool) (key : Z → M K) l :
  (∀ x, frames (key x)) → frames (py_max gt key l).
Proof.
  intros Hk. destruct l as [|x l]; simpl; [apply frames_raise|].
  apply frames_bind; [apply Hk|]. intros kx.
  apply frames_bind; [|intros; apply frames_ret].
  apply frames_for_fold. intros best y.
  apply frames_bind; [apply Hk|]. intros ky.
  apply frames_if; apply frames_ret.
Qed.

Ltac frames_step :=
  first
    [ apply frames_ret | apply frames_raise | apply frames_node_at
    | apply frames_mutate_node; by intros ?
    | apply frames_adjacency_at | apply frames_reset_colors
    | apply frames_for_each; intros ?
    | apply frames_for_fold; intros ? ?
    | apply frames_py_max; intros ?
    | match goal with |- frames (bind get _) => apply frames_get; intros ? end
    | apply frames_bind; [|intros ?]
    | apply frames_if
    | match goal with |- frames (match ?x with _ => _ end) => destruct x end ].

Lemma frames_get_neighbor_colors u : frames (get_neighbor_colors u).
Proof. unfold get_neighbor_colors. repeat frames_step. Qed.

Lemma frames_assign_first_fit u : frames (assign_first_fit u).
Proof.
  unfold assign_first_fit.
  apply frames_bind; [apply frames_get_neighbor_colors|].
  intros ?. by apply frames_mutate_node.
Qed.

Lemma frames_count_conflicts : frames count_conflicts.
Proof. unfold count_conflicts. repeat frames_step. Qed.

Lemma frames_compute_stats name elapsed : frames (_compute_stats name elapsed).
Proof.
  unfold _compute_stats. apply frames_get. intros g.
  apply frames_bind; [apply frames_count_conflicts|]. intros c.
  apply frames_get. intros g1. apply frames_ret.
Qed.

Lemma frames_greedy_coloring elapsed : frames (greedy_coloring elapsed).
Proof.
  unfold greedy_coloring.
  repeat first [apply frames_assign_first_fit|apply frames_compute_stats
               |frames_step].
Qed.

Lemma frames_welsh_powell elapsed : frames (welsh_powell elapsed).
Proof.
  unfold welsh_powell. cbv zeta.
  repeat first [apply frames_get_neighbor_colors|apply frames_compute_stats
               |frames_step].
Qed.

Lemma frames_dsatur_loop fuel uncolored : frames (dsatur_loop fuel uncolored).
Proof.
  revert uncolored. induction fuel as [|fuel IH]; intros [|x l]; simpl;
    try apply frames_ret.
  apply frames_bind; [|intros ?; apply IH].
  unfold dsatur_step, dsatur_select.
  repeat first [apply frames_assign_first_fit|apply frames_get_neighbor_colors
               |frames_step].
Qed.

Lemma frames_dsatur set_order elapsed : frames (dsatur set_order elapsed).
Proof.
  unfold dsatur.
  apply frames_bind; [apply frames_reset_colors|]. intros _.
  apply frames_get. intros g.
  apply frames_bind.
  { unfold dsatur_first. destruct (set_order (keys g)); [apply frames_ret|].
    repeat frames_step. }
  intros unc. apply frames_bind; [apply frames_dsatur_loop|].
  intros _. apply frames_compute_stats.
Qed.

Lemma frames_try_colors next u s colors :
  frames next → frames (try_colors next u s colors).
Proof.
  intros Hnext. induction colors as [|c colors IH]; simpl; [apply frames_ret|].
  apply frames_if; [done|].
  apply frames_bind; [by apply frames_mutate_node|]. intros _.
  apply frames_bind; [done|]. intros [|]; [apply frames_ret|].
  apply frames_bind; [by apply frames_mutate_node|]. by intros _.
Qed.

Lemma frames_backtrack max_colors ids : frames (backtrack max_colors ids).
Proof.
  induction ids as [|u ids IH]; simpl; [apply frames_ret|].
  apply frames_bind; [apply frames_get_neighbor_colors|]. intros s.
  by apply frames_try_colors.
Qed.

Lemma frames_backtracking_exact max_colors elapsed :
  frames (backtracking_exact max_colors elapsed).
Proof.
  unfold backtracking_exact. cbv zeta.
  apply frames_bind; [apply frames_reset_colors|]. intros _.
  apply frames_get. intros g.
  apply frames_bind; [apply frames_backtrack|].
  intros [|]; [|apply frames_ret].
  apply frames_bind; [apply frames_compute_stats|]. intros s. apply frames_ret.
Qed.

(** *** The four algorithms *)

(** The fields of a node object that no algorithm writes. *)
Definition static (n : Node) : Z * position_t * Z * gset Z :=
  (id n, position n, degree n, neighbors n).

Definition writes_colours_only {A} (m : M A) : Prop :=
  ∀ g, let g' := state_after (m g) in
       keys g' = keys g ∧ edges g' = edges g ∧ (∀ u, adj g' u = adj g u)
       ∧ ∀ k, static <$> lookup_node k (nodes g')
              = static <$> lookup_node k (nodes g).

Lemma frames_writes_colours_only {A} (m : M A) :
  frames m → writes_colours_only m.
Proof.
  intros Hm g. destruct (Hm g) as (Hn & He & Ha). cbv zeta.
  split_and!; [|done|done|].
  - unfold keys. by rewrite <- (reset_nodes_keys (nodes _)), <- Hn, reset_nodes_keys.
  - intros k.
    assert (Hs : ∀ l, static <$> lookup_node k l
                      = static <$> lookup_node k (reset_nodes l)).
    { intros l. rewrite lookup_reset_nodes. by destruct (lookup_node k l). }
    by rewrite (Hs (nodes g)), (Hs (nodes _)), Hn.
Qed.

(** X5.  Whatever the graph, and whether the call returns or raises, each of
    the four algorithms leaves the node ids and their order, the list of
    edges, every adjacency set and the id, position, degree and neighbour set
    of every node as they were: only colours and saturations (and empty
    entries of the adjacency index) are written. *)
Theorem X5_algorithms_write_colours_only
    (set_order : list Z → list Z) (max_colors : option Z) (elapsed : Q) :
  writes_colours_only (greedy_coloring elapsed)
  ∧ writes_colours_only (welsh_powell elapsed)
  ∧ writes_colours_only (dsatur set_order elapsed)
  ∧ writes_colours_only (backtracking_exact max_colors elapsed).
Proof.
  split_and!; apply frames_writes_colours_only.
  - apply frames_greedy_coloring.
  - apply frames_welsh_powell.
  - apply frames_dsatur.
  - apply frames_backtracking_exact.
Qed.

(** X6.  The outcome of an algorithm does not depend on the colours and
    saturations the graph held before the call: on two states with the same
    nodes, edges and adjacency sets, each algorithm returns the same value
    (or raises the same exception) and leaves the same nodes and edges. *)
Theorem X6_outcome_independent_of_old_colours
    (set_order : list Z → list Z) (max_colors : option Z) (elapsed : Q)
    (g g' : Graph) :
  same_structure g g' →
  same_outcome (greedy_coloring elapsed g) (greedy_coloring elapsed g')
  ∧ same_outcome (welsh_powell elapsed g) (welsh_powell elapsed g')
  ∧ same_outcome (dsatur set_order elapsed g) (dsatur set_order elapsed g')
  ∧ same_outcome (backtracking_exact max_colors elapsed g)
                 (backtracking_exact max_colors elapsed g').
Proof.
  intros Hs. split_and!.
  - by apply greedy_coloring_structure.
  - by apply welsh_powell_structure.
  - by apply dsatur_structure.
  - by apply backtracking_exact_structure.
Qed.

Lemma X6_witness :
  same_structure preassigned single_node
  ∧ same_outcome (greedy_coloring 0 preassigned) (greedy_coloring 0 single_node)
  ∧ same_outcome (welsh_powell 0 preassigned) (welsh_powell 0 single_node)
  ∧ same_outcome (dsatur ascending_order 0 preassigned)
                 (dsatur ascending_order 0 single_node)
  ∧ same_outcome (backtracking_exact None 0 preassigned)
                 (backtracking_exact None 0 single_node).
Proof.
  assert (H : same_structure preassigned single_node).
  { split_and!; [reflexivity|reflexivity|intros u; reflexivity]. }
  split; [exact H|].
  apply (X6_outcome_independent_of_old_colours ascending_order None 0 _ _ H).
Defined.

(** *** compare_algorithms *)

Lemma same_outcome_Return {A} (m : M A) g g' a g1 :
  same_outcome (m g') (m g) → m g = Return a g1 →
  ∃ g1', m g' = Return a g1' ∧ same_state g1' g1.
Proof.
  intros Hs Hrun. rewrite Hrun in Hs. destruct (m g') as [a' g1'|]; [|done].
  destruct Hs as [-> Hs]. by exists g1'.
Qed.

(** A row of the comparison: the statistics of a proper colouring of the
    graph [g0]. *)
Definition clean_row (g0 : Graph) (name : string) (r : Result) : Prop :=
  ∃ s, r = StatsRecord s ∧ algorithm s = name ∧ conflicts s = 0
       ∧ stat_nodes s = len (nodes g0) ∧ stat_edges s = len (edges g0).

Lemma clean_row_stats_of g0 g name elapsed :
  complete_colouring g0 g →
  clean_row g0 name (StatsRecord (stats_of name elapsed g)).
Proof.
  intros (Hwf & Hp & (Hk & He & _) & _). eexists. split; [done|].
  split_and!; simpl.
  - done.
  - by apply proper_no_conflict.
  - unfold len. f_equal. rewrite <- !(length_fmap fst). by fold (keys g); rewrite Hk.
  - by rewrite He.
Qed.

Lemma bind_get {A} (k : Graph → M A) g : bind get k g = k g g.
Proof. done. Qed.

Lemma same_state_sym g g' : same_state g g' → same_state g' g.
Proof. intros (? & ? & Ha). split_and!; [done|done|]. intros u. by rewrite Ha. Qed.

(** The next algorithm of the comparison, started from the state [g1] that
    the previous ones left, does what it does on the graph [g] itself. *)
Lemma next_run {A} (m : M A) g g1 a g2 :
  (∀ g g', same_structure g g' → same_outcome (m g) (m g')) →
  frames m → same_structure g g1 → m g = Return a g2 →
  ∃ g2', m g1 = Return a g2' ∧ same_state g2' g2 ∧ same_structure g g2'.
Proof.
  intros Hm Hf Hs Hrun.
  destruct (same_outcome_Return m g g1 a g2) as (g2' & Hrun' & Hs');
    [by apply Hm, same_structure_sym|done|].
  exists g2'. split_and!; [done|done|].
  pose proof (Hf g1) as Hf1. rewrite Hrun' in Hf1.
  by eapply same_structure_trans.
Qed.

Lemma row_run (m : M Stats) g s g1 :
  m g = Return s g1 →
  bind m (λ stats, ret (StatsRecord stats)) g = Return (StatsRecord s) g1.
Proof. intros H. by rewrite (bind_Return _ _ _ _ _ H). Qed.

Lemma bind_ret_run {A B C} (m : M A) (h : A → B) (k : B → M C) g a g1 :
  m g = Return a g1 → bind (bind m (λ x, ret (h x))) k g = k (h a) g1.
Proof. intros H. unfold bind. by rewrite H. Qed.

(** X7.  On a well-formed graph the loop of [compare_algorithms] raises
    nothing and collects one row per algorithm, in the order Greedy,
    Welsh-Powell, DSATUR and, when the graph has at most 30 nodes,
    Backtracking.  Each row is the
    record that the algorithm returns when it is run alone on the graph: the
    colouring left by the previous algorithm has no effect on the next one.
    Every row reports no conflict, and the graph ends in the state the last
    algorithm leaves. *)
Theorem X7_compare_algorithms_rows
    (set_order : list Z → list Z) (e1 e2 e3 e4 : Q) (g : Graph) :
  valid_set_order set_order → wf g →
  ∃ rows g' s1 g1 s2 g2 s3 g3,
    compare_algorithms set_order e1 e2 e3 e4 g = Return rows g'
    ∧ greedy_coloring e1 g = Return s1 g1
    ∧ welsh_powell e2 g = Return s2 g2
    ∧ dsatur set_order e3 g = Return s3 g3
    ∧ (if bool_decide (len (nodes g) ≤ 30)
       then ∃ s4 g4,
              backtracking_exact None e4 g = Return (StatsRecord s4) g4
              ∧ rows = [StatsRecord s1; StatsRecord s2; StatsRecord s3;
                        StatsRecord s4]
              ∧ same_state g' g4
       else rows = [StatsRecord s1; StatsRecord s2; StatsRecord s3]
            ∧ same_state g' g3)
    ∧ Forall (λ r, ∃ s, r = StatsRecord s ∧ conflicts s = 0
                        ∧ stat_nodes s = len (nodes g)
                        ∧ stat_edges s = len (edges g)) rows.
Proof.
  intros Hord Hwf.
  destruct (greedy_coloring_spec e1 g Hwf) as (g1 & H1 & Hc1 & _).
  destruct (welsh_powell_spec e2 g Hwf) as (g2 & H2 & Hc2 & _).
  destruct (dsatur_spec set_order e3 g Hord Hwf) as (g3 & H3 & Hc3 & _).
  destruct (backtracking_exact_default e4 g Hwf) as (g4 & H4 & Hc4).
  assert (Hs1 : same_structure g g1).
  { pose proof (frames_greedy_coloring e1 g) as Hf. by rewrite H1 in Hf. }
  destruct (next_run (welsh_powell e2) g g1 _ g2
              (welsh_powell_structure e2) (frames_welsh_powell e2) Hs1 H2)
    as (g2' & H2' & Hs2 & Hs2').
  destruct (next_run (dsatur set_order e3) g g2' _ g3
              (dsatur_structure set_order e3) (frames_dsatur set_order e3)
              Hs2' H3)
    as (g3' & H3' & Hs3 & Hs3').
  destruct (next_run (backtracking_exact None e4) g g3' _ g4
              (backtracking_exact_structure None e4)
              (frames_backtracking_exact None e4) Hs3' H4)
    as (g4' & H4' & Hs4 & Hs4').
  assert (Hrow : ∀ name elapsed g0,
            complete_colouring g g0 →
            ∃ s, StatsRecord (stats_of name elapsed g0) = StatsRecord s
                 ∧ conflicts s = 0 ∧ stat_nodes s = len (nodes g)
                 ∧ stat_edges s = len (edges g)).
  { intros name elapsed g0 Hc.
    destruct (clean_row_stats_of g g0 name elapsed Hc) as (s & ? & _ & ?).
    by exists s. }
  assert (Hrun : compare_algorithms set_order e1 e2 e3 e4 g
            = if bool_decide (len (nodes g) ≤ 30)
              then Return [StatsRecord (stats_of "Greedy" e1 g1);
                           StatsRecord (stats_of "Welsh-Powell" e2 g2);
                           StatsRecord (stats_of "DSATUR" e3 g3);
                           StatsRecord (stats_of "Backtracking-Exact" e4 g4)]
                          g4'
              else Return [StatsRecord (stats_of "Greedy" e1 g1);
                           StatsRecord (stats_of "Welsh-Powell" e2 g2);
                           StatsRecord (stats_of "DSATUR" e3 g3)] g3').
  { unfold compare_algorithms. cbv zeta. rewrite bind_get.
    destruct (bool_decide (len (nodes g) ≤ 30)); cbn [app for_fold snd].
    - rewrite (bind_ret_run _ _ _ _ _ _ (row_run _ _ _ _ H1)).
      rewrite (bind_ret_run _ _ _ _ _ _ (row_run _ _ _ _ H2')).
      rewrite (bind_ret_run _ _ _ _ _ _ (row_run _ _ _ _ H3')).
      by rewrite (bind_ret_run _ _ _ _ _ _ H4').
    - rewrite (bind_ret_run _ _ _ _ _ _ (row_run _ _ _ _ H1)).
      rewrite (bind_ret_run _ _ _ _ _ _ (row_run _ _ _ _ H2')).
      by rewrite (bind_ret_run _ _ _ _ _ _ (row_run _ _ _ _ H3')). }
  rewrite Hrun. destruct (bool_decide (len (nodes g) ≤ 30)).
  - eexists _, g4', _, g1, _, g2, _, g3. split_and!; try done.
    + by eexists _, g4.
    + repeat constructor; by apply Hrow.
  - eexists _, g3', _, g1, _, g2, _, g3. split_and!; try done.
    repeat constructor; by apply Hrow.
Qed.

Lemma X7_witness :
  ∃ rows g' s1 g1 s2 g2 s3 g3,
    compare_algorithms ascending_order 0 0 0 0 triangle = Return rows g'
    ∧ greedy_coloring 0 triangle = Return s1 g1
    ∧ welsh_powell 0 triangle = Return s2 g2
    ∧ dsatur ascending_order 0 triangle = Return s3 g3
    ∧ (if bool_decide (len (nodes triangle) ≤ 30)
       then ∃ s4 g4,
              backtracking_exact None 0 triangle = Return (StatsRecord s4) g4
              ∧ rows = [StatsRecord s1; StatsRecord s2; StatsRecord s3;
                        StatsRecord s4]
              ∧ same_state g' g4
       else rows = [StatsRecord s1; StatsRecord s2; StatsRecord s3]
            ∧ same_state g' g3)
    ∧ Forall (λ r, ∃ s, r = StatsRecord s ∧ conflicts s = 0
                        ∧ stat_nodes s = len (nodes triangle)
                        ∧ stat_edges s = len (edges triangle)) rows.
Proof.
  apply (X7_compare_algorithms_rows ascending_order 0 0 0 0 triangle).
  - apply ascending_order_valid.
  - apply wf_build.
Defined.

(** ** Degrees and edges *)

(** The sum of the [degree] fields. *)
Definition degree_sum (l : list (Z * Node)) : Z :=
  foldr (λ kn s, degree kn.2 + s) 0 l.

Lemma degree_sum_app l1 l2 : degree_sum (l1 ++ l2) = degree_sum l1 + degree_sum l2.
Proof. induction l1 as [|[k n] l1 IH]; simpl; [done|]. rewrite IH. lia. Qed.

Lemma degree_sum_update_node k f l :
  degree_sum (update_node k f l)
  = degree_sum l
    + from_option (λ n, degree (f n) - degree n) 0 (lookup_node k l).
Proof.
  induction l as [|[k' n] l IH]; simpl; [done|].
  case_decide; simpl; [lia|]. rewrite IH. lia.
Qed.

Lemma degree_sum_link_nodes u v l :
  u ≠ v → is_Some (lookup_node u l) → is_Some (lookup_node v l) →
  degree_sum (link_nodes u v l) = degree_sum l + 2.
Proof.
  intros Hne [nu Hu] [nv Hv]. unfold link_nodes.
  rewrite !degree_sum_update_node, !lookup_update_node.
  rewrite !(decide_True (P := v = v)), !(decide_True (P := u = u)) by done.
  rewrite !(decide_False (P := v = u)), !(decide_False (P := u = v)) by done.
  rewrite ?lookup_update_node.
  rewrite ?(decide_True (P := v = v)), ?(decide_True (P := u = u)) by done.
  rewrite ?(decide_False (P := v = u)), ?(decide_False (P := u = v)) by done.
  rewrite Hu, Hv. simpl. lia.
Qed.

Lemma handshake_run_op o g :
  degree_sum (nodes g) = 2 * len (edges g) →
  degree_sum (nodes (state_after (run_op o g)))
  = 2 * len (edges (state_after (run_op o g))).
Proof.
  intros Hg. destruct o as [k pos|u v]; simpl.
  - destruct (decide (has_node g k)) as [Hk|Hk].
    + by rewrite add_node_known.
    + rewrite add_node_fresh by done. cbn [state_after].
      rewrite nodes_set_nodes, edges_set_nodes, degree_sum_app. simpl. lia.
  - destruct (decide (has_node g u ∧ has_node g v)) as [[Hu Hv]|Hno];
      [|by rewrite add_edge_raises].
    destruct (decide (u = v)) as [->|Hne]; [by rewrite add_edge_self|].
    destruct (decide (v ∈ adj g u)) as [Hin|Hin];
      [by rewrite add_edge_known|].
    destruct (add_edge_fresh g u v Hu Hv Hne Hin) as (g' & -> & Hn & He & _).
    cbn [state_after]. rewrite Hn, He.
    rewrite degree_sum_link_nodes; [|done|by apply lookup_node_is_Some..].
    unfold len in *. rewrite length_app. simpl. lia.
Qed.

(** X8.  Handshake: in every graph built by calls of [add_node] and
    [add_edge] (calls that raise included), the [degree] fields add up to
    twice the number of edges, and so do the sizes of the adjacency sets. *)
Theorem X8_degrees_sum_to_twice_the_edges (ops : list op) :
  degree_sum (nodes (build ops)) = 2 * len (edges (build ops))
  ∧ foldr (λ k s, Z.of_nat (size (adj (build ops) k)) + s) 0 (keys (build ops))
    = 2 * len (edges (build ops)).
Proof.
  assert (Hsum : ∀ g, degree_sum (nodes g) = 2 * len (edges g) →
                      degree_sum (nodes (run_ops ops g))
                      = 2 * len (edges (run_ops ops g))).
  { induction ops as [|o ops IH]; intros g Hg; simpl; [done|].
    by apply IH, handshake_run_op. }
  specialize (Hsum empty_graph eq_refl). fold (build ops) in Hsum.
  split; [done|]. rewrite <- Hsum.
  pose proof (wf_build ops) as Hwf.
  assert (Hdeg : ∀ l, (∀ k n, (k, n) ∈ l → lookup_node k (nodes (build ops)) = Some n) →
            foldr (λ k s, Z.of_nat (size (adj (build ops) k)) + s) 0 l.*1
            = degree_sum l).
  { induction l as [|[k n] l IH]; intros Hl; csimpl; [done|].
    rewrite IH by (intros; apply Hl; by apply list_elem_of_further).
    destruct (wf_node _ Hwf k n) as (_ & _ & ->); [|done].
    apply Hl, list_elem_of_here. }
  apply Hdeg. intros k n Hin. apply elem_lookup_node; [apply Hwf|done].
Qed.

(** ** First fit along an order *)

(** The colours, in state [g], of the neighbours of [u] that occur in the
    list [pre]. *)
Definition earlier_colors (g : Graph) (u : Z) (pre : list Z) : gset Z :=
  list_to_set (omap (color_of g) (filter (λ v, v ∈ adj g u) pre)).

(** Every node of [l] holds the smallest colour that no neighbour ahead of it
    in [l] holds. *)
Definition first_fit_in_order (l : list Z) (g : Graph) : Prop :=
  ∀ pre u post, l = pre ++ u :: post →
    color_of g u
    = Some (get_smallest_available_color (earlier_colors g u pre)).

Lemma elem_of_earlier_colors g u pre c :
  c ∈ earlier_colors g u pre
  ↔ ∃ v, v ∈ pre ∧ v ∈ adj g u ∧ color_of g v = Some c.
Proof.
  unfold earlier_colors. rewrite elem_of_list_to_set, list_elem_of_omap.
  setoid_rewrite list_elem_of_filter. naive_solver.
Qed.

Lemma earlier_colors_ext g g' u pre :
  adj g' u = adj g u → (∀ v, v ∈ pre → color_of g' v = color_of g v) →
  earlier_colors g' u pre = earlier_colors g u pre.
Proof.
  intros Ha Hc. apply set_eq. intros c. rewrite !elem_of_earlier_colors, Ha.
  split; intros (v & Hv & Hadj & Hcol); exists v; split_and!; try done.
  - by rewrite <- Hc.
  - by rewrite Hc.
Qed.

Lemma snoc_split {A} (l pre post : list A) (x u : A) :
  l ++ [x] = pre ++ u :: post →
  (post = [] ∧ u = x ∧ pre = l) ∨ (∃ post', post = post' ++ [x] ∧ l = pre ++ u :: post').
Proof.
  destruct post as [|y post _] using rev_ind; intros Heq.
  - left. apply app_inj_tail in Heq as [-> ->]. done.
  - right. exists post.
    rewrite app_comm_cons, app_assoc in Heq.
    by apply app_inj_tail in Heq as [-> ->].
Qed.

(** The invariant of a first-fit loop that started with every node
    uncoloured. *)
Definition first_fit_inv (g0 : Graph) (done : list Z) (g : Graph) : Prop :=
  wf g ∧ same_graph g0 g ∧ first_fit_in_order done g
  ∧ ∀ k, k ∉ done → color_of g k = None.

Lemma first_fit_inv_step g0 done x g :
  has_node g0 x → x ∉ done → first_fit_inv g0 done g →
  first_fit_inv g0 (done ++ [x]) (first_fit_state x g).
Proof.
  intros Hx Hnew (Hwf & Hsame & Hff & Hnone).
  assert (Hx' : has_node g x) by by apply (same_graph_has_node g0 g).
  assert (Hadj : ∀ w, adj (first_fit_state x g) w = adj g w).
  { intros w. apply (same_graph_first_fit g x). }
  split_and!.
  - by apply wf_paint, wf_touch.
  - eapply same_graph_trans; [done|apply same_graph_first_fit].
  - intros pre u post [(-> & -> & ->)|(post' & -> & ->)]%snoc_split.
    + rewrite color_of_first_fit, decide_True by done. do 2 f_equal.
      apply set_eq. intros c.
      rewrite elem_of_neighbor_colors_of, elem_of_earlier_colors.
      setoid_rewrite Hadj.
      split.
      * intros (v & Hv & Hc). exists v.
        assert (Hin : v ∈ done).
        { destruct (decide (v ∈ done)) as [|Hout]; [done|].
          rewrite (Hnone v Hout) in Hc. done. }
        split_and!; [done|done|].
        rewrite color_of_first_fit, decide_False by set_solver. done.
      * intros (v & Hv & Ha & Hc). exists v. split; [done|].
        rewrite color_of_first_fit, decide_False in Hc by set_solver. done.
    + assert (Hu : u ≠ x) by set_solver.
      rewrite color_of_first_fit, decide_False by done.
      rewrite (Hff pre u post' eq_refl). do 2 f_equal. symmetry.
      apply earlier_colors_ext; [apply Hadj|].
      intros v Hv. rewrite color_of_first_fit, decide_False by set_solver. done.
  - intros k Hk. rewrite color_of_first_fit, decide_False by set_solver.
    apply Hnone. set_solver.
Qed.

Lemma first_fit_order g0 (l : list Z) :
  NoDup l → (∀ k, k ∈ l → has_node g0 k) →
  hoare (first_fit_inv g0 []) (for_each l assign_first_fit)
        (λ _, first_fit_inv g0 l).
Proof.
  intros Hnd Hl. apply hoare_for_each. intros done x rest -> g Hg.
  assert (Hx : has_node g0 x) by (apply Hl; set_solver).
  assert (Hnew : x ∉ done).
  { apply NoDup_app in Hnd as (_ & Hd & _). intros Hin.
    apply (Hd x Hin), list_elem_of_here. }
  exists tt, (first_fit_state x g). split.
  - destruct Hg as (? & Hsame & _).
    apply assign_first_fit_run; [done|by apply (same_graph_has_node g0 g)].
  - by apply first_fit_inv_step.
Qed.

Lemma first_fit_inv_reset g0 :
  wf g0 → first_fit_inv g0 [] (set_nodes (reset_nodes (nodes g0)) g0).
Proof.
  intros Hwf. split_and!; [by apply wf_reset|apply same_graph_reset| |].
  - intros pre u post Heq. by destruct pre.
  - intros k _. apply color_of_reset.
Qed.

(** *** sorted(self.graph.nodes.keys()) *)

Lemma insert_sorted_lt x l :
  StronglySorted Z.lt l → x ∉ l → StronglySorted Z.lt (insert_sorted Z.ltb x l).
Proof.
  induction 1 as [|y l Hs IH Hy]; intros Hx; simpl.
  - by repeat constructor.
  - apply not_elem_of_cons in Hx as [Hxy Hx].
    destruct (y <? x) eqn:E.
    + apply Z.ltb_lt in E. constructor; [by apply IH|].
      apply Forall_forall. intros z Hz.
      rewrite insert_sorted_perm in Hz.
      apply elem_of_cons in Hz as [->|Hz]; [done|].
      by apply (proj1 (Forall_forall _ _) Hy).
    + apply Z.ltb_ge in E. constructor; [by constructor|].
      constructor; [lia|]. eapply Forall_impl; [done|]. simpl. lia.
Qed.

Lemma sorted_by_lt l : NoDup l → StronglySorted Z.lt (sorted_by Z.ltb l).
Proof.
  induction 1 as [|x l Hx Hnd IH]; simpl; [constructor|].
  apply insert_sorted_lt; [done|]. by rewrite sorted_by_perm.
Qed.

Lemma sorted_split l pre u post :
  StronglySorted Z.lt l → l = pre ++ u :: post →
  ∀ v, v ∈ pre ↔ v ∈ l ∧ v < u.
Proof.
  intros Hs -> v.
  apply StronglySorted_app in Hs as (Hlt & Hpre & Hpost).
  apply StronglySorted_inv in Hpost as [_ Hgt].
  split.
  - intros Hv. split; [set_solver|]. apply (Hlt v u Hv), list_elem_of_here.
  - intros [[Hv|[->|Hv]%elem_of_cons]%elem_of_app Hvu]; [done|lia|].
    pose proof (proj1 (Forall_forall _ _) Hgt v Hv). lia.
Qed.

(** The colours of the neighbours of [u] with a smaller id. *)
Definition lower_neighbor_colors (g : Graph) (u : Z) : gset Z :=
  list_to_set (omap (color_of g) (filter (λ v, v < u) (elements (adj g u)))).

Lemma elem_of_lower_neighbor_colors g u c :
  c ∈ lower_neighbor_colors g u
  ↔ ∃ v, v ∈ adj g u ∧ v < u ∧ color_of g v = Some c.
Proof.
  unfold lower_neighbor_colors.
  rewrite elem_of_list_to_set, list_elem_of_omap.
  setoid_rewrite list_elem_of_filter. setoid_rewrite elem_of_elements.
  naive_solver.
Qed.

(** [greedy_coloring] is first fit along the ids in increasing order. *)
Lemma greedy_coloring_first_fit (elapsed : Q) (g0 : Graph) :
  wf g0 →
  ∃ g,
    greedy_coloring elapsed g0 = Return (stats_of "Greedy" elapsed g) g
    ∧ wf g ∧ same_graph g0 g
    ∧ ∀ u, has_node g0 u →
           color_of g u
           = Some (get_smallest_available_color (lower_neighbor_colors g u)).
Proof.
  intros Hwf. unfold greedy_coloring.
  rewrite (bind_Return _ _ _ _ _ (reset_colors_run g0)).
  set (g1 := set_nodes (reset_nodes (nodes g0)) g0).
  rewrite bind_get.
  assert (Hk1 : keys g1 = keys g0) by apply reset_nodes_keys.
  rewrite Hk1.
  assert (Hnd : NoDup (sorted_by Z.ltb (keys g0))).
  { rewrite sorted_by_perm. apply Hwf. }
  destruct (first_fit_order g0 (sorted_by Z.ltb (keys g0)) Hnd) with (g := g1)
    as ([] & g & Hrun & Hwf' & Hsame & Hff & _).
  { intros k Hk. unfold has_node. by rewrite <- (sorted_by_perm Z.ltb). }
  { by apply first_fit_inv_reset. }
  rewrite (bind_Return _ _ _ _ _ Hrun).
  rewrite (_compute_stats_run _ _ g Hwf').
  exists g. split; [done|]. split; [done|]. split; [done|]. intros u Hu.
  assert (Hin : u ∈ sorted_by Z.ltb (keys g0)) by by rewrite sorted_by_perm.
  apply list_elem_of_split in Hin as (pre & post & Heq).
  rewrite (Hff pre u post Heq). do 2 f_equal. apply set_eq. intros c.
  rewrite elem_of_earlier_colors, elem_of_lower_neighbor_colors.
  pose proof (sorted_split _ pre u post (sorted_by_lt _ (wf_keys g0 Hwf)) Heq)
    as Hpre.
  split.
  - intros (v & Hv%Hpre & Ha & Hc). exists v. by destruct Hv.
  - intros (v & Ha & Hlt & Hc). exists v. split_and!; [|done|done].
    apply Hpre. split; [|done]. rewrite sorted_by_perm.
    apply (same_graph_has_node g0 g v Hsame).
    by destruct (wf_adj_nodes g Hwf' u v Ha).
Qed.

(** X9.  [greedy_coloring] on a well-formed graph gives every node the
    smallest colour that none of its neighbours with a smaller id holds in
    the final colouring: the result is the first-fit colouring along the ids
    in increasing order, whatever the order of insertion. *)
Theorem X9_greedy_is_first_fit_by_id (elapsed : Q) (g0 : Graph) :
  wf g0 →
  ∃ s g,
    greedy_coloring elapsed g0 = Return s g
    ∧ ∀ u, has_node g0 u →
           color_of g u
           = Some (get_smallest_available_color (lower_neighbor_colors g u)).
Proof.
  intros Hwf.
  destruct (greedy_coloring_first_fit elapsed g0 Hwf) as (g & Hrun & _ & _ & H).
  by eexists _, g.
Qed.

Lemma X9_witness :
  ∃ s g,
    greedy_coloring 0 triangle = Return s g
    ∧ ∀ u, has_node triangle u →
           color_of g u
           = Some (get_smallest_available_color (lower_neighbor_colors g u)).
Proof. apply (X9_greedy_is_first_fit_by_id 0 triangle), wf_build. Defined.

(** *** sorted(self.graph.nodes.values(), key=degree, reverse=True) *)

(** The ids in the order in which [welsh_powell] colours them. *)
Definition degree_order (g : Graph) : list Z :=
  (sorted_by (λ a b : Z * Node, degree a.2 >? degree b.2) (nodes g)).*1.

Lemma insert_sorted_fmap {A B} (f : A → B) before before' x l :
  (∀ a b, before' (f a) (f b) = before a b) →
  insert_sorted before' (f x) (f <$> l) = f <$> insert_sorted before x l.
Proof.
  intros Hf. induction l as [|y l IH]; csimpl; [done|].
  rewrite Hf. destruct (before y x); csimpl; [by rewrite IH|done].
Qed.

Lemma sorted_by_fmap {A B} (f : A → B) before before' l :
  (∀ a b, before' (f a) (f b) = before a b) →
  sorted_by before' (f <$> l) = f <$> sorted_by before l.
Proof.
  intros Hf. induction l as [|x l IH]; csimpl; [done|].
  unfold sorted_by in *. by rewrite IH, (insert_sorted_fmap f before).
Qed.

Lemma degree_order_reset g :
  degree_order (set_nodes (reset_nodes (nodes g)) g) = degree_order g.
Proof.
  unfold degree_order. rewrite nodes_set_nodes. unfold reset_nodes.
  rewrite (sorted_by_fmap _ (λ a b : Z * Node, degree a.2 >? degree b.2))
    by done.
  rewrite <- list_fmap_compose. by apply list_fmap_ext.
Qed.

Lemma insert_sorted_key {A} (key : A → Z) x l :
  StronglySorted (λ a b, key b ≤ key a) l →
  StronglySorted (λ a b, key b ≤ key a)
    (insert_sorted (λ a b, key a >? key b) x l).
Proof.
  induction 1 as [|y l Hs IH Hy]; simpl.
  - by repeat constructor.
  - destruct (key y >? key x) eqn:E.
    + apply Z.gtb_lt in E. constructor; [done|].
      apply Forall_forall. intros z Hz.
      rewrite insert_sorted_perm in Hz.
      apply elem_of_cons in Hz as [->|Hz]; [lia|].
      by apply (proj1 (Forall_forall _ _) Hy).
    + assert (key y ≤ key x) by (pose proof (Z.gtb_spec (key y) (key x)) as Hc;
        rewrite E in Hc; by inversion Hc).
      constructor; [by constructor|].
      constructor; [done|]. eapply Forall_impl; [done|]. simpl. lia.
Qed.

Lemma sorted_by_key {A} (key : A → Z) l :
  StronglySorted (λ a b, key b ≤ key a)
    (sorted_by (λ a b, key a >? key b) l).
Proof.
  induction l as [|x l IH]; simpl; [constructor|]. by apply insert_sorted_key.
Qed.

Lemma degree_order_perm g : degree_order g ≡ₚ keys g.
Proof. unfold degree_order, keys. by rewrite sorted_by_perm. Qed.

Lemma degree_order_sorted g pre u post v :
  wf g → degree_order g = pre ++ u :: post → v ∈ post →
  (size (adj g v) ≤ size (adj g u))%nat.
Proof.
  intros Hwf Heq Hv. unfold degree_order in Heq.
  pose proof (sorted_by_key (λ a : Z * Node, degree a.2) (nodes g)) as Hs.
  pose proof (sorted_by_perm (λ a b : Z * Node, degree a.2 >? degree b.2)
                (nodes g)) as Hperm.
  set (l := sorted_by _ (nodes g)) in *.
  apply fmap_app_inv in Heq as (lpre & l2 & -> & Hl2 & Hl).
  symmetry in Hl2.
  apply fmap_cons_inv in Hl2 as ([u' nu] & lpost & Hu & -> & ->).
  simpl in Hu. subst u'.
  apply list_elem_of_fmap in Hv as ([v' nv] & -> & Hnv). simpl.
  rewrite Hl in Hs. apply StronglySorted_app in Hs as (_ & _ & Hs).
  apply StronglySorted_inv in Hs as [_ Hs].
  pose proof (proj1 (Forall_forall _ _) Hs _ Hnv) as Hle. simpl in Hle.
  assert (Hlook : ∀ k n, (k, n) ∈ l → degree n = Z.of_nat (size (adj g k))).
  { intros k n Hin. rewrite Hperm in Hin.
    apply elem_lookup_node in Hin; [|apply Hwf].
    by destruct (wf_node g Hwf k n Hin) as (_ & _ & ?). }
  rewrite (Hlook v' nv), (Hlook u nu) in Hle; [lia|..].
  - rewrite Hl. set_solver.
  - rewrite Hl. set_solver.
Qed.

(** X10.  [welsh_powell] (and [largest_first], which is the same call and
    returns the record labelled Welsh-Powell) colours the nodes along
    [degree_order]: a permutation of the ids along which the degree never
    increases.  Every node ends with the smallest colour that no neighbour
    ahead of it in that order holds. *)
Theorem X10_welsh_powell_is_first_fit_by_degree (elapsed : Q) (g0 : Graph) :
  wf g0 →
  ∃ s g,
    welsh_powell elapsed g0 = Return s g
    ∧ largest_first elapsed g0 = Return s g
    ∧ algorithm s = "Welsh-Powell"%string
    ∧ degree_order g0 ≡ₚ keys g0
    ∧ (∀ pre u post v, degree_order g0 = pre ++ u :: post → v ∈ post →
         (size (adj g0 v) ≤ size (adj g0 u))%nat)
    ∧ first_fit_in_order (degree_order g0) g.
Proof.
  intros Hwf. unfold largest_first, welsh_powell.
  rewrite (bind_Return _ _ _ _ _ (reset_colors_run g0)).
  set (g1 := set_nodes (reset_nodes (nodes g0)) g0).
  rewrite bind_get. cbv zeta. fold (degree_order g1).
  unfold g1. rewrite degree_order_reset. fold g1.
  assert (Hnd : NoDup (degree_order g0)).
  { rewrite degree_order_perm. apply Hwf. }
  assert (Hloop : hoare (first_fit_inv g0 [])
            (for_each (degree_order g0) (λ ref,
               node <- node_at ref ;;
               neighbor_colors <- get_neighbor_colors (id node) ;;
               mutate_node ref
                 (with_color
                    (Some (get_smallest_available_color neighbor_colors)))))
            (λ _, first_fit_inv g0 (degree_order g0))).
  { apply hoare_for_each. intros done x rest Hrefs g Hg.
    assert (Hx : has_node g0 x).
    { unfold has_node. rewrite <- degree_order_perm, Hrefs. set_solver. }
    assert (Hnew : x ∉ done).
    { rewrite Hrefs in Hnd. apply NoDup_app in Hnd as (_ & Hd & _).
      intros Hin. apply (Hd x Hin), list_elem_of_here. }
    exists tt, (first_fit_state x g). split.
    - destruct Hg as (? & Hsame & _).
      apply welsh_powell_body_run;
        [done|by apply (same_graph_has_node g0 g)].
    - by apply first_fit_inv_step. }
  destruct (Hloop g1) as ([] & g & Hrun & Hwf' & Hsame & Hff & _).
  { by apply first_fit_inv_reset. }
  rewrite (bind_Return _ _ _ _ _ Hrun).
  rewrite (_compute_stats_run _ _ g Hwf').
  eexists _, g. split_and!; try done.
  - apply degree_order_perm.
  - intros pre u post v. by apply degree_order_sorted.
Qed.

Lemma X10_witness :
  ∃ s g,
    welsh_powell 0 triangle = Return s g
    ∧ largest_first 0 triangle = Return s g
    ∧ algorithm s = "Welsh-Powell"%string
    ∧ degree_order triangle ≡ₚ keys triangle
    ∧ (∀ pre u post v, degree_order triangle = pre ++ u :: post → v ∈ post →
         (size (adj triangle v) ≤ size (adj triangle u))%nat)
    ∧ first_fit_in_order (degree_order triangle) g.
Proof.
  apply (X10_welsh_powell_is_first_fit_by_degree 0 triangle), wf_build.
Defined.

(** *** backtracking_exact *)

Lemma range_split (k c : Z) :
  0 ≤ c < k → ∃ post, range k = range c ++ c :: post.
Proof.
  intros Hc. unfold range.
  replace (Z.to_nat k) with (Z.to_nat c + S (Z.to_nat (k - c - 1)))%nat by lia.
  rewrite seq_app, fmap_app. cbn [seq fmap list_fmap]. simpl.
  rewrite Z2Nat.id by lia. eauto.
Qed.

(** The first free colour of the list succeeds when the rest of the search
    does: no later colour is tried. *)
Lemma try_colors_first_free next u s c pre post g g' :
  (∀ x, x ∈ pre → x ∈ s) → c ∉ s → has_node g u →
  next (paint u (Some c) g) = Return true g' →
  try_colors next u s (pre ++ c :: post) g = Return true g'.
Proof.
  intros Hpre Hc Hu Hnext. induction pre as [|x pre IH]; simpl.
  - rewrite bool_decide_eq_false_2 by done.
    rewrite (bind_Return _ _ _ _ _ (mutate_node_Some g u _ Hu)).
    fold (paint u (Some c) g). by rewrite (bind_Return _ _ _ _ _ Hnext).
  - rewrite bool_decide_eq_true_2 by (apply Hpre; set_solver).
    apply IH. intros y Hy. apply Hpre. set_solver.
Qed.

(** With more colours than any node has neighbours, [backtrack] never
    withdraws a colour: it leaves the state that first fit along [ids]
    leaves. *)
Lemma backtrack_first_fit k ids g :
  wf g → (∀ u, u ∈ ids → has_node g u) →
  (∀ u, has_node g u → Z.of_nat (size (adj g u)) < k) →
  ∃ g', backtrack k ids g = Return true g'
        ∧ for_each ids assign_first_fit g = Return tt g'.
Proof.
  revert g. induction ids as [|u ids IH]; intros g Hwf Hids Hdeg; simpl.
  { by exists g. }
  assert (Hu : has_node g u) by (apply Hids; set_solver).
  rewrite (bind_Return _ _ _ _ _ (get_neighbor_colors_wf g u Hwf)).
  rewrite (bind_Return _ _ _ _ _ (assign_first_fit_run g u Hwf Hu)).
  set (s := neighbor_colors_of g u).
  set (c := get_smallest_available_color s).
  destruct (IH (first_fit_state u g)) as (g' & Hbt & Hff).
  { by apply wf_paint, wf_touch. }
  { intros v Hv. apply (same_graph_has_node g _ v (same_graph_first_fit g u)).
    apply Hids. set_solver. }
  { intros v Hv. destruct (same_graph_first_fit g u) as (_ & _ & ->).
    apply Hdeg. by apply (same_graph_has_node g _ v (same_graph_first_fit g u)). }
  exists g'. split; [|done].
  destruct (range_split k c) as [post ->].
  { pose proof (smallest_available_bounds s).
    pose proof (neighbor_colors_of_size g u). specialize (Hdeg u Hu).
    unfold c, s in *. lia. }
  apply try_colors_first_free.
  - intros x Hx%range_elem. by apply smallest_available_least.
  - apply smallest_available_fresh.
  - unfold has_node. by rewrite keys_touch.
  - done.
Qed.

(** X11.  When the budget exceeds every degree, as the default budget
    (the number of nodes) does, [backtracking_exact] never withdraws a
    colour: it returns a statistics record and leaves the first-fit colouring
    along the ids in insertion order. *)
Theorem X11_backtracking_is_first_fit_by_insertion
    (max_colors : option Z) (elapsed : Q) (g0 : Graph) :
  wf g0 →
  (max_colors = None
   ∨ ∀ u, has_node g0 u → Z.of_nat (size (adj g0 u)) < budget max_colors g0) →
  ∃ s g,
    backtracking_exact max_colors elapsed g0 = Return (StatsRecord s) g
    ∧ first_fit_in_order (keys g0) g.
Proof.
  intros Hwf Hbudget.
  assert (Hdeg : ∀ u, has_node g0 u →
            Z.of_nat (size (adj g0 u)) < budget max_colors g0).
  { destruct Hbudget as [->|H]; [|done]. intros u Hu.
    by apply degree_lt_nodes. }
  unfold backtracking_exact.
  rewrite (bind_Return _ _ _ _ _ (reset_colors_run g0)).
  set (g1 := set_nodes (reset_nodes (nodes g0)) g0).
  rewrite bind_get. cbv zeta.
  assert (Hlen : len (nodes g1) = len (nodes g0)).
  { unfold g1, len, reset_nodes. by rewrite nodes_set_nodes, length_fmap. }
  assert (Hkeys : keys g1 = keys g0) by apply reset_nodes_keys.
  rewrite Hlen, Hkeys. fold (budget max_colors g0).
  destruct (backtrack_first_fit (budget max_colors g0) (keys g0) g1)
    as (g & Hbt & Hloop).
  { by apply wf_reset. }
  { intros u Hu. unfold has_node. by rewrite Hkeys. }
  { intros u Hu. unfold g1. rewrite adj_set_nodes. apply Hdeg.
    unfold has_node in *. by rewrite <- Hkeys. }
  rewrite (bind_Return _ _ _ _ _ Hbt).
  destruct (first_fit_order g0 (keys g0) (wf_keys g0 Hwf)) with (g := g1)
    as ([] & g' & Hrun & Hwf' & _ & Hff & _); [done|by apply first_fit_inv_reset|].
  rewrite Hloop in Hrun. injection Hrun as <-.
  rewrite (bind_Return _ _ _ _ _ (_compute_stats_run _ _ g Hwf')).
  by eexists _, g.
Qed.

Lemma X11_witness :
  ∃ s g,
    backtracking_exact None 0 triangle = Return (StatsRecord s) g
    ∧ first_fit_in_order (keys triangle) g.
Proof.
  apply (X11_backtracking_is_first_fit_by_insertion None 0 triangle).
  - apply wf_build.
  - by left.
Defined.

Lemma sorted_by_sorted l : StronglySorted Z.lt l → sorted_by Z.ltb l = l.
Proof.
  induction 1 as [|x l Hs IH Hx]; [done|].
  unfold sorted_by in *. cbn [foldr]. rewrite IH.
  destruct l as [|y l]; simpl; [done|].
  apply Forall_cons in Hx as [Hxy _].
  by rewrite (proj2 (Z.ltb_ge y x)) by lia.
Qed.

(** X12.  When the ids were inserted in increasing order (as [Graph(n)]
    inserts them) and the budget exceeds every degree, as the default budget
    does, [backtracking_exact] leaves exactly the state that
    [greedy_coloring] leaves: the same colour on every node, so the same
    number of colours, conflicts and efficiency in the two records. *)
Theorem X12_backtracking_default_equals_greedy
    (max_colors : option Z) (e e' : Q) (g0 : Graph) :
  wf g0 → StronglySorted Z.lt (keys g0) →
  (max_colors = None
   ∨ ∀ u, has_node g0 u → Z.of_nat (size (adj g0 u)) < budget max_colors g0) →
  ∃ s s' g,
    backtracking_exact max_colors e g0 = Return (StatsRecord s) g
    ∧ greedy_coloring e' g0 = Return s' g
    ∧ chromatic_number s = chromatic_number s'
    ∧ conflicts s = conflicts s'
    ∧ efficiency s = efficiency s'.
Proof.
  intros Hwf Hsorted Hbudget.
  assert (Hdeg : ∀ u, has_node g0 u →
            Z.of_nat (size (adj g0 u)) < budget max_colors g0).
  { destruct Hbudget as [->|H]; [|done]. intros u Hu.
    by apply degree_lt_nodes. }
  unfold backtracking_exact, greedy_coloring.
  rewrite !(bind_Return _ _ _ _ _ (reset_colors_run g0)).
  set (g1 := set_nodes (reset_nodes (nodes g0)) g0).
  rewrite !bind_get. cbv zeta.
  assert (Hlen : len (nodes g1) = len (nodes g0)).
  { unfold g1, len, reset_nodes. by rewrite nodes_set_nodes, length_fmap. }
  assert (Hkeys : keys g1 = keys g0) by apply reset_nodes_keys.
  rewrite Hlen, Hkeys, (sorted_by_sorted _ Hsorted).
  fold (budget max_colors g0).
  destruct (backtrack_first_fit (budget max_colors g0) (keys g0) g1)
    as (g & Hbt & Hloop).
  { by apply wf_reset. }
  { intros u Hu. unfold has_node. by rewrite Hkeys. }
  { intros u Hu. unfold g1. rewrite adj_set_nodes. apply Hdeg.
    unfold has_node in *. by rewrite <- Hkeys. }
  rewrite (bind_Return _ _ _ _ _ Hbt), (bind_Return _ _ _ _ _ Hloop).
  destruct (first_fit_order g0 (keys g0) (wf_keys g0 Hwf)) with (g := g1)
    as ([] & g' & Hrun & Hwf' & _); [done|by apply first_fit_inv_reset|].
  rewrite Hloop in Hrun. injection Hrun as <-.
  rewrite (bind_Return _ _ _ _ _ (_compute_stats_run _ _ g Hwf')).
  rewrite (_compute_stats_run _ _ g Hwf').
  by eexists _, _, g.
Qed.

Lemma X12_witness :
  ∃ s s' g,
    backtracking_exact None 0 triangle = Return (StatsRecord s) g
    ∧ greedy_coloring 0 triangle = Return s' g
    ∧ chromatic_number s = chromatic_number s'
    ∧ conflicts s = conflicts s'
    ∧ efficiency s = efficiency s'.
Proof.
  apply (X12_backtracking_default_equals_greedy None 0 0 triangle).
  - apply wf_build.
  - change (keys triangle) with [0; 1; 2]. repeat constructor.
  - by left.
Defined.

(** ** cellular_grid *)

(** The calls of [add_edge] made for the cell [(i, j)], in order. *)
Definition cell_edges (rows cols : Z) (connectivity : string) (i j : Z)
  : list (Z * Z) :=
  let node_id := i * cols + j in
  (if bool_decide (j < cols - 1) then [(node_id, node_id + 1)] else [])
  ++ (if bool_decide (i < rows - 1) then [(node_id, node_id + cols)] else [])
  ++ (if bool_decide (connectivity = "hex"%string)
      then (if bool_decide (i < rows - 1) && bool_decide (j > 0)
            then [(node_id, node_id + cols - 1)] else [])
           ++ (if bool_decide (i < rows - 1) && bool_decide (j < cols - 1)
               then [(node_id, node_id + cols + 1)] else [])
      else []).

(** The calls of [add_edge] and of [add_node], in the order of the nested
    loops. *)
Definition grid_edges (rows cols : Z) (connectivity : string) : list (Z * Z) :=
  i ← range rows; j ← range cols; cell_edges rows cols connectivity i j.

Definition grid_nodes (rows cols : Z) : list (Z * position_t) :=
  i ← range rows;
  (λ j, (i * cols + j, (inject_Z (j * 100), inject_Z (i * 100)))) <$> range cols.

Definition grid_ops (rows cols : Z) (connectivity : string) : list op :=
  ((λ p : Z * position_t, AddNode p.1 p.2) <$> grid_nodes rows cols)
  ++ ((λ e : Z * Z, AddEdge e.1 e.2) <$> grid_edges rows cols connectivity).

Lemma bind_fmap_r {A B C} (f : B → C) (k : A → list B) (l : list A) :
  l ≫= (λ x, f <$> k x) = f <$> (l ≫= k).
Proof.
  induction l as [|x l IH]; csimpl; [done|]. by rewrite IH, fmap_app.
Qed.

Lemma bind_ext {A B} (f k : A → list B) (l : list A) :
  (∀ x, f x = k x) → l ≫= f = l ≫= k.
Proof.
  intros Hf. induction l as [|x l IH]; csimpl; [done|]. by rewrite IH, Hf.
Qed.

Lemma bind_singleton {A B} (f : A → B) (l : list A) :
  l ≫= (λ x, [f x]) = f <$> l.
Proof. induction l as [|x l IH]; csimpl; [done|]. by rewrite IH. Qed.

(** A loop whose body returns from every state satisfying [P], and keeps
    [P], is the sequence of the calls it makes. *)
Lemma for_each_calls {A} (P : Graph → Prop) (l : list A) (body : A → M unit)
    (calls : A → list op) g :
  (∀ x g, x ∈ l → P g →
     body x g = Return tt (run_ops (calls x) g) ∧ P (run_ops (calls x) g)) →
  P g →
  for_each l body g = Return tt (run_ops (l ≫= calls) g)
  ∧ P (run_ops (l ≫= calls) g).
Proof.
  revert g. induction l as [|x l IH]; intros g Hbody HP; csimpl; [done|].
  destruct (Hbody x g) as [Hx HPx]; [apply list_elem_of_here|done|].
  rewrite (bind_Return _ _ _ _ _ Hx), run_ops_app.
  apply IH; [|done]. intros y g' Hy. apply Hbody. by apply list_elem_of_further.
Qed.

Lemma add_edge_run g u v :
  has_node g u → has_node g v →
  add_edge u v g = Return tt (run_ops [AddEdge u v] g)
  ∧ keys (run_ops [AddEdge u v] g) = keys g.
Proof.
  intros Hu Hv. simpl.
  destruct (decide (u = v)) as [->|Hne]; [by rewrite add_edge_self|].
  destruct (decide (v ∈ adj g u)) as [Hin|Hin]; [by rewrite add_edge_known|].
  destruct (add_edge_fresh g u v Hu Hv Hne Hin) as (g' & -> & Hn & _).
  split; [done|]. unfold keys. cbn [state_after]. by rewrite Hn, link_nodes_keys.
Qed.

Lemma add_edges_run (es : list (Z * Z)) g :
  (∀ e, e ∈ es → has_node g e.1 ∧ has_node g e.2) →
  for_each es (λ e, add_edge e.1 e.2) g
  = Return tt (run_ops ((λ e : Z * Z, AddEdge e.1 e.2) <$> es) g)
  ∧ keys (run_ops ((λ e : Z * Z, AddEdge e.1 e.2) <$> es) g) = keys g.
Proof.
  revert g. induction es as [|[u v] es IH]; intros g Hes; [done|].
  destruct (Hes (u, v)) as [Hu Hv]; [apply list_elem_of_here|].
  destruct (add_edge_run g u v Hu Hv) as [Hrun Hk]. simpl in Hrun, Hk.
  cbn [for_each fmap list_fmap run_ops foldl fst snd run_op].
  change (foldl _ ?g0 ?l) with (run_ops l g0).
  rewrite (bind_Return _ _ _ _ _ Hrun).
  destruct (IH (state_after (add_edge u v g))) as [Hrun' Hk'].
  { intros e He. unfold has_node. rewrite Hk. apply Hes.
    by apply list_elem_of_further. }
  split; [done|]. by rewrite Hk'.
Qed.

(** One cell of the second loop makes the calls of [cell_edges]. *)
Lemma cellular_grid_cell_run rows cols connectivity i j g :
  cellular_grid_cell rows cols connectivity i j g
  = for_each (cell_edges rows cols connectivity i j)
      (λ e, add_edge e.1 e.2) g.
Proof.
  unfold cellular_grid_cell, cell_edges. cbv zeta.
  destruct (bool_decide (j < cols - 1)), (bool_decide (i < rows - 1)),
    (bool_decide (connectivity = "hex"%string)), (bool_decide (j > 0));
    cbn [andb app for_each fst snd];
    unfold bind, ret;
    repeat match goal with
    | |- context [add_edge ?a ?b ?g0] =>
        destruct (add_edge a b g0) as [[] ?|? ?]; try done
    end;
    done.
Qed.

(** *** The ids of the grid *)

Lemma range_app (a b : Z) :
  0 ≤ a → 0 ≤ b → range (a + b) = range a ++ ((λ j, a + j) <$> range b).
Proof.
  intros Ha Hb. unfold range.
  rewrite Z2Nat.inj_add, seq_app, fmap_app by done. f_equal.
  rewrite (Nat.add_comm 0), <- fmap_add_seq, <- !list_fmap_compose.
  apply list_fmap_ext. intros _ j _. simpl. lia.
Qed.

Lemma range_nonpos (n : Z) : n ≤ 0 → range n = [].
Proof. intros Hn. unfold range. by replace (Z.to_nat n) with 0%nat by lia. Qed.

Lemma grid_ids (rows cols : Z) :
  (grid_nodes rows cols).*1 = range (Z.max 0 rows * Z.max 0 cols).
Proof.
  unfold grid_nodes. rewrite <- bind_fmap_r.
  rewrite (bind_ext _ (λ i, (λ j, i * cols + j) <$> range cols))
    by (intros i; by rewrite <- list_fmap_compose).
  destruct (decide (cols ≤ 0)) as [Hc|Hc].
  { rewrite (range_nonpos cols) by done.
    replace (Z.max 0 cols) with 0 by lia. rewrite Z.mul_0_r.
    csimpl. by induction (range rows). }
  replace (Z.max 0 cols) with cols by lia.
  destruct (decide (rows ≤ 0)) as [Hr|Hr].
  { rewrite (range_nonpos rows) by done.
    by replace (Z.max 0 rows) with 0 by lia. }
  replace (Z.max 0 rows) with rows by lia.
  assert (Hn : ∀ n : nat,
            range (Z.of_nat n) ≫= (λ i, (λ j, i * cols + j) <$> range cols)
            = range (Z.of_nat n * cols)).
  { induction n as [|n IH]; [done|].
    replace (Z.of_nat (S n)) with (Z.of_nat n + 1) by lia.
    rewrite (range_app (Z.of_nat n) 1) by lia.
    rewrite bind_app, IH. csimpl. rewrite app_nil_r, Z.add_0_r.
    replace ((Z.of_nat n + 1) * cols) with (Z.of_nat n * cols + cols) by lia.
    rewrite (range_app (Z.of_nat n * cols) cols) by lia. done. }
  specialize (Hn (Z.to_nat rows)). by rewrite Z2Nat.id in Hn by lia.
Qed.

(** *** The nodes of the grid *)

Lemma run_add_nodes_pos (ps : list (Z * position_t)) g :
  NoDup (keys g ++ ps.*1) →
  run_ops ((λ p : Z * position_t, AddNode p.1 p.2) <$> ps) g
  = set_nodes
      (nodes g ++ ((λ p : Z * position_t, (p.1, mkNode p.1 p.2 None 0 0 ∅)) <$> ps))
      g.
Proof.
  revert g. induction ps as [|[k pos] ps IH]; intros g Hnd; csimpl.
  { rewrite app_nil_r. by destruct g. }
  assert (Hk : ¬ has_node g k).
  { apply NoDup_app in Hnd as (_ & Hd & _). intros Hk.
    apply (Hd k Hk), list_elem_of_here. }
  rewrite (add_node_fresh g k _ Hk). cbn [state_after].
  rewrite IH.
  - rewrite nodes_set_nodes, <- app_assoc. done.
  - unfold keys. rewrite nodes_set_nodes, fmap_app, <- app_assoc. done.
Qed.

(** The fields of a node object that [add_edge] does not write. *)
Definition label (n : Node) : position_t * option Z * Z :=
  (position n, color n, saturation n).

Lemma add_edge_label g u v k :
  label <$> lookup_node k (nodes (state_after (add_edge u v g)))
  = label <$> lookup_node k (nodes g).
Proof.
  destruct (decide (has_node g u ∧ has_node g v)) as [[Hu Hv]|Hno];
    [|by rewrite add_edge_raises].
  destruct (decide (u = v)) as [->|Hne]; [by rewrite add_edge_self|].
  destruct (decide (v ∈ adj g u)) as [Hin|Hin]; [by rewrite add_edge_known|].
  destruct (add_edge_fresh g u v Hu Hv Hne Hin) as (g' & -> & Hn & _).
  cbn [state_after]. rewrite Hn, lookup_link_nodes by done.
  destruct (lookup_node k (nodes g)) as [n|]; [|done]. simpl. f_equal.
  unfold link_node. by repeat case_decide.
Qed.

Lemma add_edges_label (es : list (Z * Z)) g k :
  label <$> lookup_node k
              (nodes (run_ops ((λ e : Z * Z, AddEdge e.1 e.2) <$> es) g))
  = label <$> lookup_node k (nodes g).
Proof.
  revert g. induction es as [|[u v] es IH]; intros g; csimpl; [done|].
  by rewrite IH, add_edge_label.
Qed.

(** *** The edges of the grid *)

Lemma grid_coords_unique (cols i j i' j' : Z) :
  0 ≤ j < cols → 0 ≤ j' < cols → i * cols + j = i' * cols + j' →
  i = i' ∧ j = j'.
Proof. intros Hj Hj' Heq. assert (i = i') by nia. subst. lia. Qed.

Lemma grid_id_bounds (rows cols i j : Z) :
  0 ≤ i < rows → 0 ≤ j < cols → 0 ≤ i * cols + j < rows * cols.
Proof. intros Hi Hj. nia. Qed.

Lemma elem_of_cell_edges rows cols connectivity i j u v :
  (u, v) ∈ cell_edges rows cols connectivity i j
  ↔ u = i * cols + j
    ∧ ((j < cols - 1 ∧ v = u + 1)
       ∨ (i < rows - 1 ∧ v = u + cols)
       ∨ (connectivity = "hex"%string ∧ i < rows - 1 ∧ j > 0
          ∧ v = u + cols - 1)
       ∨ (connectivity = "hex"%string ∧ i < rows - 1 ∧ j < cols - 1
          ∧ v = u + cols + 1)).
Proof.
  unfold cell_edges. cbv zeta.
  repeat case_bool_decide; cbn [andb app];
    rewrite ?elem_of_cons, ?elem_of_nil; naive_solver lia.
Qed.

Lemma elem_of_grid_edges rows cols connectivity u v :
  (u, v) ∈ grid_edges rows cols connectivity
  ↔ ∃ i j, 0 ≤ i < rows ∧ 0 ≤ j < cols
           ∧ (u, v) ∈ cell_edges rows cols connectivity i j.
Proof.
  unfold grid_edges. rewrite list_elem_of_bind. split.
  - intros (i & (j & Hc & Hj%range_elem)%list_elem_of_bind & Hi%range_elem).
    by exists i, j.
  - intros (i & j & Hi & Hj & Hc). exists i. split; [|by apply range_elem].
    apply list_elem_of_bind. exists j. split; [done|by apply range_elem].
Qed.

(** Two cells are joined when they differ by at most one row and one column,
    and, unless the connectivity is ['hex'], lie in one row or one column. *)
Definition grid_adjacent (connectivity : string) (i j i' j' : Z) : Prop :=
  (i, j) ≠ (i', j') ∧ -1 ≤ i' - i ≤ 1 ∧ -1 ≤ j' - j ≤ 1
  ∧ (connectivity = "hex"%string ∨ i' = i ∨ j' = j).

Lemma grid_edges_adjacent rows cols connectivity i j i' j' :
  0 ≤ i < rows → 0 ≤ j < cols → 0 ≤ i' < rows → 0 ≤ j' < cols →
  (i * cols + j ≠ i' * cols + j'
   ∧ ((i * cols + j, i' * cols + j') ∈ grid_edges rows cols connectivity
      ∨ (i' * cols + j', i * cols + j) ∈ grid_edges rows cols connectivity))
  ↔ grid_adjacent connectivity i j i' j'.
Proof.
  intros Hi Hj Hi' Hj'. unfold grid_adjacent.
  assert (Hdir : ∀ a b a' b',
            0 ≤ a < rows → 0 ≤ b < cols → 0 ≤ a' < rows → 0 ≤ b' < cols →
            (a * cols + b, a' * cols + b') ∈ grid_edges rows cols connectivity
            ↔ (a' = a ∧ b' = b + 1) ∨ (a' = a + 1 ∧ b' = b)
              ∨ (connectivity = "hex"%string ∧ a' = a + 1
                 ∧ (b' = b - 1 ∨ b' = b + 1))).
  { intros a b a' b' Ha Hb Ha' Hb'. rewrite elem_of_grid_edges.
    setoid_rewrite elem_of_cell_edges. split.
    - intros (i0 & j0 & Hi0 & Hj0 & Hu & Hv).
      apply grid_coords_unique in Hu as [-> ->]; [|done..].
      destruct Hv as [(? & Hv)|[(? & Hv)|[(? & ? & ? & Hv)|(? & ? & ? & Hv)]]].
      + left. apply (grid_coords_unique cols a' b' i0 (j0 + 1)); lia.
      + right; left. apply (grid_coords_unique cols a' b' (i0 + 1) j0); lia.
      + right; right. split; [done|].
        destruct (grid_coords_unique cols a' b' (i0 + 1) (j0 - 1)); lia.
      + right; right. split; [done|].
        destruct (grid_coords_unique cols a' b' (i0 + 1) (j0 + 1)); lia.
    - intros Hcase. exists a, b.
      split; [done|]. split; [done|]. split; [done|].
      destruct Hcase as [[-> ->]|[[-> ->]|(? & -> & [->| ->])]].
      + left. lia.
      + right; left. lia.
      + right; right; left. split; [done|]. lia.
      + right; right; right. split; [done|]. lia. }
  rewrite (Hdir i j i' j'), (Hdir i' j' i j) by done. clear Hdir.
  generalize (connectivity = "hex"%string). intros hex.
  split.
  - intros [Hne Hcase]. split.
    + intros [= -> ->]. done.
    + intuition lia.
  - intros (Hne & ? & ? & Hconn). split.
    + intros [-> ->]%grid_coords_unique; done.
    + assert (i' ≠ i ∨ j' ≠ j).
      { destruct (decide (i' = i)) as [->|]; [right|by left].
        intros ->. done. }
      destruct (decide (i' = i + 1)), (decide (i' = i)), (decide (j' = j + 1)),
        (decide (j' = j)); intuition lia.
Qed.

(** *** The graph that is returned *)

Lemma grid_nodes_NoDup rows cols : NoDup (grid_nodes rows cols).*1.
Proof. rewrite grid_ids. apply range_NoDup. Qed.

Lemma grid_edges_in_grid rows cols connectivity e :
  e ∈ grid_edges rows cols connectivity →
  e.1 ∈ (grid_nodes rows cols).*1 ∧ e.2 ∈ (grid_nodes rows cols).*1.
Proof.
  destruct e as [u v]. rewrite grid_ids, !range_elem. simpl.
  intros (i & j & Hi & Hj & Hc)%elem_of_grid_edges.
  apply elem_of_cell_edges in Hc as [-> Hv].
  replace (Z.max 0 rows) with rows by lia.
  replace (Z.max 0 cols) with cols by lia.
  pose proof (grid_id_bounds rows cols i j Hi Hj).
  split; [done|].
  destruct Hv as [(? & ->)|[(? & ->)|[(? & ? & ? & ->)|(? & ? & ? & ->)]]].
  - pose proof (grid_id_bounds rows cols i (j + 1)). lia.
  - pose proof (grid_id_bounds rows cols (i + 1) j). lia.
  - pose proof (grid_id_bounds rows cols (i + 1) (j - 1)). lia.
  - pose proof (grid_id_bounds rows cols (i + 1) (j + 1)). lia.
Qed.

(** The graph on which the second loop of [cellular_grid] starts. *)
Definition grid_points (rows cols : Z) : Graph :=
  set_nodes
    ((λ p : Z * position_t, (p.1, mkNode p.1 p.2 None 0 0 ∅))
     <$> grid_nodes rows cols)
    empty_graph.

Lemma grid_points_run rows cols :
  run_ops ((λ p : Z * position_t, AddNode p.1 p.2) <$> grid_nodes rows cols)
    empty_graph
  = grid_points rows cols.
Proof. rewrite run_add_nodes_pos; [done|]. apply grid_nodes_NoDup. Qed.

Lemma grid_points_keys rows cols :
  keys (grid_points rows cols) = (grid_nodes rows cols).*1.
Proof.
  unfold grid_points, keys. rewrite nodes_set_nodes, <- list_fmap_compose.
  by apply list_fmap_ext.
Qed.

(** [cellular_grid] raises nothing: it is the sequence [grid_ops] of calls of
    [add_node] and [add_edge] on the new graph. *)
Lemma cellular_grid_run rows cols connectivity :
  cellular_grid rows cols connectivity empty_graph
  = Return tt (build (grid_ops rows cols connectivity)).
Proof.
  unfold cellular_grid, build, grid_ops. rewrite run_ops_app.
  destruct (for_each_calls (λ _, True) (range rows)
              (λ i, for_each (range cols) (λ j,
                 let node_id := i * cols + j in
                 add_node node_id (inject_Z (j * 100), inject_Z (i * 100))))
              (λ i, (λ j, AddNode (i * cols + j)
                            (inject_Z (j * 100), inject_Z (i * 100)))
                    <$> range cols)
              empty_graph) as [Hnodes _]; [|done|].
  { intros i g _ _. split; [|done]. rewrite <- bind_singleton.
    apply (for_each_calls (λ _, True)); [|done].
    intros j g' _ _. split; [|done]. cbv zeta. apply add_node_returns. }
  rewrite (bind_Return _ _ _ _ _ Hnodes).
  assert (Hops : (range rows ≫= λ i,
                    (λ j, AddNode (i * cols + j)
                            (inject_Z (j * 100), inject_Z (i * 100)))
                    <$> range cols)
                 = (λ p : Z * position_t, AddNode p.1 p.2)
                   <$> grid_nodes rows cols).
  { unfold grid_nodes. rewrite <- bind_fmap_r. apply bind_ext. intros i.
    by rewrite <- list_fmap_compose. }
  rewrite Hops, grid_points_run. clear Hnodes Hops.
  set (P := λ g : Graph, keys g = (grid_nodes rows cols).*1).
  destruct (for_each_calls P (range rows)
              (λ i, for_each (range cols) (λ j,
                 cellular_grid_cell rows cols connectivity i j))
              (λ i, range cols ≫= λ j,
                 (λ e : Z * Z, AddEdge e.1 e.2)
                 <$> cell_edges rows cols connectivity i j)
              (grid_points rows cols)) as [Hedges _].
  { intros i g Hi HP. apply (for_each_calls P); [|done].
    intros j g' Hj HP'. rewrite cellular_grid_cell_run.
    destruct (add_edges_run (cell_edges rows cols connectivity i j) g')
      as [Hrun Hk].
    - intros e He. unfold has_node. rewrite HP'.
      apply (grid_edges_in_grid rows cols connectivity).
      destruct e as [u v]. apply elem_of_grid_edges. exists i, j.
      by rewrite <- !range_elem.
    - split; [done|]. unfold P. by rewrite Hk. }
  { apply grid_points_keys. }
  rewrite Hedges. do 2 f_equal.
  unfold grid_edges. rewrite <- bind_fmap_r. apply bind_ext. intros i.
  by rewrite <- bind_fmap_r.
Qed.

(** The graph that [cellular_grid] returns. *)
Definition grid_graph (rows cols : Z) (connectivity : string) : Graph :=
  build (grid_ops rows cols connectivity).

Lemma cellular_grid_spec (rows cols : Z) (connectivity : string) :
  let g := grid_graph rows cols connectivity in
  cellular_grid rows cols connectivity empty_graph = Return tt g
  ∧ wf g
  ∧ keys g = range (Z.max 0 rows * Z.max 0 cols)
  ∧ (∀ i j, 0 ≤ i < rows → 0 ≤ j < cols →
       ∃ n, lookup_node (i * cols + j) (nodes g) = Some n
            ∧ position n = (inject_Z (j * 100), inject_Z (i * 100))
            ∧ color n = None)
  ∧ (∀ i j i' j',
       0 ≤ i < rows → 0 ≤ j < cols → 0 ≤ i' < rows → 0 ≤ j' < cols →
       i' * cols + j' ∈ adj g (i * cols + j)
       ↔ grid_adjacent connectivity i j i' j').
Proof.
  cbv zeta. unfold grid_graph.
  split; [apply cellular_grid_run|]. split; [apply wf_build|].
  unfold build, grid_ops. rewrite run_ops_app, grid_points_run.
  assert (Hwf : wf (grid_points rows cols)).
  { rewrite <- grid_points_run. apply wf_run_ops, wf_empty. }
  destruct (run_add_edges (grid_edges rows cols connectivity)
              (grid_points rows cols) Hwf) as [Hk Ha].
  { intros e He. unfold has_node. rewrite grid_points_keys.
    by apply (grid_edges_in_grid rows cols connectivity). }
  split_and!.
  - by rewrite Hk, grid_points_keys, grid_ids.
  - intros i j Hi Hj.
    pose proof (add_edges_label (grid_edges rows cols connectivity)
                  (grid_points rows cols) (i * cols + j)) as Hl.
    assert (Hp : lookup_node (i * cols + j) (nodes (grid_points rows cols))
                 = Some (mkNode (i * cols + j)
                           (inject_Z (j * 100), inject_Z (i * 100)) None 0 0 ∅)).
    { apply elem_lookup_node.
      - fold (keys (grid_points rows cols)). rewrite grid_points_keys.
        apply grid_nodes_NoDup.
      - unfold grid_points. rewrite nodes_set_nodes.
        apply list_elem_of_fmap.
        exists (i * cols + j, (inject_Z (j * 100), inject_Z (i * 100))).
        split; [done|]. unfold grid_nodes.
        apply list_elem_of_bind. exists i. split; [|by apply range_elem].
        apply list_elem_of_fmap. exists j. split; [done|by apply range_elem]. }
    rewrite Hp in Hl.
    destruct (lookup_node _ (nodes (run_ops _ _))) as [n|]; [|done].
    injection Hl as Hpos Hcol _. by exists n.
  - intros i j i' j' Hi Hj Hi' Hj'. rewrite Ha.
    rewrite <- (grid_edges_adjacent rows cols) by done.
    assert (adj (grid_points rows cols) (i * cols + j) = ∅) as -> by done.
    set_solver.
Qed.

(** *** Degrees in the grid *)

Lemma grid_coords_exist (rows cols v : Z) :
  0 ≤ v < rows * cols → 0 < cols →
  ∃ i j, 0 ≤ i < rows ∧ 0 ≤ j < cols ∧ v = i * cols + j.
Proof.
  intros Hv Hc. exists (v / cols), (v mod cols).
  pose proof (Z.mod_pos_bound v cols Hc).
  pose proof (Z.div_mod v cols ltac:(lia)).
  split_and!; try lia.
  - apply Z.div_pos; lia.
  - apply Z.div_lt_upper_bound; lia.
Qed.

(** The ids that can be adjacent to [u]. *)
Definition grid_candidates (cols : Z) (connectivity : string) (u : Z) : list Z :=
  if bool_decide (connectivity = "hex"%string)
  then [u - cols - 1; u - cols; u - cols + 1; u - 1; u + 1;
        u + cols - 1; u + cols; u + cols + 1]
  else [u - cols; u - 1; u + 1; u + cols].

Lemma grid_adj_candidates rows cols connectivity g i j :
  wf g → keys g = range (Z.max 0 rows * Z.max 0 cols) →
  (∀ i j i' j',
     0 ≤ i < rows → 0 ≤ j < cols → 0 ≤ i' < rows → 0 ≤ j' < cols →
     i' * cols + j' ∈ adj g (i * cols + j)
     ↔ grid_adjacent connectivity i j i' j') →
  0 ≤ i < rows → 0 ≤ j < cols →
  adj g (i * cols + j)
    ⊆ list_to_set (grid_candidates cols connectivity (i * cols + j))
  ∧ (0 < i < rows - 1 → 0 < j < cols - 1 →
     adj g (i * cols + j)
     = list_to_set (grid_candidates cols connectivity (i * cols + j))).
Proof.
  intros Hwf Hk Hadj Hi Hj.
  assert (Hsub : ∀ v, v ∈ adj g (i * cols + j) →
            v ∈ grid_candidates cols connectivity (i * cols + j)).
  { intros v Hv.
    destruct (wf_adj_nodes g Hwf _ _ Hv) as [_ Hn].
    unfold has_node in Hn. rewrite Hk, range_elem in Hn.
    replace (Z.max 0 rows) with rows in Hn by lia.
    replace (Z.max 0 cols) with cols in Hn by lia.
    destruct (grid_coords_exist rows cols v Hn) as (i' & j' & Hi' & Hj' & ->);
      [lia|].
    apply Hadj in Hv as (Hne & Hdi & Hdj & Hconn); [|done..].
    unfold grid_candidates. case_bool_decide as Hhex.
    - assert (i' = i - 1 ∨ i' = i ∨ i' = i + 1) as [-> | [-> | ->]] by lia;
        (assert (j' = j - 1 ∨ j' = j ∨ j' = j + 1) as [-> | [-> | ->]] by lia);
        try done; rewrite !elem_of_cons; lia.
    - destruct Hconn as [? | [-> | ->]]; [done| |].
      + assert (j' = j - 1 ∨ j' = j + 1) as [-> | ->].
        { destruct (decide (j' = j)) as [->|]; [done|lia]. }
        all: rewrite !elem_of_cons; lia.
      + assert (i' = i - 1 ∨ i' = i + 1) as [-> | ->].
        { destruct (decide (i' = i)) as [->|]; [done|lia]. }
        all: rewrite !elem_of_cons; lia. }
  split.
  { intros v Hv. apply elem_of_list_to_set. by apply Hsub. }
  intros Hi' Hj'. apply set_eq. intros v. rewrite elem_of_list_to_set.
  split; [apply Hsub|].
  assert (Hcell : ∀ di dj, -1 ≤ di ≤ 1 → -1 ≤ dj ≤ 1 → (di, dj) ≠ (0, 0) →
            (connectivity = "hex"%string ∨ di = 0 ∨ dj = 0) →
            v = i * cols + j + di * cols + dj → v ∈ adj g (i * cols + j)).
  { intros di dj Hdi Hdj Hne Hconn ->.
    replace (i * cols + j + di * cols + dj) with ((i + di) * cols + (j + dj))
      by lia.
    apply Hadj; [lia..|]. split_and!; [|lia..|].
    - intros [= ? ?]. apply Hne. f_equal; lia.
    - destruct Hconn as [?|[?|?]]; [by left|right; left; lia|right; right; lia]. }
  unfold grid_candidates. case_bool_decide as Hhex; rewrite !elem_of_cons.
  - intros [?|[?|[?|[?|[?|[?|[?|[?|[]%elem_of_nil]]]]]]]].
    + apply (Hcell (-1) (-1)); try done; try lia; by left.
    + apply (Hcell (-1) 0); try done; try lia; by left.
    + apply (Hcell (-1) 1); try done; try lia; by left.
    + apply (Hcell 0 (-1)); try done; try lia; by left.
    + apply (Hcell 0 1); try done; try lia; by left.
    + apply (Hcell 1 (-1)); try done; try lia; by left.
    + apply (Hcell 1 0); try done; try lia; by left.
    + apply (Hcell 1 1); try done; try lia; by left.
  - intros [?|[?|[?|[?|[]%elem_of_nil]]]].
    + apply (Hcell (-1) 0); try done; try lia; right; by right.
    + apply (Hcell 0 (-1)); try done; try lia; right; by left.
    + apply (Hcell 0 1); try done; try lia; right; by left.
    + apply (Hcell 1 0); try done; try lia; right; by right.
Qed.

Lemma grid_candidates_length cols connectivity u :
  len (grid_candidates cols connectivity u)
  = if bool_decide (connectivity = "hex"%string) then 8 else 4.
Proof. unfold grid_candidates. by case_bool_decide. Qed.

Lemma grid_candidates_NoDup cols connectivity u :
  2 < cols → NoDup (grid_candidates cols connectivity u).
Proof.
  intros Hc. unfold grid_candidates.
  case_bool_decide; repeat (apply NoDup_cons; split;
    [rewrite ?elem_of_cons, elem_of_nil; lia|]); constructor.
Qed.

(** X13.  [cellular_grid] raises nothing, whatever the arguments; a
    connectivity other than ['hex'] gives the square grid.  The graph it
    returns is well formed; its ids are [0 .. rows*cols - 1] in order (none
    when [rows] or [cols] is not positive); the node of row [i] and column
    [j] has the id [i*cols + j], the position [(j*100, i*100)] and no colour;
    two nodes are adjacent exactly when their cells differ by at most one row
    and one column and, unless the connectivity is ['hex'], share a row or a
    column.  In ['hex'] mode both diagonals are joined. *)
Theorem X13_cellular_grid_structure (rows cols : Z) (connectivity : string) :
  ∃ g,
    cellular_grid rows cols connectivity empty_graph = Return tt g
    ∧ wf g
    ∧ keys g = range (Z.max 0 rows * Z.max 0 cols)
    ∧ (∀ i j, 0 ≤ i < rows → 0 ≤ j < cols →
         ∃ n, lookup_node (i * cols + j) (nodes g) = Some n
              ∧ position n = (inject_Z (j * 100), inject_Z (i * 100))
              ∧ color n = None)
    ∧ (∀ i j i' j',
         0 ≤ i < rows → 0 ≤ j < cols → 0 ≤ i' < rows → 0 ≤ j' < cols →
         i' * cols + j' ∈ adj g (i * cols + j)
         ↔ (i, j) ≠ (i', j') ∧ -1 ≤ i' - i ≤ 1 ∧ -1 ≤ j' - j ≤ 1
           ∧ (connectivity = "hex"%string ∨ i' = i ∨ j' = j)).
Proof.
  exists (grid_graph rows cols connectivity).
  apply (cellular_grid_spec rows cols connectivity).
Qed.

(** X14.  In the graph returned by [cellular_grid] a node has at most 8
    neighbours with the connectivity ['hex'] and at most 4 otherwise, and a
    node that lies neither in the first or last row nor in the first or last
    column has exactly 8, respectively 4; the [degree] field agrees. *)
Theorem X14_cellular_grid_degrees (rows cols : Z) (connectivity : string) :
  ∃ g,
    cellular_grid rows cols connectivity empty_graph = Return tt g
    ∧ ∀ i j, 0 ≤ i < rows → 0 ≤ j < cols →
        ∃ n, lookup_node (i * cols + j) (nodes g) = Some n
             ∧ degree n = Z.of_nat (size (adj g (i * cols + j)))
             ∧ degree n ≤ (if bool_decide (connectivity = "hex"%string)
                           then 8 else 4)
             ∧ (0 < i < rows - 1 → 0 < j < cols - 1 →
                degree n = if bool_decide (connectivity = "hex"%string)
                           then 8 else 4).
Proof.
  exists (grid_graph rows cols connectivity).
  destruct (cellular_grid_spec rows cols connectivity)
    as (Hrun & Hwf & Hk & Hnodes & Hadj).
  split; [done|]. intros i j Hi Hj.
  destruct (Hnodes i j Hi Hj) as (n & Hn & _). exists n. split; [done|].
  destruct (wf_node _ Hwf _ _ Hn) as (_ & _ & Hdeg). split; [done|].
  destruct (grid_adj_candidates rows cols connectivity _ i j Hwf Hk Hadj Hi Hj)
    as [Hsub Heq].
  rewrite Hdeg, <- grid_candidates_length with (cols := cols) (u := i * cols + j).
  unfold len. split.
  - apply inj_le. etrans; [apply subseteq_size, Hsub|].
    apply size_list_to_set_le.
  - intros Hi' Hj'. rewrite Heq by done. f_equal.
    apply size_list_to_set, grid_candidates_NoDup. lia.
Qed.

(** *** Greedy colouring of the square grid *)

Lemma square_grid_greedy_colors rows cols connectivity elapsed :
  connectivity ≠ "hex"%string →
  ∃ g',
    greedy_coloring elapsed (grid_graph rows cols connectivity)
    = Return (stats_of "Greedy" elapsed g') g'
    ∧ wf g' ∧ same_graph (grid_graph rows cols connectivity) g'
    ∧ ∀ i j, 0 ≤ i < rows → 0 ≤ j < cols →
             color_of g' (i * cols + j) = Some ((i + j) mod 2).
Proof.
  intros Hsq.
  destruct (cellular_grid_spec rows cols connectivity)
    as (_ & Hwf & Hk & _ & Hadj).
  set (g := grid_graph rows cols connectivity) in *.
  destruct (greedy_coloring_first_fit elapsed g Hwf)
    as (g' & Hrun & Hwf' & Hsame & Hff).
  exists g'. split; [done|]. split; [done|]. split; [done|].
  assert (Hnode : ∀ i j, 0 ≤ i < rows → 0 ≤ j < cols → has_node g (i * cols + j)).
  { intros i j Hi Hj. unfold has_node. rewrite Hk. apply range_elem.
    replace (Z.max 0 rows) with rows by lia.
    replace (Z.max 0 cols) with cols by lia.
    by apply grid_id_bounds. }
  assert (Hlower : ∀ i j v, 0 ≤ i < rows → 0 ≤ j < cols →
            v ∈ adj g' (i * cols + j) → v < i * cols + j →
            ∃ i' j', 0 ≤ i' < rows ∧ 0 ≤ j' < cols ∧ v = i' * cols + j'
                     ∧ i' + j' = i + j - 1).
  { intros i j v Hi Hj Hv Hlt. destruct Hsame as (_ & _ & Ha).
    rewrite Ha in Hv.
    destruct (wf_adj_nodes g Hwf _ _ Hv) as [_ Hn].
    unfold has_node in Hn. rewrite Hk, range_elem in Hn.
    replace (Z.max 0 rows) with rows in Hn by lia.
    replace (Z.max 0 cols) with cols in Hn by lia.
    destruct (grid_coords_exist rows cols v Hn) as (i' & j' & Hi' & Hj' & ->);
      [lia|].
    apply Hadj in Hv; [|done..].
    destruct Hv as (Hne & Hdi & Hdj & [?|[-> | ->]]); [done| |].
    - exists i, j'. split_and!; try done; lia.
    - assert (i' = i - 1) as ->.
      { destruct (decide (i' = i)) as [->|]; [done|].
        assert (i' = i - 1 ∨ i' = i + 1) as [-> | ->] by lia; lia. }
      exists (i - 1), j. split_and!; try done; lia. }
  assert (Hall : ∀ n : nat, ∀ i j, 0 ≤ i < rows → 0 ≤ j < cols →
            i * cols + j < Z.of_nat n →
            color_of g' (i * cols + j) = Some ((i + j) mod 2)).
  { induction n as [|n IH]; intros i j Hi Hj Hlt.
    { pose proof (grid_id_bounds rows cols i j Hi Hj). lia. }
    rewrite (Hff _ (Hnode i j Hi Hj)). f_equal.
    set (s := lower_neighbor_colors g' (i * cols + j)).
    pose proof (smallest_available_bounds s) as Hb.
    pose proof (smallest_available_fresh s) as Hfresh.
    pose proof (smallest_available_least s) as Hleast.
    set (c := get_smallest_available_color s) in *.
    assert (Hin : ∀ x, x ∈ s → x = (i + j - 1) mod 2).
    { intros x (v & Hv & Hvlt & Hc)%elem_of_lower_neighbor_colors.
      destruct (Hlower i j v Hi Hj Hv Hvlt) as (i' & j' & Hi' & Hj' & -> & Hsum).
      rewrite IH in Hc by (done || lia). injection Hc as <-. by rewrite Hsum. }
    assert (Hex : 0 < i + j → (i + j - 1) mod 2 ∈ s).
    { intros Hpos. apply elem_of_lower_neighbor_colors.
      destruct Hsame as (_ & _ & Ha). setoid_rewrite Ha.
      destruct (decide (0 < i)) as [Hi0|Hi0].
      - exists ((i - 1) * cols + j). split_and!.
        + apply Hadj; [done|done|lia|done|]. split_and!; try lia.
          intros [=]. lia.
        + lia.
        + rewrite IH by (done || lia). do 2 f_equal. lia.
      - exists (i * cols + (j - 1)). split_and!.
        + apply Hadj; [done|done|done|lia|]. split_and!; try lia.
          intros [=]. lia.
        + lia.
        + rewrite IH by (done || lia). do 2 f_equal. lia. }
    pose proof (Z.mod_pos_bound (i + j) 2 ltac:(lia)) as Hp.
    pose proof (Z.mod_pos_bound (i + j - 1) 2 ltac:(lia)) as Hq.
    assert (Hpq : (i + j - 1) mod 2 = 1 - (i + j) mod 2).
    { rewrite (Z.mod_eq (i + j - 1) 2), (Z.mod_eq (i + j) 2) in * by lia.
      pose proof (Z.div_mod (i + j) 2 ltac:(lia)).
      pose proof (Z.div_mod (i + j - 1) 2 ltac:(lia)).
      lia. }
    destruct (decide (c = (i + j) mod 2)) as [|Hne]; [done|]. exfalso.
    destruct (decide ((i + j) mod 2 = 0)) as [H0|H0].
    - assert (H0c : 0 ∈ s) by (apply Hleast; lia).
      apply Hin in H0c. lia.
    - assert (Hpos : 0 < i + j).
      { destruct (decide (i + j = 0)) as [Hz|]; [|lia]. by rewrite Hz in H0. }
      specialize (Hex Hpos).
      destruct (decide (c = 0)) as [Hc0|Hc0].
      + apply Hfresh. fold c. rewrite Hc0.
        replace 0 with ((i + j - 1) mod 2) by lia. done.
      + assert (H1 : 1 ∈ s) by (apply Hleast; lia).
        apply Hin in H1. lia. }
  intros i j Hi Hj.
  apply (Hall (Z.to_nat (i * cols + j + 1))); [done..|].
  pose proof (grid_id_bounds rows cols i j Hi Hj). lia.
Qed.

(** X15.  The grid of [cellular_grid] with a connectivity other than ['hex']
    is two-coloured by [greedy_coloring]: the node of row [i] and column [j]
    gets the colour [(i + j) mod 2], so the record that is returned reports
    at most two colours and no conflict. *)
Theorem X15_greedy_two_colours_the_square_grid
    (rows cols : Z) (connectivity : string) (elapsed : Q) :
  connectivity ≠ "hex"%string →
  ∃ g s g',
    cellular_grid rows cols connectivity empty_graph = Return tt g
    ∧ greedy_coloring elapsed g = Return s g'
    ∧ (∀ i j, 0 ≤ i < rows → 0 ≤ j < cols →
              color_of g' (i * cols + j) = Some ((i + j) mod 2))
    ∧ chromatic_number s ≤ 2
    ∧ conflicts s = 0.
Proof.
  intros Hsq.
  destruct (cellular_grid_spec rows cols connectivity)
    as (Hgrid & Hwf & Hk & _ & _).
  destruct (square_grid_greedy_colors rows cols connectivity elapsed Hsq)
    as (g' & Hrun & Hwf' & Hsame & Hcol).
  eexists _, _, g'. split; [done|]. split; [done|]. split; [done|].
  assert (Hcolors : ∀ c, c ∈ omap (λ kn : Z * Node, color kn.2) (nodes g') →
            c = 0 ∨ c = 1).
  { intros c ([k n] & Hin & Hc)%list_elem_of_omap. simpl in Hc.
    assert (Hkn : k ∈ keys g').
    { apply list_elem_of_fmap. by exists (k, n). }
    pose proof (elem_lookup_node _ _ _ (wf_keys g' Hwf') Hin) as Hlook.
    destruct Hsame as (Hk' & _). rewrite Hk', Hk, range_elem in Hkn.
    assert (0 < rows ∧ 0 < cols) as [Hr Hc0] by nia.
    replace (Z.max 0 rows) with rows in Hkn by lia.
    replace (Z.max 0 cols) with cols in Hkn by lia.
    destruct (grid_coords_exist rows cols k Hkn Hc0) as (i & j & Hi & Hj & ->).
    specialize (Hcol i j Hi Hj). unfold color_of in Hcol.
    rewrite Hlook in Hcol. simpl in Hcol. rewrite Hc in Hcol.
    injection Hcol as ->.
    pose proof (Z.mod_pos_bound (i + j) 2 ltac:(lia)). lia. }
  split.
  - simpl. unfold get_chromatic_number.
    assert (Hsub : (list_to_set (omap (λ kn : Z * Node, color kn.2) (nodes g'))
                    : gset Z) ⊆ {[0; 1]}).
    { intros c Hc%elem_of_list_to_set. apply Hcolors in Hc. set_solver. }
    apply subseteq_size in Hsub.
    rewrite size_union, !size_singleton in Hsub by set_solver. lia.
  - simpl. apply proper_no_conflict; [done|].
    destruct (greedy_coloring_spec elapsed _ Hwf) as (g2 & Hrun2 & Hc2 & _).
    assert (g2 = g') as -> by congruence. apply Hc2.
Qed.

Lemma X15_witness :
  ∃ g s g',
    cellular_grid 2 3 "square" empty_graph = Return tt g
    ∧ greedy_coloring 0 g = Return s g'
    ∧ (∀ i j, 0 ≤ i < 2 → 0 ≤ j < 3 →
              color_of g' (i * 3 + j) = Some ((i + j) mod 2))
    ∧ chromatic_number s ≤ 2
    ∧ conflicts s = 0.
Proof.
  apply (X15_greedy_two_colours_the_square_grid 2 3 "square" 0). done.
Defined.

(** ** The constructor and reset_colors *)

(** X16.  [Graph(num_nodes)] raises nothing and holds the nodes
    [0 .. num_nodes - 1] in this order, each at the position [(0, 0)],
    uncoloured, with degree and saturation 0 and no neighbour; it has no edge
    and an empty adjacency index.  A number that is not positive gives the
    empty graph. *)
Theorem X16_constructor (num_nodes : Z) :
  ∃ g,
    Graph_init num_nodes empty_graph = Return tt g
    ∧ nodes g = (λ i, (i, mkNode i default_position None 0 0 ∅))
                <$> range num_nodes
    ∧ edges g = [] ∧ adjacency g = ∅
    ∧ len (nodes g) = Z.max 0 num_nodes.
Proof.
  eexists. split; [apply Graph_init_run|].
  pose proof (run_add_nodes_pos ((λ i, (i, default_position)) <$> range num_nodes)
                empty_graph) as Hrun.
  rewrite <- !list_fmap_compose in Hrun.
  change ((λ p : Z * position_t, AddNode p.1 p.2) ∘ (λ i, (i, default_position)))
    with (λ i, AddNode i default_position) in Hrun.
  rewrite Hrun.
  - split_and!; [done..|].
    rewrite nodes_set_nodes. unfold len. cbn [nodes empty_graph app].
    rewrite length_fmap, range_length. lia.
  - simpl. apply NoDup_fmap_2; [|apply range_NoDup].
    intros x y Hxy. exact Hxy.
Qed.

(** X17.  [reset_colors] raises nothing, on any graph: afterwards no node
    holds a colour, every saturation is 0, [get_chromatic_number] is 0 and,
    on a well-formed graph, [count_conflicts] returns 0; ids, positions,
    degrees, neighbour sets, edges and the adjacency index are as before, and
    a second call changes nothing. *)
Theorem X17_reset_colors (g : Graph) :
  ∃ g',
    reset_colors g = Return tt g'
    ∧ (∀ k, color_of g' k = None)
    ∧ (∀ k, has_node g k → sat_of g' k = Some 0)
    ∧ get_chromatic_number g' = 0
    ∧ (wf g → count_conflicts g' = Return 0 g')
    ∧ keys g' = keys g ∧ edges g' = edges g ∧ adjacency g' = adjacency g
    ∧ (∀ k, static <$> lookup_node k (nodes g')
            = static <$> lookup_node k (nodes g))
    ∧ reset_colors g' = Return tt g'.
Proof.
  exists (set_nodes (reset_nodes (nodes g)) g).
  split; [apply reset_colors_run|].
  assert (Hnone : omap (λ kn : Z * Node, color kn.2) (reset_nodes (nodes g)) = []).
  { unfold reset_nodes. induction (nodes g) as [|[k n] l IH]; csimpl; done. }
  split_and!.
  - apply color_of_reset.
  - apply sat_of_reset.
  - unfold get_chromatic_number. rewrite nodes_set_nodes, Hnone. done.
  - intros Hwf. rewrite count_conflicts_run by by apply wf_reset.
    f_equal. apply proper_no_conflict; [by apply wf_reset|apply proper_reset].
  - apply reset_nodes_keys.
  - done.
  - done.
  - intros k. rewrite nodes_set_nodes, lookup_reset_nodes.
    by destruct (lookup_node k (nodes g)).
  - rewrite reset_colors_run, nodes_set_nodes, reset_nodes_idemp. done.
Qed.

(** ** Edge cases of the algorithms *)

(** The record of a graph without nodes. *)
Definition blank_record (name : string) (s : Stats) : Prop :=
  algorithm s = name ∧ chromatic_number s = 0 ∧ conflicts s = 0
  ∧ (efficiency s == 0)%Q ∧ stat_nodes s = 0 ∧ stat_edges s = 0.

Lemma blank_record_stats_of name elapsed g0 g :
  wf g0 → nodes g0 = [] → complete_colouring g0 g →
  blank_record name (stats_of name elapsed g).
Proof.
  intros Hwf0 Hempty (Hwf & Hp & (Hk & He & _) & _).
  assert (Hn : nodes g = []).
  { unfold keys in Hk. rewrite Hempty in Hk. by apply fmap_nil_inv in Hk. }
  assert (Hedges : edges g = []).
  { rewrite He. destruct (edges g0) as [|[u v] l] eqn:E; [done|].
    assert (Huv : (u, v) ∈ edges g0) by (rewrite E; apply list_elem_of_here).
    apply (wf_edges_adj g0 Hwf0), (wf_adj_nodes g0 Hwf0) in Huv as [Hu _].
    unfold has_node, keys in Hu. rewrite Hempty in Hu.
    by apply elem_of_nil in Hu. }
  unfold blank_record, stats_of. cbn [algorithm chromatic_number conflicts
    efficiency stat_nodes stat_edges].
  split; [done|]. split.
  { unfold get_chromatic_number. by rewrite Hn. }
  split; [by apply proper_no_conflict|].
  rewrite Hn, Hedges. split; [reflexivity|]. done.
Qed.

(** X18.  On a graph without nodes no algorithm raises, and
    [backtracking_exact] does not fail whatever the budget: each returns the
    record with 0 colours, 0 conflicts, efficiency 0, 0 nodes and 0 edges.
    ([dsatur] does not call [max] on the empty set.) *)
Theorem X18_algorithms_on_the_empty_graph
    (set_order : list Z → list Z) (max_colors : option Z) (elapsed : Q)
    (g0 : Graph) :
  valid_set_order set_order → wf g0 → nodes g0 = [] →
  (∃ s g, greedy_coloring elapsed g0 = Return s g ∧ blank_record "Greedy" s)
  ∧ (∃ s g, welsh_powell elapsed g0 = Return s g
            ∧ blank_record "Welsh-Powell" s)
  ∧ (∃ s g, dsatur set_order elapsed g0 = Return s g ∧ blank_record "DSATUR" s)
  ∧ (∃ s g, backtracking_exact max_colors elapsed g0 = Return (StatsRecord s) g
            ∧ blank_record "Backtracking-Exact" s).
Proof.
  intros Hord Hwf Hempty. split_and!.
  - destruct (greedy_coloring_spec elapsed g0 Hwf) as (g & Hrun & Hc & _).
    eexists _, g. split; [done|]. by apply (blank_record_stats_of _ _ g0).
  - destruct (welsh_powell_spec elapsed g0 Hwf) as (g & Hrun & Hc & _).
    eexists _, g. split; [done|]. by apply (blank_record_stats_of _ _ g0).
  - destruct (dsatur_spec set_order elapsed g0 Hord Hwf) as (g & Hrun & Hc & _).
    eexists _, g. split; [done|]. by apply (blank_record_stats_of _ _ g0).
  - destruct (backtracking_exact_spec max_colors elapsed g0 Hwf)
      as (r & g & Hrun & _ & _ & [(-> & Hc & _)|(-> & _)] & Hok).
    + eexists _, g. split; [done|]. by apply (blank_record_stats_of _ _ g0).
    + destruct Hok; [|done]. intros u Hu.
      unfold has_node, keys in Hu. rewrite Hempty in Hu.
      by apply elem_of_nil in Hu.
Qed.

Lemma X18_witness :
  (∃ s g, greedy_coloring 0 empty_graph = Return s g ∧ blank_record "Greedy" s)
  ∧ (∃ s g, welsh_powell 0 empty_graph = Return s g
            ∧ blank_record "Welsh-Powell" s)
  ∧ (∃ s g, dsatur ascending_order 0 empty_graph = Return s g
            ∧ blank_record "DSATUR" s)
  ∧ (∃ s g, backtracking_exact (Some 0) 0 empty_graph = Return (StatsRecord s) g
            ∧ blank_record "Backtracking-Exact" s).
Proof.
  apply (X18_algorithms_on_the_empty_graph ascending_order (Some 0) 0 empty_graph).
  - apply ascending_order_valid.
  - apply wf_empty.
  - reflexivity.
Defined.

(** X19.  With a budget that is not positive, [backtracking_exact] on a graph
    with at least one node tries no colour at all: it returns the error
    record and leaves every node uncoloured. *)
Theorem X19_backtracking_without_colours
    (k : Z) (elapsed : Q) (g0 : Graph) :
  wf g0 → nodes g0 ≠ [] → k ≤ 0 →
  ∃ g, backtracking_exact (Some k) elapsed g0 = Return no_solution g
       ∧ ∀ u, color_of g u = None.
Proof.
  intros Hwf Hne Hk.
  destruct (backtracking_exact_spec (Some k) elapsed g0 Hwf)
    as (r & g & Hrun & _ & _ & [(-> & _ & Hcol)|(-> & Hnone & _)] & _).
  - destruct (nodes g0) as [|[u n] l] eqn:E; [done|].
    destruct (Hcol u) as (c & _ & Hc).
    { unfold has_node, keys. rewrite E. apply list_elem_of_here. }
    unfold budget in Hc. simpl in Hc. lia.
  - by exists g.
Qed.

Lemma X19_witness :
  ∃ g, backtracking_exact (Some 0) 0 single_node = Return no_solution g
       ∧ ∀ u, color_of g u = None.
Proof.
  apply (X19_backtracking_without_colours 0 0 single_node).
  - apply wf_build.
  - discriminate.
  - lia.
Defined.
